(** * CHashTable: a chained hash table with load-factor triggered doubling

    Shallow embedding of [Source/Common/CHashTable.h] and
    [Source/Common/CHashTable.cpp].

    - [TUInt32] values are integers in [0, 2^32); every arithmetic
      operation of the source on them is followed by [wrap32].
    - [TUInt8] key bytes are integers in [0, 256).
    - [TFloat32] values are written as rationals; the load test
      [m_iNumEntries > m_iSize * m_kfMaxLoadFactor] is evaluated in IEEE
      single precision, rounding to nearest with ties to even: both
      integers and the load factor are converted, the product is rounded
      and the comparison is made on the rounded numbers.
    - Division by zero in [FindBucket] and out-of-range accesses to the
      bucket array are undefined behaviour in the source; the embedding
      reports them as [Fault].
    - [SetKeyValue] and [Resize] call each other; the embedding bounds the
      call depth by a counter which the public entry points set from the
      number of stored pairs ([SetKeyValue_terminates] shows that this
      bound is never reached).
    - [FindKeyValuePair] receives the bucket index as an [int]; the
      embedding identifies it with the unsigned index, as the conversion
      does for indices below 2^31.
    - Allocation is assumed to succeed.

    The later parts embed [OutputDistribution] and the caller of the
    table, the entity manager of [Source/Scene/EntityManager.h] and
    [Source/Scene/EntityManager.cpp] with the entity classes of
    [Source/Scene/Entity.h], [Source/Scene/Entity.cpp],
    [Source/Scene/PlanetEntity.h] and [Source/Scene/PlanetEntity.cpp].
    There [Fault] also stands for the end of the program at a [throw]
    without handler; the further modelling notes stand at the
    definitions. *)

From Stdlib Require Import ZArith QArith Lia Ascii String.
From stdpp Require Import base tactics option numbers relations strings gmap list.

Close Scope Q_scope.
Open Scope Z_scope.

(** ** Machine integers *)

(** Modelled from the spec: [TUInt32] and [TUInt8] are declared in
    [Defines.h]; they are the unsigned 32-bit and 8-bit integers, with
    wrap-around on overflow. [wrap32] reduces a result to [TUInt32]. *)
Definition wrap32 (z : Z) : Z := z mod 2 ^ 32.

(** ** Outcomes of the operations *)

Inductive outcome (A : Type) : Type :=
| Done (a : A)
| Fault
| OutOfFuel.

Arguments Done {A} a.
Arguments Fault {A}.
Arguments OutOfFuel {A}.

Definition obind {A B : Type} (m : outcome A) (f : A -> outcome B) : outcome B :=
  match m with
  | Done a => f a
  | Fault => Fault
  | OutOfFuel => OutOfFuel
  end.

Notation "x <~ m ;; f" := (obind m (fun x => f))
  (at level 100, m at next level, right associativity).

(** ** Hashing functions (CHashTable.cpp) *)

(** A hash function receives the key bytes and the key length. *)
Definition THashFunction : Type := list Z -> Z -> Z.

(** [pKey[iKeyIndex]]; keys are always hashed over their own length. *)
Definition byte_at (pKey : list Z) (iKeyIndex : nat) : Z := nth iKeyIndex pKey 0.

Definition AddUpHash : THashFunction := fun pKey iKeyLen =>
  fold_left (fun iHash iKeyIndex => wrap32 (iHash + byte_at pKey iKeyIndex))
            (seq 0 (Z.to_nat iKeyLen)) 0.

Definition JOneAtATimeHash : THashFunction := fun pKey iKeyLen =>
  let iHash :=
    fold_left (fun iHash iKeyIndex =>
                 let iHash := wrap32 (iHash + byte_at pKey iKeyIndex) in
                 let iHash := wrap32 (iHash + wrap32 (Z.shiftl iHash 10)) in
                 Z.lxor iHash (Z.shiftr iHash 6))
              (seq 0 (Z.to_nat iKeyLen)) 0 in
  let iHash := wrap32 (iHash + wrap32 (Z.shiftl iHash 3)) in
  let iHash := Z.lxor iHash (Z.shiftr iHash 11) in
  wrap32 (iHash + wrap32 (Z.shiftl iHash 15)).

(** Reference definitions, following the wording of the specification. *)
Module Reference.

Definition sum_of_bytes (bytes : list Z) : Z :=
  (fold_right Z.add 0 bytes) mod 2 ^ 32.

Definition mix_byte (acc byte : Z) : Z :=
  let acc := (acc + byte) mod 2 ^ 32 in
  let acc := (acc + acc * 2 ^ 10) mod 2 ^ 32 in
  Z.lxor acc (acc / 2 ^ 6).

Definition finalize (acc : Z) : Z :=
  let acc := (acc + acc * 2 ^ 3) mod 2 ^ 32 in
  let acc := Z.lxor acc (acc / 2 ^ 11) in
  (acc + acc * 2 ^ 15) mod 2 ^ 32.

Definition one_at_a_time (bytes : list Z) : Z :=
  finalize (fold_left mix_byte bytes 0).

End Reference.

(** ** Key types

    The template requires [operator==] on keys and reads their object
    representation as [sizeof(TKeyType)] raw bytes. *)

Class KeyType (K : Type) := {
  key_eq_dec :: EqDecision K;
  key_data : K -> list Z;
  sizeof_key : Z
}.

(** Four-byte integer keys (entity UIDs), little-endian. *)
Definition uint32_bytes (n : Z) : list Z :=
  [n mod 256; (n / 256) mod 256; (n / 65536) mod 256; (n / 16777216) mod 256].

#[export] Instance TUInt32_key : KeyType Z :=
  {| key_data := uint32_bytes; sizeof_key := 4 |}.

(** ** Load factor *)

(** Modelled from the spec: [TFloat32] is declared in [Defines.h] as the
    single-precision type. A value of this type is written as a rational
    number; the machine holds the single-precision number nearest to it
    ([binary32_of_Q]). *)
Definition TFloat32 : Type := Q.

(** [0.7f] *)
Definition default_MaxLoadFactor : TFloat32 := (11744051 # 16777216)%Q.

(** *** Single-precision arithmetic

    A finite single-precision number is a multiple of 2^-149 with at most
    24 significant bits and a magnitude below 2^128. It is held as its
    count of units of 2^-149, so the largest finite number counts
    (2^24 - 1) * 2^253 units. Zero has no sign here: the comparison does
    not tell the two zeros apart. The rounding mode is the default one, to
    nearest with ties to even, and the operations are evaluated in single
    precision. *)
Inductive binary32 : Type :=
| B32_finite (units : Z)
| B32_infinity (negative : bool)
| B32_nan.

(** The integer nearest to [N / D], the even one of two that are equally
    near; [0 < D]. *)
Definition rne_div (N D : Z) : Z :=
  let q := N / D in
  let r := N mod D in
  if 2 * r <? D then q
  else if D <? 2 * r then q + 1
  else if Z.even q then q else q + 1.

(** Single-precision numbers around [N / D] units lie [2 ^ spacing N D]
    units apart: one unit below 2^24 units, and twice as far with every
    further bit. *)
Definition spacing (N D : Z) : Z := Z.max 0 (Z.log2 (N / D) - 23).

(** The multiple of the spacing nearest to [N / D] units, for [0 <= N]
    and [0 < D]. *)
Definition round_units (N D : Z) : Z :=
  rne_div N (D * 2 ^ spacing N D) * 2 ^ spacing N D.

(** Rounding of [N / D] units, [0 < D]; a result of 2^128 or more in
    magnitude, that is 2^277 units, overflows to an infinity. *)
Definition binary32_round (N D : Z) : binary32 :=
  let r := round_units (Z.abs N) D in
  if 2 ^ 277 <=? r then B32_infinity (N <? 0)
  else B32_finite (if N <? 0 then - r else r).

(** Conversion of an integer, as for the [TUInt32] operands of the load
    test. *)
Definition binary32_of_Z (n : Z) : binary32 := binary32_round (n * 2 ^ 149) 1.

(** The single-precision number that a written load factor denotes. *)
Definition binary32_of_Q (q : Q) : binary32 :=
  binary32_round (Qnum q * 2 ^ 149) (Z.pos (Qden q)).

(** [x * y] *)
Definition binary32_mul (x y : binary32) : binary32 :=
  match x, y with
  | B32_finite a, B32_finite b => binary32_round (a * b) (2 ^ 149)
  | B32_finite a, B32_infinity s | B32_infinity s, B32_finite a =>
      if a =? 0 then B32_nan else B32_infinity (xorb s (a <? 0))
  | B32_infinity s, B32_infinity s' => B32_infinity (xorb s s')
  | _, _ => B32_nan
  end.

(** [x < y] *)
Definition binary32_lt (x y : binary32) : bool :=
  match x, y with
  | B32_finite a, B32_finite b => a <? b
  | B32_finite _, B32_infinity s => negb s
  | B32_infinity s, B32_finite _ => s
  | B32_infinity s, B32_infinity s' => s && negb s'
  | _, _ => false
  end.

(** Place of a number on the extended line, in units, with the infinities
    at 2^277 units from zero. *)
Definition rank (x : binary32) : Z :=
  match x with
  | B32_finite a => a
  | B32_infinity s => if s then - 2 ^ 277 else 2 ^ 277
  | B32_nan => 0
  end.

(** [iNumEntries > iSize * fMaxLoadFactor]: the integers are converted to
    single precision, the product is rounded, then the comparison is
    made. *)
Definition exceeds_load (iNumEntries iSize : Z) (fMaxLoadFactor : TFloat32) : bool :=
  binary32_lt (binary32_mul (binary32_of_Z iSize) (binary32_of_Q fMaxLoadFactor))
              (binary32_of_Z iNumEntries).

(** ** The table *)

Section CHashTable.
Context {TKeyType : Type} `{KeyType TKeyType} {TValueType : Type}.

Record TKeyValuePair : Type := { key : TKeyType; value : TValueType }.

(** [typedef list<TKeyValuePair> TBucket] *)
#[local] Abbreviation TBucket := (list TKeyValuePair).

Record CHashTable : Type := {
  m_aBuckets : list TBucket;
  m_iSize : Z;
  m_iNumEntries : Z;
  m_kpfHashFunction : THashFunction;
  m_kfMaxLoadFactor : TFloat32
}.

(** Constructor. *)
Definition CHashTable_new (iInitialSize : Z) (pfHashFunction : THashFunction)
    (fMaxLoadFactor : TFloat32) : CHashTable :=
  {| m_aBuckets := replicate (Z.to_nat iInitialSize) [];
     m_iSize := iInitialSize;
     m_iNumEntries := 0;
     m_kpfHashFunction := pfHashFunction;
     m_kfMaxLoadFactor := fMaxLoadFactor |}.

(** [m_aBuckets = a] *)
Definition with_buckets (t : CHashTable) (a : list TBucket) : CHashTable :=
  {| m_aBuckets := a;
     m_iSize := m_iSize t;
     m_iNumEntries := m_iNumEntries t;
     m_kpfHashFunction := m_kpfHashFunction t;
     m_kfMaxLoadFactor := m_kfMaxLoadFactor t |}.

(** [m_iNumEntries = n] *)
Definition with_entries (t : CHashTable) (n : Z) : CHashTable :=
  {| m_aBuckets := m_aBuckets t;
     m_iSize := m_iSize t;
     m_iNumEntries := n;
     m_kpfHashFunction := m_kpfHashFunction t;
     m_kfMaxLoadFactor := m_kfMaxLoadFactor t |}.

(** The hash of a key, before reduction to a bucket index. *)
Definition hash_of (t : CHashTable) (k : TKeyType) : Z :=
  m_kpfHashFunction t (key_data k) sizeof_key.

(** [FindBucket]: [iIndex %= m_iSize]. *)
Definition FindBucket (t : CHashTable) (k : TKeyType) : outcome Z :=
  if m_iSize t =? 0 then Fault
  else Done (hash_of t k mod m_iSize t).

(** [m_aBuckets[iBucket]] *)
Definition bucket_at (t : CHashTable) (iBucket : Z) : outcome TBucket :=
  if (0 <=? iBucket) && (iBucket <? m_iSize t) then
    match m_aBuckets t !! Z.to_nat iBucket with
    | Some b => Done b
    | None => Fault
    end
  else Fault.

(** The scan of [FindKeyValuePair] over one bucket: the position of the
    first pair with the given key, [None] for the end iterator. *)
Fixpoint scan_bucket (k : TKeyType) (b : TBucket) : option nat :=
  match b with
  | [] => None
  | p :: rest =>
      if decide (k = key p) then Some O
      else S <$> scan_bucket k rest
  end.

(** [FindKeyValuePair]. The source receives [iBucket] as an [int]; the
    embedding passes the index on as it is, which is what the conversion
    does for every index below 2^31. *)
Definition FindKeyValuePair (t : CHashTable) (iBucket : Z) (k : TKeyType)
  : outcome (option nat) :=
  b <~ bucket_at t iBucket ;; Done (scan_bucket k b).

(** [LookUpKey]; the middle component of the result is the content of
    [*pValue] after the call. *)
Definition LookUpKey (t : CHashTable) (k : TKeyType) (pValue : TValueType)
  : outcome (CHashTable * TValueType * bool) :=
  iBucket <~ FindBucket t k ;;
  it <~ FindKeyValuePair t iBucket k ;;
  b <~ bucket_at t iBucket ;;
  match it with
  | None => Done (t, pValue, false)
  | Some i =>
      match b !! i with
      | Some p => Done (t, value p, true)
      | None => Fault
      end
  end.

(** [itKeyValuePair->value = value] *)
Definition assign_value (v : TValueType) (p : TKeyValuePair) : TKeyValuePair :=
  {| key := key p; value := v |}.

(** The loops of [Resize] over the old buckets; [set] is [SetKeyValue]. *)
Fixpoint drain_bucket (set : CHashTable -> TKeyType -> TValueType -> outcome CHashTable)
    (old : TBucket) (t : CHashTable) : outcome CHashTable :=
  match old with
  | [] => Done t
  | front :: rest =>
      t' <~ set t (key front) (value front) ;;
      drain_bucket set rest t'
  end.

Fixpoint drain_buckets (set : CHashTable -> TKeyType -> TValueType -> outcome CHashTable)
    (aOldBuckets : list TBucket) (t : CHashTable) : outcome CHashTable :=
  match aOldBuckets with
  | [] => Done t
  | old :: rest =>
      t' <~ drain_bucket set old t ;;
      drain_buckets set rest t'
  end.

Definition Resize_with (set : CHashTable -> TKeyType -> TValueType -> outcome CHashTable)
    (t : CHashTable) (iNewSize : Z) : outcome CHashTable :=
  let iOldSize := m_iSize t in
  let aOldBuckets := m_aBuckets t in
  if Z.of_nat (length aOldBuckets) <? iOldSize then Fault
  else
    drain_buckets set (take (Z.to_nat iOldSize) aOldBuckets)
      {| m_aBuckets := replicate (Z.to_nat iNewSize) [];
         m_iSize := iNewSize;
         m_iNumEntries := 0;
         m_kpfHashFunction := m_kpfHashFunction t;
         m_kfMaxLoadFactor := m_kfMaxLoadFactor t |}.

(** The body of [SetKeyValue]; [resize] is the call to [Resize]. *)
Definition SetKeyValue_body (resize : CHashTable -> Z -> outcome CHashTable)
    (t : CHashTable) (k : TKeyType) (v : TValueType) : outcome CHashTable :=
  iBucket <~ FindBucket t k ;;
  it <~ FindKeyValuePair t iBucket k ;;
  match it with
  | Some i =>
      b <~ bucket_at t iBucket ;;
      Done (with_buckets t
              (<[Z.to_nat iBucket := alter (assign_value v) i b]> (m_aBuckets t)))
  | None =>
      let too_full :=
        exceeds_load (m_iNumEntries t) (m_iSize t) (m_kfMaxLoadFactor t) in
      t1 <~ (if too_full then resize t (wrap32 (m_iSize t * 2)) else Done t) ;;
      iBucket1 <~ (if too_full then FindBucket t1 k else Done iBucket) ;;
      b <~ bucket_at t1 iBucket1 ;;
      let newPair := {| key := k; value := v |} in
      Done (with_entries
              (with_buckets t1
                 (<[Z.to_nat iBucket1 := b ++ [newPair]]> (m_aBuckets t1)))
              (wrap32 (m_iNumEntries t1 + 1)))
  end.

(** [SetKeyValue] and [Resize] are mutually recursive; [fuel] bounds the
    depth of the calls. *)
Fixpoint SetKeyValue_fuel (fuel : nat) (t : CHashTable) (k : TKeyType) (v : TValueType)
  : outcome CHashTable :=
  match fuel with
  | O => OutOfFuel
  | S fuel' => SetKeyValue_body (Resize_with (SetKeyValue_fuel fuel')) t k v
  end.

(** All stored pairs, bucket after bucket. *)
Definition contents (t : CHashTable) : list TKeyValuePair := mjoin (m_aBuckets t).

Definition entries (t : CHashTable) : nat := length (contents t).

Definition keys (t : CHashTable) : list TKeyType := key <$> contents t.

(** [SetKeyValue] *)
Definition SetKeyValue (t : CHashTable) (k : TKeyType) (v : TValueType)
  : outcome CHashTable :=
  SetKeyValue_fuel (S (entries t)) t k v.

(** [Resize] *)
Definition Resize (t : CHashTable) (iNewSize : Z) : outcome CHashTable :=
  Resize_with (SetKeyValue_fuel (entries t)) t iNewSize.

(** [RemoveKey] *)
Definition RemoveKey (t : CHashTable) (k : TKeyType) : outcome (CHashTable * bool) :=
  iBucket <~ FindBucket t k ;;
  it <~ FindKeyValuePair t iBucket k ;;
  match it with
  | None => Done (t, false)
  | Some i =>
      b <~ bucket_at t iBucket ;;
      Done (with_entries
              (with_buckets t (<[Z.to_nat iBucket := delete i b]> (m_aBuckets t)))
              (wrap32 (m_iNumEntries t - 1)),
            true)
  end.

(** [RemoveAllKeys]: the loop clears buckets [0 .. m_iSize-1]. *)
Fixpoint clear_from (n : nat) (iBucket : nat) (a : list TBucket) : outcome (list TBucket) :=
  match n with
  | O => Done a
  | S n' =>
      match a !! iBucket with
      | Some _ => clear_from n' (S iBucket) (<[iBucket := []]> a)
      | None => Fault
      end
  end.

Definition RemoveAllKeys (t : CHashTable) : outcome CHashTable :=
  a <~ clear_from (Z.to_nat (m_iSize t)) 0 (m_aBuckets t) ;;
  Done (with_buckets t a).

End CHashTable.

Arguments TKeyValuePair : clear implicits.
Abbreviation TBucket K V := (list (TKeyValuePair K V)).
Arguments CHashTable : clear implicits.

(** ** Vocabulary of the statements *)

Section Vocabulary.
Context {TKeyType : Type} `{KeyType TKeyType} {TValueType : Type}.

#[local] Abbreviation Table := (CHashTable TKeyType TValueType).
#[local] Abbreviation Pair := (TKeyValuePair TKeyType TValueType).

(** Every stored pair sits in the bucket its key hashes to. *)
Definition placed (t : Table) : Prop :=
  forall (i : nat) (b : list Pair) (p : Pair),
    m_aBuckets t !! i = Some b -> p ∈ b ->
    hash_of t (key p) mod m_iSize t = Z.of_nat i.

Record wf (t : Table) : Prop := {
  wf_length : length (m_aBuckets t) = Z.to_nat (m_iSize t);
  wf_size : 0 < m_iSize t < 2 ^ 32;
  wf_count : 0 <= m_iNumEntries t < 2 ^ 32;
  wf_placed : placed t;
  wf_nodup : NoDup (keys t)
}.

(** The pair [(k, v)] is stored in the table. *)
Definition stored (t : Table) (k : TKeyType) (v : TValueType) : Prop :=
  {| key := k; value := v |} ∈ contents t.

(** The value of an existing key was overwritten in place. *)
Record updated (t : Table) (k : TKeyType) (v : TValueType) (t' : Table) : Prop := {
  up_present : k ∈ keys t;
  up_size : m_iSize t' = m_iSize t;
  up_count : m_iNumEntries t' = m_iNumEntries t;
  up_keys : keys t' = keys t;
  up_stored : stored t' k v;
  up_frame : forall p : Pair, key p <> k -> p ∈ contents t' <-> p ∈ contents t
}.

(** A pair with a new key was appended, after a resize when the count
    held before the insertion exceeded the load limit. *)
Record inserted (t : Table) (k : TKeyType) (v : TValueType) (t' : Table) : Prop := {
  in_absent : k ∉ keys t;
  in_contents : contents t' ≡ₚ {| key := k; value := v |} :: contents t;
  in_home : exists b : list Pair,
      m_aBuckets t' !! Z.to_nat (hash_of t' k mod m_iSize t') =
        Some (b ++ [{| key := k; value := v |}]);
  in_growth :
    (exceeds_load (m_iNumEntries t) (m_iSize t) (m_kfMaxLoadFactor t) = false /\
     m_iSize t' = m_iSize t /\
     m_iNumEntries t' = wrap32 (m_iNumEntries t + 1)) \/
    (exceeds_load (m_iNumEntries t) (m_iSize t) (m_kfMaxLoadFactor t) = true /\
     (exists j : nat, (1 <= j)%nat /\ m_iSize t' = wrap32 (m_iSize t * 2 ^ Z.of_nat j)) /\
     m_iNumEntries t' = wrap32 (Z.of_nat (entries t) + 1))
}.

Record set_post (t : Table) (k : TKeyType) (v : TValueType) (t' : Table) : Prop := {
  sp_wf : wf t';
  sp_hash : m_kpfHashFunction t' = m_kpfHashFunction t;
  sp_load : m_kfMaxLoadFactor t' = m_kfMaxLoadFactor t;
  sp_effect : updated t k v t' \/ inserted t k v t'
}.

(** What a completed [Resize t n] leaves behind. *)
Record resized (t : Table) (n : Z) (t1 : Table) : Prop := {
  rs_wf : wf t1;
  rs_hash : m_kpfHashFunction t1 = m_kpfHashFunction t;
  rs_load : m_kfMaxLoadFactor t1 = m_kfMaxLoadFactor t;
  rs_contents : contents t1 ≡ₚ contents t;
  rs_count : m_iNumEntries t1 = wrap32 (Z.of_nat (entries t));
  rs_size : exists j : nat, m_iSize t1 = wrap32 (n * 2 ^ Z.of_nat j)
}.

(** What a successful [RemoveKey] leaves behind. *)
Record removed (t : Table) (k : TKeyType) (t' : Table) : Prop := {
  rm_wf : wf t';
  rm_size : m_iSize t' = m_iSize t;
  rm_hash : m_kpfHashFunction t' = m_kpfHashFunction t;
  rm_load : m_kfMaxLoadFactor t' = m_kfMaxLoadFactor t;
  rm_count : m_iNumEntries t' = wrap32 (m_iNumEntries t - 1);
  rm_gone : k ∉ keys t';
  rm_contents : exists v, contents t ≡ₚ {| key := k; value := v |} :: contents t';
  rm_bucket : exists (b : list Pair) (j : nat),
      m_aBuckets t !! Z.to_nat (hash_of t k mod m_iSize t) = Some b /\
      m_aBuckets t' = <[Z.to_nat (hash_of t k mod m_iSize t) := delete j b]> (m_aBuckets t) /\
      (key <$> b !! j) = Some k
}.

(** Number of stored pairs whose key is [k]. *)
Definition occurrences (t : Table) (k : TKeyType) : nat :=
  length (filter (fun p : Pair => key p = k) (contents t)).

(** One completed call of a public operation. *)
Inductive step : Table -> Table -> Prop :=
| step_LookUpKey (t : Table) k pValue t' v found :
    LookUpKey t k pValue = Done (t', v, found) -> step t t'
| step_SetKeyValue (t : Table) k v t' :
    SetKeyValue t k v = Done t' -> step t t'
| step_RemoveKey (t : Table) k t' found :
    RemoveKey t k = Done (t', found) -> step t t'
| step_RemoveAllKeys (t : Table) t' :
    RemoveAllKeys t = Done t' -> step t t'.

(** Tables built by the constructor with a positive size and then used
    through the public operations. *)
Inductive reachable : Table -> Prop :=
| reach_new (n : Z) (h : THashFunction) (L : TFloat32) :
    0 < n < 2 ^ 32 -> reachable (CHashTable_new n h L)
| reach_step (t t' : Table) : reachable t -> step t t' -> reachable t'.

(** The entry count covers the stored pairs and exceeds the load limit
    by at most one insertion. *)
Record steady (t : Table) : Prop := {
  st_wf : wf t;
  st_count : Z.of_nat (entries t) <= m_iNumEntries t;
  st_slack :
    exceeds_load (m_iNumEntries t - 1) (m_iSize t) (m_kfMaxLoadFactor t) = false
}.

(** [SetKeyValue] for each pair of the list, in order. *)
Fixpoint insert_all (t : Table) (kvs : list (TKeyType * TValueType)) : outcome Table :=
  match kvs with
  | [] => Done t
  | kv :: rest => t1 <~ SetKeyValue t kv.1 kv.2 ;; insert_all t1 rest
  end.

End Vocabulary.

(** ** Observing outcomes *)

Definition is_done {A : Type} (o : outcome A) : bool :=
  match o with Done _ => true | _ => false end.

Definition result {A : Type} (d : A) (o : outcome A) : A :=
  match o with Done a => a | _ => d end.

(** ** Entity tables: four-byte keys, one-at-a-time hash *)

(** [CHashTable<TUInt32, TUInt32>( iInitialSize, JOneAtATimeHash, fMaxLoadFactor )] *)
Definition uid_table (iInitialSize : Z) (fMaxLoadFactor : TFloat32) : CHashTable Z Z :=
  CHashTable_new iInitialSize JOneAtATimeHash fMaxLoadFactor.

(** Keys [1 .. n], each mapped to ten times the key. *)
Definition first_keys (n : nat) : list (Z * Z) :=
  map (fun i => (Z.of_nat i, Z.of_nat i * 10)) (seq 1 n).

Definition scenario (L : TFloat32) (n : nat) : outcome (CHashTable Z Z) :=
  insert_all (uid_table 4 L) (first_keys n).

(** Size, entry count and number of stored pairs of a table. *)
Definition shape (t : CHashTable Z Z) : Z * Z * nat :=
  (m_iSize t, m_iNumEntries t, entries t).

(** Result flag and value slot of a lookup. *)
Definition looked_up (o : outcome (CHashTable Z Z * Z * bool)) : outcome (Z * bool) :=
  r <~ o ;; Done (r.1.2, r.2).

(** A fresh table of four buckets, and the same table holding key 1. *)
Definition fresh : CHashTable Z Z := uid_table 4 default_MaxLoadFactor.

Definition one_entry : CHashTable Z Z := result fresh (SetKeyValue fresh 1 10).

Definition ten_entries : CHashTable Z Z :=
  result fresh (scenario default_MaxLoadFactor 10).

(** ** Bucket statistics ([CHashTable::OutputDistribution]) *)

(** The character printed for a bucket of [iCollision] pairs: its digit,
    or ['+'] for ten pairs or more. *)
Definition collision_mark (iCollision : Z) : ascii :=
  if iCollision <? 10 then ascii_of_nat (48 + Z.to_nat iCollision) else "+"%char.

(** The characters printed so far and the two counters. The two ratios
    that the function prints last are single-precision quotients of the
    counters and are not modelled. *)
Record TDistribution : Type := {
  marks : list ascii;
  iAverageBucketSize : Z;
  iUsedBuckets : Z
}.

Section Distribution.
Context {TKeyType : Type} `{KeyType TKeyType} {TValueType : Type}.

(** One round of the loop: the mark of the bucket, and the counters when
    the bucket is not empty. *)
Definition count_bucket (d : TDistribution) (iCollision : Z) : TDistribution :=
  {| marks := marks d ++ [collision_mark iCollision];
     iAverageBucketSize :=
       if 0 <? iCollision then wrap32 (iAverageBucketSize d + iCollision)
       else iAverageBucketSize d;
     iUsedBuckets :=
       if 0 <? iCollision then wrap32 (iUsedBuckets d + 1) else iUsedBuckets d |}.

(** The loop over [iBucket]; [n] is the number of rounds left. *)
Fixpoint count_from (t : CHashTable TKeyType TValueType) (n : nat) (iBucket : Z)
    (d : TDistribution) : outcome TDistribution :=
  match n with
  | O => Done d
  | S n' =>
      b <~ bucket_at t iBucket ;;
      count_from t n' (wrap32 (iBucket + 1))
        (count_bucket d (wrap32 (Z.of_nat (length b))))
  end.

Definition OutputDistribution (t : CHashTable TKeyType TValueType)
  : outcome TDistribution :=
  count_from t (Z.to_nat (m_iSize t)) 0
    {| marks := []; iAverageBucketSize := 0; iUsedBuckets := 0 |}.

End Distribution.

(** ** The scene: entity templates and entities
    ([Scene/Entity.h], [Scene/Entity.cpp], [Scene/PlanetEntity.h],
    [Scene/PlanetEntity.cpp])

    - An object is represented by its value, a pointer to it by that value
      (a null pointer by [None]); [delete] is not modelled.
    - [CVector3] and [CMatrix4x4] are declared in headers that are not among
      the sources: the development is parametric in the two types and in
      the two matrix operations that the entity classes call.
    - Of a mesh, the entity classes read the number of nodes and the
      position matrix of each node: a mesh is the list of these matrices.
      Reading a mesh file is a parameter as well. *)

(** [typedef TUInt32 TEntityUID] *)
Abbreviation TEntityUID := Z.

Class SceneLibrary (CVector3 CMatrix4x4 : Type) := {
  (** [CMatrix4x4( position, rotation, kZXY, scale )] *)
  CMatrix4x4_new : CVector3 -> CVector3 -> CVector3 -> CMatrix4x4;
  (** [matrix.RotateLocalY( angle )] *)
  RotateLocalY : TFloat32 -> CMatrix4x4 -> CMatrix4x4;
  (** [CMesh::Load( fileName )]: the node matrices, [None] when it
      returns false *)
  Load : string -> option (list CMatrix4x4)
}.

Module EntityTemplate.
Section EntityTemplate.
Context {CVector3 CMatrix4x4 : Type} `{SceneLibrary CVector3 CMatrix4x4}.

Record CEntityTemplate : Type := {
  m_Type : string;
  m_Name : string;
  m_Mesh : list CMatrix4x4
}.

(** Constructor; the [throw] without a handler ends the program. *)
Definition CEntityTemplate_new (type name meshFilename : string)
  : outcome CEntityTemplate :=
  match Load meshFilename with
  | Some mesh => Done {| m_Type := type; m_Name := name; m_Mesh := mesh |}
  | None => Fault
  end.

End EntityTemplate.
Arguments CEntityTemplate : clear implicits.
End EntityTemplate.

Abbreviation CEntityTemplate := EntityTemplate.CEntityTemplate.

Section Entity.
Context {CVector3 CMatrix4x4 : Type} `{SceneLibrary CVector3 CMatrix4x4}.

#[local] Abbreviation Template_ := (CEntityTemplate CMatrix4x4).

(** The absolute matrices [m_Matrices] are written and read by [Render]
    only and are left out. *)
Record CEntity : Type := {
  m_Template : Template_;
  m_UID : TEntityUID;
  m_Name : string;
  m_RelMatrices : list CMatrix4x4
}.

(** [CEntity::CEntity]: one relative matrix per node of the mesh, the
    first one overwritten from the parameters. *)
Definition CEntity_new (entityTemplate : option Template_) (UID : TEntityUID)
    (name : string) (position rotation scale : CVector3) : outcome CEntity :=
  match entityTemplate with
  | None => Fault
  | Some tpl =>
      match EntityTemplate.m_Mesh tpl with
      | [] => Fault
      | _ :: nodes =>
          Done {| m_Template := tpl;
                  m_UID := UID;
                  m_Name := name;
                  m_RelMatrices := CMatrix4x4_new position rotation scale :: nodes |}
      end
  end.

(** [class CPlanetEntity : public CEntity] *)
Record CPlanetEntity : Type := {
  planet_CEntity : CEntity;
  m_SpinSpeed : TFloat32
}.

Definition CPlanetEntity_new (planetTemplate : option Template_) (UID : TEntityUID)
    (name : string) (spinSpeed : TFloat32) (position rotation scale : CVector3)
  : outcome CPlanetEntity :=
  e <~ CEntity_new planetTemplate UID name position rotation scale ;;
  Done {| planet_CEntity := e; m_SpinSpeed := spinSpeed |}.

(** What a [CEntity*] points to: an object of one of the two classes. *)
Inductive CEntityObject : Type :=
| AsEntity (e : CEntity)
| AsPlanet (p : CPlanetEntity).

Definition base_of (o : CEntityObject) : CEntity :=
  match o with
  | AsEntity e => e
  | AsPlanet p => planet_CEntity p
  end.

Definition GetUID (o : CEntityObject) : TEntityUID := m_UID (base_of o).

Definition Template (o : CEntityObject) : Template_ := m_Template (base_of o).

Definition GetName (o : CEntityObject) : string := m_Name (base_of o).

(** The virtual [Update]: [CEntity::Update] does nothing,
    [CPlanetEntity::Update] turns [Matrix()], the first relative matrix.
    Both return true. *)
Definition Update (updateTime : TFloat32) (o : CEntityObject)
  : outcome (CEntityObject * bool) :=
  match o with
  | AsEntity e => Done (o, true)
  | AsPlanet p =>
      match m_RelMatrices (planet_CEntity p) with
      | [] => Fault
      | root :: nodes =>
          Done (AsPlanet
                  {| planet_CEntity :=
                       {| m_Template := m_Template (planet_CEntity p);
                          m_UID := m_UID (planet_CEntity p);
                          m_Name := m_Name (planet_CEntity p);
                          m_RelMatrices :=
                            RotateLocalY (m_SpinSpeed p * updateTime)%Q root :: nodes |};
                     m_SpinSpeed := m_SpinSpeed p |},
                true)
      end
  end.

End Entity.

Arguments CEntity : clear implicits.
Arguments CPlanetEntity : clear implicits.
Arguments CEntityObject : clear implicits.

(** ** The entity manager ([Scene/EntityManager.h], [Scene/EntityManager.cpp])

    [DestroyTemplate], [DestroyAllTemplates] and the destructor free
    objects that entities may still point to, and [RenderAllEntities]
    draws; they are left out. *)

Section CEntityManager.
Context {CVector3 CMatrix4x4 : Type} `{SceneLibrary CVector3 CMatrix4x4}.

#[local] Abbreviation Template_ := (CEntityTemplate CMatrix4x4).
#[local] Abbreviation Object := (CEntityObject CMatrix4x4).

(** The iterator [m_EnumEntity] is kept as a position in [m_Entities]. *)
Record CEntityManager : Type := {
  m_Templates : gmap string Template_;
  m_Entities : list Object;
  m_EntityUIDMap : CHashTable TEntityUID Z;
  m_NextUID : TEntityUID;
  m_IsEnumerating : bool;
  m_EnumEntity : nat;
  m_EnumName : string;
  m_EnumTemplateName : string;
  m_EnumTemplateType : string
}.

(** Constructor. It leaves [m_EnumEntity] unset; the position is not read
    before [BeginEnumEntities] sets it. *)
Definition CEntityManager_new : CEntityManager :=
  {| m_Templates := ∅;
     m_Entities := [];
     m_EntityUIDMap := uid_table 2048 default_MaxLoadFactor;
     m_NextUID := 0;
     m_IsEnumerating := false;
     m_EnumEntity := 0%nat;
     m_EnumName := EmptyString;
     m_EnumTemplateName := EmptyString;
     m_EnumTemplateType := EmptyString |}.

(** [m_Templates = T] *)
Definition with_templates (m : CEntityManager) (T : gmap string Template_)
  : CEntityManager :=
  {| m_Templates := T;
     m_Entities := m_Entities m;
     m_EntityUIDMap := m_EntityUIDMap m;
     m_NextUID := m_NextUID m;
     m_IsEnumerating := m_IsEnumerating m;
     m_EnumEntity := m_EnumEntity m;
     m_EnumName := m_EnumName m;
     m_EnumTemplateName := m_EnumTemplateName m;
     m_EnumTemplateType := m_EnumTemplateType m |}.

(** [m_Entities = l] *)
Definition with_objects (m : CEntityManager) (l : list Object) : CEntityManager :=
  {| m_Templates := m_Templates m;
     m_Entities := l;
     m_EntityUIDMap := m_EntityUIDMap m;
     m_NextUID := m_NextUID m;
     m_IsEnumerating := m_IsEnumerating m;
     m_EnumEntity := m_EnumEntity m;
     m_EnumName := m_EnumName m;
     m_EnumTemplateName := m_EnumTemplateName m;
     m_EnumTemplateType := m_EnumTemplateType m |}.

(** The state after [*m_EntityUIDMap] has become [t]. *)
Definition with_map (m : CEntityManager) (t : CHashTable TEntityUID Z)
  : CEntityManager :=
  {| m_Templates := m_Templates m;
     m_Entities := m_Entities m;
     m_EntityUIDMap := t;
     m_NextUID := m_NextUID m;
     m_IsEnumerating := m_IsEnumerating m;
     m_EnumEntity := m_EnumEntity m;
     m_EnumName := m_EnumName m;
     m_EnumTemplateName := m_EnumTemplateName m;
     m_EnumTemplateType := m_EnumTemplateType m |}.

(** [m_NextUID = n] *)
Definition with_next (m : CEntityManager) (n : TEntityUID) : CEntityManager :=
  {| m_Templates := m_Templates m;
     m_Entities := m_Entities m;
     m_EntityUIDMap := m_EntityUIDMap m;
     m_NextUID := n;
     m_IsEnumerating := m_IsEnumerating m;
     m_EnumEntity := m_EnumEntity m;
     m_EnumName := m_EnumName m;
     m_EnumTemplateName := m_EnumTemplateName m;
     m_EnumTemplateType := m_EnumTemplateType m |}.

(** [m_IsEnumerating = b] *)
Definition with_enumerating (m : CEntityManager) (b : bool) : CEntityManager :=
  {| m_Templates := m_Templates m;
     m_Entities := m_Entities m;
     m_EntityUIDMap := m_EntityUIDMap m;
     m_NextUID := m_NextUID m;
     m_IsEnumerating := b;
     m_EnumEntity := m_EnumEntity m;
     m_EnumName := m_EnumName m;
     m_EnumTemplateName := m_EnumTemplateName m;
     m_EnumTemplateType := m_EnumTemplateType m |}.

(** [m_EnumEntity = pos] *)
Definition with_position (m : CEntityManager) (pos : nat) : CEntityManager :=
  {| m_Templates := m_Templates m;
     m_Entities := m_Entities m;
     m_EntityUIDMap := m_EntityUIDMap m;
     m_NextUID := m_NextUID m;
     m_IsEnumerating := m_IsEnumerating m;
     m_EnumEntity := pos;
     m_EnumName := m_EnumName m;
     m_EnumTemplateName := m_EnumTemplateName m;
     m_EnumTemplateType := m_EnumTemplateType m |}.

(** *** Templates *)

(** [CreateTemplate] *)
Definition CreateTemplate (m : CEntityManager) (type name mesh : string)
  : outcome (CEntityManager * Template_) :=
  newTemplate <~ EntityTemplate.CEntityTemplate_new type name mesh ;;
  Done (with_templates m (<[name := newTemplate]> (m_Templates m)), newTemplate).

(** [GetTemplate]; [None] is the null pointer. *)
Definition GetTemplate (m : CEntityManager) (name : string) : option Template_ :=
  m_Templates m !! name.

(** *** Creation and destruction of entities *)

(** The part that [CreateEntity] and [CreatePlanet] share, from the
    [push_back] on. *)
Definition add_entity (m : CEntityManager) (newEntity : Object)
  : outcome (CEntityManager * TEntityUID) :=
  let entityIndex := wrap32 (Z.of_nat (length (m_Entities m))) in
  let m1 := with_objects m (m_Entities m ++ [newEntity]) in
  t <~ SetKeyValue (m_EntityUIDMap m1) (m_NextUID m1) entityIndex ;;
  let m2 := with_enumerating (with_map m1 t) false in
  Done (with_next m2 (wrap32 (m_NextUID m2 + 1)), m_NextUID m2).

(** [CreateEntity] *)
Definition CreateEntity (m : CEntityManager) (templateName name : string)
    (position rotation scale : CVector3) : outcome (CEntityManager * TEntityUID) :=
  let entityTemplate := GetTemplate m templateName in
  newEntity <~ CEntity_new entityTemplate (m_NextUID m) name position rotation scale ;;
  add_entity m (AsEntity newEntity).

(** [CreatePlanet] *)
Definition CreatePlanet (m : CEntityManager) (templateName name : string)
    (spinSpeed : TFloat32) (position rotation scale : CVector3)
  : outcome (CEntityManager * TEntityUID) :=
  let planetTemplate := GetTemplate m templateName in
  newEntity <~ CPlanetEntity_new planetTemplate (m_NextUID m) name spinSpeed
                 position rotation scale ;;
  add_entity m (AsPlanet newEntity).

(** [m_Entities[index]] *)
Definition entity_at (m : CEntityManager) (index : Z) : outcome Object :=
  if 0 <=? index then
    match m_Entities m !! Z.to_nat index with
    | Some o => Done o
    | None => Fault
    end
  else Fault.

(** [m_Entities.back()] *)
Definition back (l : list Object) : outcome Object :=
  match last l with
  | Some o => Done o
  | None => Fault
  end.

(** [DestroyEntity]. The local [entityIndex] is not initialised; its
    content is read only after [LookUpKey] has written it. *)
Definition DestroyEntity (m : CEntityManager) (UID : TEntityUID)
  : outcome (CEntityManager * bool) :=
  r <~ LookUpKey (m_EntityUIDMap m) UID 0 ;;
  let entityIndex := r.1.2 in
  if negb r.2 then Done (with_map m r.1.1, false)
  else
    _ <~ entity_at m entityIndex ;;
    r1 <~ RemoveKey r.1.1 UID ;;
    let m1 := with_map m r1.1 in
    m2 <~ (if negb (entityIndex =? Z.of_nat (length (m_Entities m1)) - 1) then
             last_entity <~ back (m_Entities m1) ;;
             let m' := with_objects m1
                         (<[Z.to_nat entityIndex := last_entity]> (m_Entities m1)) in
             t <~ SetKeyValue (m_EntityUIDMap m') (GetUID last_entity) entityIndex ;;
             Done (with_map m' t)
           else Done m1) ;;
    _ <~ back (m_Entities m2) ;;
    Done (with_enumerating (with_objects m2 (removelast (m_Entities m2))) false, true).

(** The loop of [DestroyAllEntities]; [n] is the number of rounds. *)
Fixpoint pop_back_all (n : nat) (l : list Object) : list Object :=
  match n with
  | O => l
  | S n' => pop_back_all n' (removelast l)
  end.

(** [DestroyAllEntities] *)
Definition DestroyAllEntities (m : CEntityManager) : outcome CEntityManager :=
  t <~ RemoveAllKeys (m_EntityUIDMap m) ;;
  let m1 := with_map m t in
  Done (with_enumerating
          (with_objects m1 (pop_back_all (length (m_Entities m1)) (m_Entities m1)))
          false).

(** *** Access to entities *)

(** [NumEntities] *)
Definition NumEntities (m : CEntityManager) : Z :=
  wrap32 (Z.of_nat (length (m_Entities m))).

(** [GetEntityAtIndex] *)
Definition GetEntityAtIndex (m : CEntityManager) (index : Z) : outcome Object :=
  entity_at m index.

(** [GetEntity( UID )]; [None] is the null pointer. *)
Definition GetEntity (m : CEntityManager) (UID : TEntityUID)
  : outcome (CEntityManager * option Object) :=
  r <~ LookUpKey (m_EntityUIDMap m) UID 0 ;;
  if negb r.2 then Done (with_map m r.1.1, None)
  else
    o <~ entity_at m r.1.2 ;;
    Done (with_map m r.1.1, Some o).

(** [pattern.length() == 0 || s == pattern] *)
Definition any_or_equal (pattern s : string) : bool :=
  (String.length pattern =? 0)%nat || bool_decide (s = pattern).

(** The test of [GetEntity( name, templateName, templateType )]. *)
Definition named (name templateName templateType : string) (o : Object) : bool :=
  bool_decide (GetName o = name) &&
  any_or_equal templateName (EntityTemplate.m_Name (Template o)) &&
  any_or_equal templateType (EntityTemplate.m_Type (Template o)).

(** The test of [EnumEntity]. *)
Definition enumerated (m : CEntityManager) (o : Object) : bool :=
  any_or_equal (m_EnumName m) (GetName o) &&
  any_or_equal (m_EnumTemplateName m) (EntityTemplate.m_Name (Template o)) &&
  any_or_equal (m_EnumTemplateType m) (EntityTemplate.m_Type (Template o)).

(** The scan of [GetEntity( name, templateName, templateType )]. *)
Fixpoint first_entity (test : Object -> bool) (l : list Object) : option Object :=
  match l with
  | [] => None
  | o :: rest => if test o then Some o else first_entity test rest
  end.

Definition GetEntity_named (m : CEntityManager) (name templateName templateType : string)
  : option Object :=
  first_entity (named name templateName templateType) (m_Entities m).

(** [BeginEnumEntities] *)
Definition BeginEnumEntities (m : CEntityManager) (name templateName templateType : string)
  : CEntityManager :=
  {| m_Templates := m_Templates m;
     m_Entities := m_Entities m;
     m_EntityUIDMap := m_EntityUIDMap m;
     m_NextUID := m_NextUID m;
     m_IsEnumerating := true;
     m_EnumEntity := 0%nat;
     m_EnumName := name;
     m_EnumTemplateName := templateName;
     m_EnumTemplateType := templateType |}.

(** [EndEnumEntities] *)
Definition EndEnumEntities (m : CEntityManager) : CEntityManager :=
  with_enumerating m false.

(** The loop of [EnumEntity] from the iterator on: the entity found, if
    any, and the iterator on leaving the loop. *)
Fixpoint next_entity (test : Object -> bool) (rest : list Object) (pos : nat)
  : option Object * nat :=
  match rest with
  | [] => (None, pos)
  | o :: rest' =>
      if test o then (Some o, S pos) else next_entity test rest' (S pos)
  end.

(** [EnumEntity]; an iterator beyond the end is reported as [Fault]. *)
Definition EnumEntity (m : CEntityManager) : outcome (CEntityManager * option Object) :=
  if negb (m_IsEnumerating m) then Done (m, None)
  else if (length (m_Entities m) <? m_EnumEntity m)%nat then Fault
  else
    let found := next_entity (enumerated m) (drop (m_EnumEntity m) (m_Entities m))
                   (m_EnumEntity m) in
    match found.1 with
    | Some o => Done (with_position m found.2, Some o)
    | None => Done (with_enumerating (with_position m found.2) false, None)
    end.

(** Calls of [EnumEntity] until it returns the null pointer, at most
    [fuel] of them: the entities returned, in order. *)
Fixpoint enumerate (fuel : nat) (m : CEntityManager)
  : outcome (CEntityManager * list Object) :=
  match fuel with
  | O => OutOfFuel
  | S fuel' =>
      r <~ EnumEntity m ;;
      match r.2 with
      | None => Done (r.1, [])
      | Some o =>
          r' <~ enumerate fuel' r.1 ;;
          Done (r'.1, o :: r'.2)
      end
  end.

(** *** Update *)

(** The loop of [UpdateAllEntities]; [update] is the virtual [Update] and
    [fuel] bounds the number of rounds. *)
Fixpoint update_from (update : TFloat32 -> Object -> outcome (Object * bool))
    (fuel : nat) (updateTime : TFloat32) (m : CEntityManager) (entity : Z)
  : outcome CEntityManager :=
  match fuel with
  | O => OutOfFuel
  | S fuel' =>
      if entity <? Z.of_nat (length (m_Entities m)) then
        o <~ entity_at m entity ;;
        r <~ update updateTime o ;;
        let m1 := with_objects m (<[Z.to_nat entity := r.1]> (m_Entities m)) in
        if negb r.2 then
          o1 <~ entity_at m1 entity ;;
          d <~ DestroyEntity m1 (GetUID o1) ;;
          update_from update fuel' updateTime d.1 entity
        else update_from update fuel' updateTime m1 (wrap32 (entity + 1))
      else Done m
  end.

Definition UpdateAllEntities_with (update : TFloat32 -> Object -> outcome (Object * bool))
    (m : CEntityManager) (updateTime : TFloat32) : outcome CEntityManager :=
  update_from update (S (length (m_Entities m))) updateTime m 0.

(** [UpdateAllEntities] *)
Definition UpdateAllEntities (m : CEntityManager) (updateTime : TFloat32)
  : outcome CEntityManager :=
  UpdateAllEntities_with Update m updateTime.

End CEntityManager.

Arguments CEntityManager : clear implicits.
Arguments CEntityManager_new : clear implicits.

(** ** Vocabulary of the statements on the entity manager *)

(** [m_NextUID] up to which the UID map cannot outgrow 32 bits:
    2^30 times the load factor 0.7f. *)
Definition uid_limit : Z := 751619264.

Section ManagerVocabulary.
Context {CVector3 CMatrix4x4 : Type} `{SceneLibrary CVector3 CMatrix4x4}.

#[local] Abbreviation Object := (CEntityObject CMatrix4x4).
#[local] Abbreviation Manager := (CEntityManager CMatrix4x4).

(** The UID map sends the UID of every entity to its position in
    [m_Entities] and holds no other key; UIDs in use are below
    [m_NextUID]. *)
Record consistent (m : Manager) : Prop := {
  cs_map : steady (m_EntityUIDMap m);
  cs_load : m_kfMaxLoadFactor (m_EntityUIDMap m) = default_MaxLoadFactor;
  cs_index : forall (i : nat) (o : Object),
      m_Entities m !! i = Some o -> stored (m_EntityUIDMap m) (GetUID o) (Z.of_nat i);
  cs_entity : forall (k v : Z),
      stored (m_EntityUIDMap m) k v ->
      exists (i : nat) (o : Object),
        v = Z.of_nat i /\ m_Entities m !! i = Some o /\ GetUID o = k;
  cs_next : 0 <= m_NextUID m < 2 ^ 32;
  cs_fresh : forall o : Object, o ∈ m_Entities m -> 0 <= GetUID o < m_NextUID m;
  cs_count : m_iNumEntries (m_EntityUIDMap m) <= m_NextUID m;
  cs_length : Z.of_nat (length (m_Entities m)) <= m_NextUID m;
  cs_size : m_iSize (m_EntityUIDMap m) = 2048 \/
            m_iSize (m_EntityUIDMap m) * 11744051 < 2 * m_NextUID m * 16777216;
  cs_enum : m_IsEnumerating m = true ->
            (m_EnumEntity m <= length (m_Entities m))%nat
}.

(** The UID map has the 2048 buckets it was constructed with, doubled a
    number of times. *)
Definition doubled (m : Manager) : Prop :=
  exists j : nat, m_iSize (m_EntityUIDMap m) = 2048 * 2 ^ Z.of_nat j.

(** The entity that carries [UID], if there is one. *)
Definition entity_of (m : Manager) (UID : TEntityUID) : option Object :=
  first_entity (fun o => bool_decide (GetUID o = UID)) (m_Entities m).

(** What a creation leaves behind: the new entity [o] is the last one,
    carries the UID that was next and is found under it, every other UID
    resolves as before, an enumeration in progress is cancelled, and the
    UID map has kept or doubled its bucket count. *)
Record registered (m : Manager) (o : Object) (m' : Manager) : Prop := {
  rg_consistent : consistent m';
  rg_entities : m_Entities m' = m_Entities m ++ [o];
  rg_uid : GetUID o = m_NextUID m;
  rg_next : m_NextUID m' = m_NextUID m + 1;
  rg_count : NumEntities m' = NumEntities m + 1;
  rg_found : GetEntity m' (m_NextUID m) = Done (m', Some o);
  rg_others : forall UID : TEntityUID,
      UID <> m_NextUID m -> GetEntity m' UID = Done (m', entity_of m UID);
  rg_enum : EnumEntity m' = Done (m', None);
  rg_templates : m_Templates m' = m_Templates m;
  rg_size : m_iSize (m_EntityUIDMap m') = m_iSize (m_EntityUIDMap m) \/
            m_iSize (m_EntityUIDMap m') = m_iSize (m_EntityUIDMap m) * 2
}.

(** Every relative matrix array has its first element. *)
Definition rooted (o : Object) : Prop := m_RelMatrices (base_of o) <> [].

(** Managers obtained from the constructor by completed calls, [n] of them
    creating an entity. *)
Inductive managed : nat -> Manager -> Prop :=
| managed_new : managed 0 (CEntityManager_new CMatrix4x4)
| managed_CreateTemplate n m type name mesh m' tpl :
    managed n m -> CreateTemplate m type name mesh = Done (m', tpl) -> managed n m'
| managed_CreateEntity n m templateName name position rotation scale m' UID :
    managed n m ->
    CreateEntity m templateName name position rotation scale = Done (m', UID) ->
    managed (S n) m'
| managed_CreatePlanet n m templateName name spinSpeed position rotation scale m' UID :
    managed n m ->
    CreatePlanet m templateName name spinSpeed position rotation scale = Done (m', UID) ->
    managed (S n) m'
| managed_DestroyEntity n m UID m' found :
    managed n m -> DestroyEntity m UID = Done (m', found) -> managed n m'
| managed_DestroyAllEntities n m m' :
    managed n m -> DestroyAllEntities m = Done m' -> managed n m'
| managed_GetEntity n m UID m' found :
    managed n m -> GetEntity m UID = Done (m', found) -> managed n m'
| managed_BeginEnumEntities n m name templateName templateType :
    managed n m -> managed n (BeginEnumEntities m name templateName templateType)
| managed_EndEnumEntities n m :
    managed n m -> managed n (EndEnumEntities m)
| managed_EnumEntity n m m' found :
    managed n m -> EnumEntity m = Done (m', found) -> managed n m'
| managed_UpdateAllEntities n m updateTime m' :
    managed n m -> UpdateAllEntities m updateTime = Done m' -> managed n m'.

End ManagerVocabulary.

(** The entities that an update with [update] keeps, after the update. *)
Definition kept {CMatrix4x4 : Type}
    (update : TFloat32 -> CEntityObject CMatrix4x4 ->
              outcome (CEntityObject CMatrix4x4 * bool))
    (updateTime : TFloat32) (l : list (CEntityObject CMatrix4x4))
  : list (CEntityObject CMatrix4x4) :=
  omap (fun o => match update updateTime o with
                 | Done (o', true) => Some o'
                 | _ => None
                 end) l.

(** ** A concrete scene *)

(** A scene library without geometry: all matrices are one value, the file
    with the empty name cannot be loaded and every other file holds a
    mesh of one node. *)
#[export] Instance plain_library : SceneLibrary unit unit := {|
  CMatrix4x4_new := fun _ _ _ => tt;
  RotateLocalY := fun _ M => M;
  Load := fun fileName =>
            if decide (fileName = EmptyString) then None else Some [tt]
|}.

Definition earth : CEntityTemplate unit :=
  {| EntityTemplate.m_Type := "Planet"%string;
     EntityTemplate.m_Name := "Earth"%string;
     EntityTemplate.m_Mesh := [tt] |}.

(** A new manager with the template ["Earth"]. *)
Definition stage : CEntityManager unit :=
  (result (CEntityManager_new unit, earth)
     (CreateTemplate (CEntityManager_new unit) "Planet" "Earth" "Sphere.x")).1.

(** A planet and an entity of the base class. *)
Definition terra : CEntityObject unit :=
  AsPlanet {| planet_CEntity := {| m_Template := earth;
                                   m_UID := 0;
                                   m_Name := "Terra"%string;
                                   m_RelMatrices := [tt] |};
              m_SpinSpeed := (1 # 2)%Q |}.

Definition luna : CEntityObject unit :=
  AsEntity {| m_Template := earth;
              m_UID := 1;
              m_Name := "Luna"%string;
              m_RelMatrices := [tt] |}.

(** The manager after the creation of the planet, and after the creation
    of both. *)
Definition one_planet : CEntityManager unit :=
  (result (stage, 0) (CreatePlanet stage "Earth" "Terra" (1 # 2)%Q tt tt tt)).1.

Definition populated : CEntityManager unit :=
  (result (one_planet, 0) (CreateEntity one_planet "Earth" "Luna" tt tt tt)).1.

(** A virtual [Update] that asks for the destruction of planets. *)
Definition expire_planets (updateTime : TFloat32) (o : CEntityObject unit)
  : outcome (CEntityObject unit * bool) :=
  Done (o, match o with AsPlanet _ => false | AsEntity _ => true end).

(** The stage after 1434 entities have been created and destroyed by
    [DestroyAllEntities]: the UID map is empty and counts 1434 entries. *)
Definition worn_stage : CEntityManager unit :=
  with_next
    (with_map stage (with_entries (uid_table 2048 default_MaxLoadFactor) 1434))
    1434.

(** ** Basic facts on outcomes and machine integers *)

Lemma obind_Done {A B : Type} (m : outcome A) (f : A -> outcome B) (b : B) :
  obind m f = Done b <-> exists a, m = Done a /\ f a = Done b.
Proof.
  destruct m; simpl; split; intros Hm; eauto.
  - destruct Hm as (a' & Ha & Hf). congruence.
  - discriminate.
  - destruct Hm as (a' & Ha & Hf). discriminate.
  - discriminate.
  - destruct Hm as (a' & Ha & Hf). discriminate.
Qed.

Lemma wrap32_range (z : Z) : 0 <= wrap32 z < 2 ^ 32.
Proof. unfold wrap32. apply Z.mod_pos_bound. lia. Qed.

Lemma wrap32_small (z : Z) : 0 <= z < 2 ^ 32 -> wrap32 z = z.
Proof. intros Hz. unfold wrap32. apply Z.mod_small. exact Hz. Qed.

Lemma wrap32_idem (z : Z) : wrap32 (wrap32 z) = wrap32 z.
Proof. apply wrap32_small, wrap32_range. Qed.

Lemma wrap32_add_l (a b : Z) : wrap32 (wrap32 a + b) = wrap32 (a + b).
Proof. unfold wrap32. apply Zplus_mod_idemp_l. Qed.

Lemma wrap32_mul_l (a b : Z) : wrap32 (wrap32 a * b) = wrap32 (a * b).
Proof. unfold wrap32. apply Zmult_mod_idemp_l. Qed.

(** Doubling [j] times and then [j'] times, with wrap-around in between. *)
Lemma wrap32_doublings (s : Z) (j j' : nat) :
  wrap32 (wrap32 (s * 2 ^ Z.of_nat j) * 2 ^ Z.of_nat j') =
  wrap32 (s * 2 ^ Z.of_nat (j + j')).
Proof.
  rewrite wrap32_mul_l, Nat2Z.inj_add, Z.pow_add_r by lia.
  f_equal. ring.
Qed.

(** ** Lists of buckets *)

Section Lists.
Context {A : Type}.

Lemma join_split (bs : list (list A)) (i : nat) (b : list A) :
  bs !! i = Some b ->
  mjoin bs = mjoin (take i bs) ++ b ++ mjoin (drop (S i) bs).
Proof.
  intros Hb. rewrite <- (take_drop_middle bs i b Hb) at 1.
  rewrite join_app. reflexivity.
Qed.

Lemma join_insert (bs : list (list A)) (i : nat) (b b' : list A) :
  bs !! i = Some b ->
  mjoin (<[i := b']> bs) = mjoin (take i bs) ++ b' ++ mjoin (drop (S i) bs).
Proof.
  intros Hb. rewrite insert_take_drop by (eapply lookup_lt_Some; eauto).
  rewrite join_app. reflexivity.
Qed.

Lemma join_replicate_nil (n : nat) : mjoin (replicate n (@nil A)) = [].
Proof. induction n as [|n IH]; simpl; auto. Qed.

Lemma elem_of_join_lookup (x : A) (bs : list (list A)) :
  x ∈ mjoin bs <-> exists i b, bs !! i = Some b /\ x ∈ b.
Proof.
  rewrite list_elem_of_join. split.
  - intros (b & Hx & Hb). apply list_elem_of_lookup in Hb as [i Hi]. eauto.
  - intros (i & b & Hi & Hx). exists b. split; auto.
    apply list_elem_of_lookup. eauto.
Qed.

End Lists.

(** ** Representation invariant *)

Section Invariant.
Context {TKeyType : Type} `{KeyType TKeyType} {TValueType : Type}.

#[local] Abbreviation Table := (CHashTable TKeyType TValueType).
#[local] Abbreviation Pair := (TKeyValuePair TKeyType TValueType).

Lemma pair_eta (p : Pair) : {| key := key p; value := value p |} = p.
Proof. destruct p; reflexivity. Qed.

(** *** Scanning a bucket *)

Lemma scan_bucket_Some (k : TKeyType) (b : list Pair) (i : nat) :
  scan_bucket k b = Some i ->
  exists p, b !! i = Some p /\ key p = k.
Proof.
  revert i. induction b as [|q b IH]; intros i Hs; simpl in Hs.
  - discriminate.
  - destruct (decide (k = key q)) as [->|Hne].
    + inversion Hs; subst. exists q. split; reflexivity.
    + destruct (scan_bucket k b) as [j|] eqn:Hj; simpl in Hs; [|discriminate].
      inversion Hs; subst. destruct (IH j eq_refl) as (p & Hp & Hk).
      exists p. split; assumption.
Qed.

Lemma scan_bucket_None (k : TKeyType) (b : list Pair) :
  scan_bucket k b = None <-> k ∉ key <$> b.
Proof.
  induction b as [|q b IH]; simpl.
  - split; [intros _ Hin; inversion Hin | reflexivity].
  - destruct (decide (k = key q)) as [->|Hne].
    + split; [discriminate|]. intros Hn. exfalso. apply Hn. left.
    + destruct (scan_bucket k b) as [j|]; simpl.
      * split; [discriminate|]. intros Hn. exfalso.
        assert (Hb : k ∉ key <$> b) by (intros Hin; apply Hn; right; exact Hin).
        apply IH in Hb. discriminate.
      * split; [|reflexivity]. intros _ Hin.
        apply elem_of_cons in Hin as [Heq|Hin]; [contradiction|].
        destruct IH as [IH1 _]. exact (IH1 eq_refl Hin).
Qed.

Lemma scan_bucket_first (k : TKeyType) (b : list Pair) (i : nat) :
  scan_bucket k b = Some i -> k ∉ key <$> take i b.
Proof.
  revert i. induction b as [|q b IH]; intros i Hs; simpl in Hs.
  - discriminate.
  - destruct (decide (k = key q)) as [->|Hne].
    + inversion Hs; subst. simpl. intros Hin. inversion Hin.
    + destruct (scan_bucket k b) as [j|] eqn:Hj; simpl in Hs; [|discriminate].
      inversion Hs; subst. simpl. intros Hin.
      apply elem_of_cons in Hin as [Heq|Hin]; [contradiction|].
      exact (IH j eq_refl Hin).
Qed.

(** *** Reaching the bucket of a key *)

Lemma FindBucket_wf (t : Table) (k : TKeyType) :
  0 < m_iSize t ->
  FindBucket t k = Done (hash_of t k mod m_iSize t) /\
  0 <= hash_of t k mod m_iSize t < m_iSize t.
Proof.
  intros Hs. unfold FindBucket.
  destruct (m_iSize t =? 0) eqn:Hz; [lia|].
  split; [reflexivity|]. apply Z.mod_pos_bound. lia.
Qed.

Lemma bucket_at_wf (t : Table) (i : Z) :
  length (m_aBuckets t) = Z.to_nat (m_iSize t) ->
  0 <= i < m_iSize t ->
  exists b, bucket_at t i = Done b /\ m_aBuckets t !! Z.to_nat i = Some b.
Proof.
  intros Hlen Hi. unfold bucket_at.
  destruct (m_aBuckets t !! Z.to_nat i) as [b|] eqn:Hb.
  - exists b. split; [|reflexivity].
    destruct (0 <=? i) eqn:H0; destruct (i <? m_iSize t) eqn:H1; simpl; auto; lia.
  - apply lookup_ge_None in Hb. lia.
Qed.

Lemma bucket_at_Done (t : Table) (i : Z) (b : list Pair) :
  bucket_at t i = Done b ->
  0 <= i < m_iSize t /\ m_aBuckets t !! Z.to_nat i = Some b.
Proof.
  unfold bucket_at. intros Hb.
  destruct (0 <=? i) eqn:H0; destruct (i <? m_iSize t) eqn:H1; simpl in Hb;
    try discriminate.
  destruct (m_aBuckets t !! Z.to_nat i) as [b'|]; [|discriminate].
  inversion Hb; subst. split; [lia|reflexivity].
Qed.

(** The bucket a key hashes to, for a well-formed table. *)
Lemma home_bucket (t : Table) (k : TKeyType) :
  wf t ->
  exists b, FindBucket t k = Done (hash_of t k mod m_iSize t) /\
            bucket_at t (hash_of t k mod m_iSize t) = Done b /\
            m_aBuckets t !! Z.to_nat (hash_of t k mod m_iSize t) = Some b.
Proof.
  intros Hwf. destruct (FindBucket_wf t k (proj1 (wf_size t Hwf))) as [Hf Hr].
  destruct (bucket_at_wf t _ (wf_length t Hwf) Hr) as (b & Hb & Hl).
  exists b. auto.
Qed.

(** A key missing from its home bucket is missing from the table. *)
Lemma home_bucket_keys (t : Table) (k : TKeyType) (b : list Pair) :
  wf t ->
  m_aBuckets t !! Z.to_nat (hash_of t k mod m_iSize t) = Some b ->
  k ∈ keys t <-> k ∈ key <$> b.
Proof.
  intros Hwf Hb. unfold keys, contents. split.
  - intros Hin. apply list_elem_of_fmap in Hin as (p & -> & Hp).
    apply elem_of_join_lookup in Hp as (i & b' & Hi & Hp).
    pose proof (wf_placed t Hwf i b' p Hi Hp) as Hpl.
    rewrite Hpl, Nat2Z.id in Hb. rewrite Hi in Hb. inversion Hb; subst.
    apply list_elem_of_fmap. eauto.
  - intros Hin. apply list_elem_of_fmap in Hin as (p & -> & Hp).
    apply list_elem_of_fmap. exists p. split; [reflexivity|].
    apply elem_of_join_lookup. eauto.
Qed.

Lemma new_contents (n : Z) (h : THashFunction) (L : TFloat32) :
  contents (CHashTable_new (TValueType := TValueType) (TKeyType := TKeyType) n h L) = [].
Proof. unfold contents. simpl. apply join_replicate_nil. Qed.

Lemma new_wf (n : Z) (h : THashFunction) (L : TFloat32) :
  0 < n < 2 ^ 32 -> wf (CHashTable_new n h L : Table).
Proof.
  intros Hn. split.
  - simpl. apply length_replicate.
  - exact Hn.
  - simpl. lia.
  - intros i b p Hb Hp. simpl in Hb.
    apply lookup_replicate in Hb as [-> _]. inversion Hp.
  - unfold keys. rewrite new_contents. constructor.
Qed.

End Invariant.

(** ** Effect of one insertion or update on the stored pairs *)

Section Effects.
Context {TKeyType : Type} `{KeyType TKeyType} {TValueType : Type}.

#[local] Abbreviation Table := (CHashTable TKeyType TValueType).
#[local] Abbreviation Pair := (TKeyValuePair TKeyType TValueType).

(** *** Changing one bucket *)

Lemma wf_replace (t : Table) (i : nat) (b b' : list Pair) (n : Z) :
  wf t ->
  m_aBuckets t !! i = Some b ->
  (forall p, p ∈ b' -> hash_of t (key p) mod m_iSize t = Z.of_nat i) ->
  NoDup (key <$> mjoin (take i (m_aBuckets t)) ++ b' ++ mjoin (drop (S i) (m_aBuckets t))) ->
  0 <= n < 2 ^ 32 ->
  wf (with_entries (with_buckets t (<[i := b']> (m_aBuckets t))) n).
Proof.
  intros Hwf Hb Hhome Hnd Hn. split; simpl.
  - rewrite length_insert. apply (wf_length t Hwf).
  - apply (wf_size t Hwf).
  - exact Hn.
  - intros i' c p Hc Hp. simpl in Hc. unfold hash_of. simpl.
    destruct (decide (i = i')) as [<-|Hne].
    + rewrite list_lookup_insert_eq in Hc by (eapply lookup_lt_Some; eauto).
      inversion Hc; subst. apply Hhome. exact Hp.
    + rewrite list_lookup_insert_ne in Hc by exact Hne.
      apply (wf_placed t Hwf i' c p Hc Hp).
  - unfold keys, contents. simpl. rewrite (join_insert _ _ b b' Hb). exact Hnd.
Qed.

Lemma alter_keys (v : TValueType) (j : nat) (b : list Pair) :
  key <$> alter (assign_value v) j b = key <$> b.
Proof.
  revert j. induction b as [|q b IH]; intros [|j]; simpl; auto.
  f_equal. apply IH.
Qed.

Lemma alter_stored (v : TValueType) (j : nat) (b : list Pair) (p : Pair) :
  b !! j = Some p -> assign_value v p ∈ alter (assign_value v) j b.
Proof.
  intros Hp. apply list_elem_of_lookup. exists j.
  rewrite list_lookup_alter_eq, Hp. reflexivity.
Qed.

Lemma alter_frame (v : TValueType) (j : nat) (b : list Pair) (p q : Pair) :
  b !! j = Some p -> key q <> key p ->
  q ∈ alter (assign_value v) j b <-> q ∈ b.
Proof.
  revert j. induction b as [|r b IH]; intros [|j] Hp Hq; simpl in *;
    try discriminate.
  - inversion Hp; subst. rewrite !elem_of_cons. split.
    + intros [->|Hin]; [|right; exact Hin]. simpl in Hq. contradiction.
    + intros [->|Hin]; [|right; exact Hin]. contradiction.
  - rewrite !elem_of_cons. rewrite (IH j Hp Hq). reflexivity.
Qed.

(** *** Overwriting the value of a present key *)

Lemma update_spec (t : Table) (k : TKeyType) (v : TValueType) (b : list Pair) (j : nat) :
  wf t ->
  m_aBuckets t !! Z.to_nat (hash_of t k mod m_iSize t) = Some b ->
  scan_bucket k b = Some j ->
  set_post t k v
    (with_buckets t (<[Z.to_nat (hash_of t k mod m_iSize t) :=
                        alter (assign_value v) j b]> (m_aBuckets t))).
Proof.
  intros Hwf Hb Hscan.
  destruct (scan_bucket_Some k b j Hscan) as (p & Hp & Hk).
  set (i := Z.to_nat (hash_of t k mod m_iSize t)) in *.
  set (b' := alter (assign_value v) j b).
  set (t' := with_buckets t (<[i := b']> (m_aBuckets t))).
  assert (Hkeys : keys t' = keys t).
  { unfold keys, contents. simpl. rewrite (join_insert _ _ b b' Hb), (join_split _ _ b Hb).
    rewrite !fmap_app. unfold b'. rewrite alter_keys. reflexivity. }
  assert (Hwf' : wf t').
  { replace t' with (with_entries t' (m_iNumEntries t)) by reflexivity.
    unfold t'. apply (wf_replace t i b b' _ Hwf Hb).
    - intros q Hq. assert (Hkq : key q ∈ key <$> b).
      { rewrite <- (alter_keys v j b). apply list_elem_of_fmap. eauto. }
      apply list_elem_of_fmap in Hkq as (q0 & Heq & Hq0). rewrite Heq.
      apply (wf_placed t Hwf i b q0 Hb Hq0).
    - pose proof (wf_nodup t Hwf) as Hnd. rewrite <- Hkeys in Hnd.
      unfold keys, contents in Hnd. simpl in Hnd.
      rewrite (join_insert _ _ b b' Hb) in Hnd. exact Hnd.
    - apply (wf_count t Hwf). }
  split; [exact Hwf'|reflexivity|reflexivity|]. left. split.
  - apply (home_bucket_keys t k b Hwf Hb). apply list_elem_of_fmap.
    exists p. split; [symmetry; exact Hk|]. apply list_elem_of_lookup. eauto.
  - reflexivity.
  - reflexivity.
  - exact Hkeys.
  - unfold stored, contents. simpl. apply elem_of_join_lookup.
    exists i, b'. split.
    + apply list_lookup_insert_eq. eapply lookup_lt_Some; eauto.
    + replace {| key := k; value := v |} with (assign_value v p)
        by (unfold assign_value; rewrite Hk; reflexivity).
      apply alter_stored. exact Hp.
  - intros q Hq. unfold contents. simpl.
    rewrite (join_insert _ _ b b' Hb), (join_split (m_aBuckets t) i b Hb).
    rewrite !elem_of_app. unfold b'.
    rewrite (alter_frame v j b p q Hp) by (rewrite Hk; exact Hq). reflexivity.
Qed.

(** *** Appending a pair with a new key *)

Lemma push_spec (t : Table) (k : TKeyType) (v : TValueType) (b : list Pair) :
  wf t ->
  k ∉ keys t ->
  m_aBuckets t !! Z.to_nat (hash_of t k mod m_iSize t) = Some b ->
  let t' := with_entries
              (with_buckets t (<[Z.to_nat (hash_of t k mod m_iSize t) :=
                                  b ++ [{| key := k; value := v |}]]> (m_aBuckets t)))
              (wrap32 (m_iNumEntries t + 1)) in
  wf t' /\
  contents t' ≡ₚ {| key := k; value := v |} :: contents t /\
  m_aBuckets t' !! Z.to_nat (hash_of t' k mod m_iSize t') =
    Some (b ++ [{| key := k; value := v |}]).
Proof.
  intros Hwf Habs Hb t'.
  pose proof (proj1 (wf_size t Hwf)) as Hs.
  assert (Hr : 0 <= hash_of t k mod m_iSize t < m_iSize t)
    by (apply Z.mod_pos_bound; lia).
  set (i := Z.to_nat (hash_of t k mod m_iSize t)) in *.
  set (p := {| key := k; value := v |}) in *.
  assert (Hc : contents t' ≡ₚ p :: contents t).
  { unfold contents. simpl. rewrite (join_insert _ _ b (b ++ [p]) Hb).
    rewrite (join_split (m_aBuckets t) i b Hb).
    rewrite (Permutation_app_comm b [p]). simpl.
    symmetry. apply Permutation_middle. }
  split; [|split].
  - unfold t'. apply (wf_replace t i b (b ++ [p]) _ Hwf Hb).
    + intros q Hq. apply elem_of_app in Hq as [Hq|Hq].
      * apply (wf_placed t Hwf i b q Hb Hq).
      * apply list_elem_of_singleton in Hq. subst q. simpl. unfold i. lia.
    + assert (Hnd : NoDup (key <$> contents t')).
      { rewrite Hc. simpl. constructor; [exact Habs|apply (wf_nodup t Hwf)]. }
      unfold contents in Hnd. simpl in Hnd.
      rewrite (join_insert _ _ b (b ++ [p]) Hb) in Hnd. exact Hnd.
    + apply wrap32_range.
  - exact Hc.
  - unfold hash_of. simpl. fold (hash_of t k). fold i.
    apply list_lookup_insert_eq. eapply lookup_lt_Some; eauto.
Qed.

End Effects.

(** ** Correctness of [SetKeyValue] and [Resize] *)

Section Correctness.
Context {TKeyType : Type} `{KeyType TKeyType} {TValueType : Type}.

#[local] Abbreviation Table := (CHashTable TKeyType TValueType).
#[local] Abbreviation Pair := (TKeyValuePair TKeyType TValueType).
#[local] Abbreviation Setter := (Table -> TKeyType -> TValueType -> outcome Table).

Lemma entries_perm (t t' : Table) (l : list Pair) :
  contents t' ≡ₚ l -> entries t' = length l.
Proof. intros Hp. unfold entries. rewrite Hp. reflexivity. Qed.

Lemma keys_perm (t t' : Table) :
  contents t' ≡ₚ contents t -> keys t' ≡ₚ keys t.
Proof. intros Hp. unfold keys. rewrite Hp. reflexivity. Qed.

Lemma body_spec (resize : Table -> Z -> outcome Table) (t : Table)
    (k : TKeyType) (v : TValueType) (t' : Table) :
  wf t ->
  (forall t1, resize t (wrap32 (m_iSize t * 2)) = Done t1 ->
              m_iSize t1 = 0 \/ resized t (wrap32 (m_iSize t * 2)) t1) ->
  SetKeyValue_body resize t k v = Done t' ->
  set_post t k v t'.
Proof.
  intros Hwf Hres Hrun. unfold SetKeyValue_body in Hrun.
  destruct (home_bucket t k Hwf) as (b & Hf & Hb & Hl).
  rewrite Hf in Hrun. simpl in Hrun. unfold FindKeyValuePair in Hrun.
  rewrite Hb in Hrun. simpl in Hrun.
  destruct (scan_bucket k b) as [j|] eqn:Hscan.
  - injection Hrun as <-. apply update_spec; assumption.
  - assert (Habs : k ∉ keys t).
    { rewrite (home_bucket_keys t k b Hwf Hl). apply scan_bucket_None. exact Hscan. }
    destruct (exceeds_load (m_iNumEntries t) (m_iSize t) (m_kfMaxLoadFactor t)) eqn:Hload.
    + destruct (resize t (wrap32 (m_iSize t * 2))) as [t1| |] eqn:Hr;
        simpl in Hrun; try discriminate.
      destruct (Hres t1 eq_refl) as [Hz|Hrs].
      { unfold FindBucket in Hrun. rewrite Hz in Hrun. simpl in Hrun. discriminate. }
      destruct Hrs as [Hwf1 Hh1 Hl1 Hc1 Hn1 (j & Hj)].
      destruct (home_bucket t1 k Hwf1) as (b1 & Hf1 & Hb1 & Hl1').
      rewrite Hf1 in Hrun. simpl in Hrun. rewrite Hb1 in Hrun. simpl in Hrun.
      injection Hrun as <-.
      assert (Habs1 : k ∉ keys t1) by (rewrite (keys_perm t t1 Hc1); exact Habs).
      destruct (push_spec t1 k v b1 Hwf1 Habs1 Hl1') as (Hwf' & Hc' & Hhome).
      split; [exact Hwf'|exact Hh1|exact Hl1|]. right. split.
      * exact Habs.
      * rewrite Hc', Hc1. reflexivity.
      * exists b1. exact Hhome.
      * right. split; [exact Hload|]. split.
        -- exists (S j). split; [lia|]. simpl m_iSize. rewrite Hj.
           replace (m_iSize t * 2) with (m_iSize t * 2 ^ Z.of_nat 1) by (simpl; lia).
           rewrite wrap32_doublings. f_equal.
        -- simpl. rewrite Hn1. apply wrap32_add_l.
    + simpl in Hrun. rewrite Hb in Hrun. simpl in Hrun. injection Hrun as <-.
      destruct (push_spec t k v b Hwf Habs Hl) as (Hwf' & Hc' & Hhome).
      split; [exact Hwf'|reflexivity|reflexivity|]. right. split.
      * exact Habs.
      * exact Hc'.
      * exists b. exact Hhome.
      * left. split; [exact Hload|]. split; reflexivity.
Qed.

(** *** The loops of [Resize] *)

Lemma drain_bucket_app (set : Setter) (l1 l2 : list Pair) (t : Table) :
  drain_bucket set (l1 ++ l2) t =
  (t' <~ drain_bucket set l1 t ;; drain_bucket set l2 t').
Proof.
  revert t. induction l1 as [|p l1 IH]; intros t; simpl; [reflexivity|].
  destruct (set t (key p) (value p)); simpl; auto.
Qed.

Lemma drain_buckets_join (set : Setter) (bs : list (list Pair)) (t : Table) :
  drain_buckets set bs t = drain_bucket set (mjoin bs) t.
Proof.
  revert t. induction bs as [|b bs IH]; intros t; simpl; [reflexivity|].
  rewrite drain_bucket_app. destruct (drain_bucket set b t); simpl; auto.
Qed.

Lemma drain_size0 (set : Setter) :
  (forall t k v t', set t k v = Done t' -> m_iSize t <> 0) ->
  forall ps t t', m_iSize t = 0 -> drain_bucket set ps t = Done t' ->
                  ps = [] /\ t' = t.
Proof.
  intros Hset [|p ps] t t' Hz Hrun; simpl in Hrun.
  - inversion Hrun. auto.
  - destruct (set t (key p) (value p)) as [t1| |] eqn:Hs; simpl in Hrun;
      try discriminate.
    exfalso. exact (Hset _ _ _ _ Hs Hz).
Qed.

Lemma drain_spec (set : Setter) :
  (forall t k v t', wf t -> set t k v = Done t' -> set_post t k v t') ->
  forall ps t t',
    wf t ->
    m_iNumEntries t = wrap32 (Z.of_nat (entries t)) ->
    NoDup (keys t ++ (key <$> ps)) ->
    drain_bucket set ps t = Done t' ->
    wf t' /\
    m_kpfHashFunction t' = m_kpfHashFunction t /\
    m_kfMaxLoadFactor t' = m_kfMaxLoadFactor t /\
    contents t' ≡ₚ contents t ++ ps /\
    m_iNumEntries t' = wrap32 (Z.of_nat (entries t')) /\
    exists j : nat, m_iSize t' = wrap32 (m_iSize t * 2 ^ Z.of_nat j).
Proof.
  intros Hset ps. induction ps as [|p ps IH]; intros t t' Hwf Hn Hnd Hrun;
    simpl in Hrun.
  - inversion Hrun; subst t'.
    split; [exact Hwf|]. split; [reflexivity|]. split; [reflexivity|].
    split; [rewrite app_nil_r; reflexivity|]. split; [exact Hn|].
    exists O. simpl. rewrite Z.mul_1_r. symmetry. apply wrap32_small.
    pose proof (wf_size t Hwf). lia.
  - apply obind_Done in Hrun as (t1 & Hs & Hrun).
    destruct (Hset _ _ _ _ Hwf Hs) as [Hwf1 Hh1 Hl1 [Hup|Hin]].
    { exfalso. apply NoDup_app in Hnd as (_ & Hdis & _).
      apply (Hdis (key p) (up_present _ _ _ _ Hup)). simpl. left. }
    destruct Hin as [Habs Hc1 _ Hgrow]. rewrite pair_eta in Hc1.
    assert (He1 : entries t1 = S (entries t)).
    { rewrite (entries_perm t t1 _ Hc1). reflexivity. }
    assert (Hn1 : m_iNumEntries t1 = wrap32 (Z.of_nat (entries t1))).
    { rewrite He1, Nat2Z.inj_succ. unfold Z.succ.
      destruct Hgrow as [(_ & _ & Hc)|(_ & _ & Hc)]; rewrite Hc; [|reflexivity].
      rewrite Hn. apply wrap32_add_l. }
    assert (Hnd1 : NoDup (keys t1 ++ (key <$> ps))).
    { unfold keys at 1. rewrite Hc1. simpl. simpl in Hnd.
      rewrite <- Permutation_middle in Hnd. exact Hnd. }
    destruct (IH t1 t' Hwf1 Hn1 Hnd1 Hrun) as (Hwf' & Hh' & Hl' & Hc' & Hn' & j' & Hj').
    split; [exact Hwf'|]. split; [congruence|]. split; [congruence|].
    split; [|split; [exact Hn'|]].
    + rewrite Hc', Hc1. simpl. apply Permutation_middle.
    + destruct Hgrow as [(_ & Hs1 & _)|(_ & (j & _ & Hs1) & _)].
      * exists j'. rewrite Hj', Hs1. reflexivity.
      * exists (j + j')%nat. rewrite Hj', Hs1. apply wrap32_doublings.
Qed.

Lemma Resize_with_spec (set : Setter) (t : Table) (n : Z) (t1 : Table) :
  (forall t k v t', wf t -> set t k v = Done t' -> set_post t k v t') ->
  (forall t k v t', set t k v = Done t' -> m_iSize t <> 0) ->
  wf t -> 0 <= n < 2 ^ 32 ->
  Resize_with set t n = Done t1 ->
  (n = 0 /\ m_iSize t1 = 0) \/ resized t n t1.
Proof.
  intros Hset Hsz Hwf Hn Hrun. unfold Resize_with in Hrun.
  destruct (Z.of_nat (length (m_aBuckets t)) <? m_iSize t); [discriminate|].
  rewrite take_ge in Hrun by (rewrite (wf_length t Hwf); lia).
  rewrite drain_buckets_join in Hrun. fold (contents t) in Hrun.
  change (drain_bucket set (contents t)
            (CHashTable_new n (m_kpfHashFunction t) (m_kfMaxLoadFactor t)) = Done t1) in Hrun.
  destruct (decide (n = 0)) as [->|Hn0].
  - left. apply (drain_size0 set Hsz) in Hrun as [_ ->]; auto.
  - right. assert (Hwfn : wf (CHashTable_new (TValueType := TValueType) n
                             (m_kpfHashFunction t) (m_kfMaxLoadFactor t)))
      by (apply new_wf; lia).
    destruct (drain_spec set Hset (contents t) _ t1 Hwfn)
      as (Hwf1 & Hh1 & Hl1 & Hc1 & Hn1 & j & Hj); auto.
    + unfold entries. rewrite new_contents. reflexivity.
    + unfold keys at 1. rewrite new_contents. simpl. apply (wf_nodup t Hwf).
    + rewrite new_contents in Hc1. simpl in Hc1.
      split; auto.
      * rewrite Hn1. rewrite (entries_perm t t1 _ Hc1). reflexivity.
      * exists j. exact Hj.
Qed.

Lemma SetKeyValue_fuel_size (fuel : nat) (t : Table) (k : TKeyType) (v : TValueType)
    (t' : Table) :
  SetKeyValue_fuel fuel t k v = Done t' -> m_iSize t <> 0.
Proof.
  destruct fuel as [|fuel]; simpl; [discriminate|].
  unfold SetKeyValue_body, FindBucket. intros Hrun Hz.
  rewrite Hz in Hrun. simpl in Hrun. discriminate.
Qed.

Lemma SetKeyValue_fuel_spec (fuel : nat) :
  forall (t : Table) (k : TKeyType) (v : TValueType) (t' : Table),
    wf t -> SetKeyValue_fuel fuel t k v = Done t' -> set_post t k v t'.
Proof.
  induction fuel as [|fuel IH]; intros t k v t' Hwf Hrun; simpl in Hrun.
  - discriminate.
  - apply (body_spec (Resize_with (SetKeyValue_fuel fuel)) t k v t' Hwf); [|exact Hrun].
    intros t1 Hr.
    destruct (Resize_with_spec (SetKeyValue_fuel fuel) t (wrap32 (m_iSize t * 2)) t1)
      as [[_ Hz]|Hrs]; auto.
    + intros. eapply SetKeyValue_fuel_size; eauto.
    + apply wrap32_range.
Qed.

Lemma SetKeyValue_spec (t : Table) (k : TKeyType) (v : TValueType) (t' : Table) :
  wf t -> SetKeyValue t k v = Done t' -> set_post t k v t'.
Proof. apply SetKeyValue_fuel_spec. Qed.

Lemma Resize_spec (t : Table) (n : Z) (t1 : Table) :
  wf t -> 0 < n < 2 ^ 32 -> Resize t n = Done t1 -> resized t n t1.
Proof.
  intros Hwf Hn Hrun.
  destruct (Resize_with_spec (SetKeyValue_fuel (entries t)) t n t1) as [[Hz _]|Hrs]; auto.
  - apply SetKeyValue_fuel_spec.
  - intros. eapply SetKeyValue_fuel_size; eauto.
  - lia.
  - lia.
Qed.

End Correctness.

(** ** Lookup, removal and clearing *)

Section Queries.
Context {TKeyType : Type} `{KeyType TKeyType} {TValueType : Type}.

#[local] Abbreviation Table := (CHashTable TKeyType TValueType).
#[local] Abbreviation Pair := (TKeyValuePair TKeyType TValueType).

Lemma same_key_same_pair (l : list Pair) (p q : Pair) :
  NoDup (key <$> l) -> p ∈ l -> q ∈ l -> key p = key q -> p = q.
Proof.
  induction l as [|r l IH]; intros Hnd Hp Hq Hk.
  - inversion Hp.
  - simpl in Hnd. apply NoDup_cons in Hnd as [Hr Hnd].
    apply elem_of_cons in Hp as [->|Hp]; apply elem_of_cons in Hq as [->|Hq].
    + reflexivity.
    + exfalso. apply Hr. rewrite Hk. apply list_elem_of_fmap_2. exact Hq.
    + exfalso. apply Hr. rewrite <- Hk. apply list_elem_of_fmap_2. exact Hp.
    + apply IH; assumption.
Qed.

Lemma home_bucket_pair (t : Table) (p : Pair) (b : list Pair) :
  wf t ->
  m_aBuckets t !! Z.to_nat (hash_of t (key p) mod m_iSize t) = Some b ->
  p ∈ contents t -> p ∈ b.
Proof.
  intros Hwf Hb Hp. apply elem_of_join_lookup in Hp as (i & b' & Hi & Hp).
  rewrite (wf_placed t Hwf i b' p Hi Hp), Nat2Z.id, Hi in Hb.
  inversion Hb; subst. exact Hp.
Qed.

Lemma LookUpKey_stored (t : Table) (k : TKeyType) (v pValue : TValueType) :
  wf t -> stored t k v -> LookUpKey t k pValue = Done (t, v, true).
Proof.
  intros Hwf Hst. unfold LookUpKey.
  destruct (home_bucket t k Hwf) as (b & Hf & Hb & Hl).
  rewrite Hf. simpl. unfold FindKeyValuePair. rewrite Hb. simpl.
  pose proof (home_bucket_pair t {| key := k; value := v |} b Hwf Hl Hst) as Hin.
  destruct (scan_bucket k b) as [j|] eqn:Hscan.
  - destruct (scan_bucket_Some k b j Hscan) as (q & Hq & Hk). rewrite Hq.
    assert (Heq : q = {| key := k; value := v |}).
    { apply (same_key_same_pair (contents t)).
      - apply (wf_nodup t Hwf).
      - apply elem_of_join_lookup. exists (Z.to_nat (hash_of t k mod m_iSize t)), b.
        split; [exact Hl|]. apply list_elem_of_lookup. eauto.
      - exact Hst.
      - exact Hk. }
    subst q. reflexivity.
  - exfalso. apply scan_bucket_None in Hscan. apply Hscan.
    apply list_elem_of_fmap. exists {| key := k; value := v |}. auto.
Qed.

Lemma LookUpKey_absent (t : Table) (k : TKeyType) (pValue : TValueType) :
  wf t -> k ∉ keys t -> LookUpKey t k pValue = Done (t, pValue, false).
Proof.
  intros Hwf Habs. unfold LookUpKey.
  destruct (home_bucket t k Hwf) as (b & Hf & Hb & Hl).
  rewrite Hf. simpl. unfold FindKeyValuePair. rewrite Hb. simpl.
  rewrite (home_bucket_keys t k b Hwf Hl) in Habs.
  apply scan_bucket_None in Habs. rewrite Habs. reflexivity.
Qed.

(** On a well-formed table [LookUpKey] returns normally and finds
    exactly the stored keys. *)
Lemma LookUpKey_total (t : Table) (k : TKeyType) (pValue : TValueType) :
  wf t ->
  exists v found, LookUpKey t k pValue = Done (t, v, found) /\
                  (found = true <-> k ∈ keys t).
Proof.
  intros Hwf. destruct (decide (k ∈ keys t)) as [Hin|Hout].
  - pose proof Hin as Hin'. unfold keys in Hin'.
    apply list_elem_of_fmap in Hin' as (p & -> & Hp).
    exists (value p), true. split; [|split; [intros _; exact Hin|reflexivity]].
    apply LookUpKey_stored; [exact Hwf|]. unfold stored. rewrite pair_eta. exact Hp.
  - exists pValue, false. split; [apply LookUpKey_absent; assumption|].
    split; [discriminate|contradiction].
Qed.

(** [LookUpKey] hands the table back as it received it. *)
Lemma LookUpKey_same_table (t t' : Table) (k : TKeyType) (pValue v : TValueType)
    (found : bool) :
  LookUpKey t k pValue = Done (t', v, found) -> t' = t.
Proof.
  unfold LookUpKey. intros Hrun.
  apply obind_Done in Hrun as (i & _ & Hrun).
  apply obind_Done in Hrun as (it & _ & Hrun).
  apply obind_Done in Hrun as (b & _ & Hrun).
  destruct it as [j|]; [destruct (b !! j)|]; congruence.
Qed.

(** *** [RemoveKey] *)

Lemma RemoveKey_absent (t : Table) (k : TKeyType) :
  wf t -> k ∉ keys t -> RemoveKey t k = Done (t, false).
Proof.
  intros Hwf Habs. unfold RemoveKey.
  destruct (home_bucket t k Hwf) as (b & Hf & Hb & Hl).
  rewrite Hf. simpl. unfold FindKeyValuePair. rewrite Hb. simpl.
  rewrite (home_bucket_keys t k b Hwf Hl) in Habs.
  apply scan_bucket_None in Habs. rewrite Habs. reflexivity.
Qed.

Lemma RemoveKey_present (t : Table) (k : TKeyType) :
  wf t -> k ∈ keys t ->
  exists t', RemoveKey t k = Done (t', true) /\ removed t k t'.
Proof.
  intros Hwf Hin. unfold RemoveKey.
  destruct (home_bucket t k Hwf) as (b & Hf & Hb & Hl).
  rewrite Hf. simpl. unfold FindKeyValuePair. rewrite Hb. simpl.
  destruct (scan_bucket k b) as [j|] eqn:Hscan.
  2:{ exfalso. apply scan_bucket_None in Hscan.
      apply Hscan, (home_bucket_keys t k b Hwf Hl), Hin. }
  destruct (scan_bucket_Some k b j Hscan) as (p & Hp & Hk).
  set (i := Z.to_nat (hash_of t k mod m_iSize t)) in *.
  eexists. split; [reflexivity|].
  assert (Hc : contents t ≡ₚ p :: mjoin (<[i := delete j b]> (m_aBuckets t))).
  { unfold contents. rewrite (join_insert _ _ b _ Hl), (join_split _ _ b Hl).
    rewrite <- (take_drop_middle b j p Hp) at 1. rewrite delete_take_drop.
    rewrite <- !app_assoc. simpl. rewrite <- Permutation_middle.
    rewrite <- Permutation_middle. reflexivity. }
  assert (Hnd : NoDup (k :: (key <$> mjoin (<[i := delete j b]> (m_aBuckets t))))).
  { pose proof (wf_nodup t Hwf) as Hn. unfold keys in Hn. rewrite Hc in Hn.
    simpl in Hn. rewrite Hk in Hn. exact Hn. }
  apply NoDup_cons in Hnd as [Hgone Hnd].
  split; simpl; try reflexivity.
  - apply (wf_replace t i b (delete j b) _ Hwf Hl).
    + intros q Hq. apply (wf_placed t Hwf i b q Hl).
      rewrite delete_take_drop in Hq. rewrite <- (take_drop_middle b j p Hp).
      apply elem_of_app in Hq as [Hq|Hq]; apply elem_of_app; [left|right]; auto.
      right. exact Hq.
    + rewrite (join_insert _ _ b _ Hl) in Hnd. exact Hnd.
    + apply wrap32_range.
  - exact Hgone.
  - exists (value p). rewrite <- Hk, pair_eta. exact Hc.
  - exists b, j. split; [exact Hl|]. split; [reflexivity|]. rewrite Hp. simpl.
    rewrite Hk. reflexivity.
Qed.

(** *** [RemoveAllKeys] *)

Lemma clear_from_spec (n i : nat) (a : list (list Pair)) :
  (i + n <= length a)%nat ->
  clear_from n i a = Done (take i a ++ replicate n [] ++ drop (i + n) a).
Proof.
  revert i a. induction n as [|n IH]; intros i a Hlen; simpl.
  - rewrite Nat.add_0_r, take_drop. reflexivity.
  - destruct (a !! i) as [b|] eqn:Hb; [|apply lookup_ge_None in Hb; lia].
    rewrite IH by (rewrite length_insert; lia). f_equal.
    rewrite drop_insert_lt by lia.
    rewrite (take_S_r _ _ [])
      by (apply list_lookup_insert_eq; eapply lookup_lt_Some; eauto).
    rewrite take_insert_ge by lia.
    rewrite <- app_assoc. simpl. replace (i + S n)%nat with (S (i + n)) by lia.
    reflexivity.
Qed.

Lemma RemoveAllKeys_spec (t : Table) :
  wf t ->
  RemoveAllKeys t =
    Done (with_buckets t (replicate (Z.to_nat (m_iSize t)) [])).
Proof.
  intros Hwf. unfold RemoveAllKeys.
  rewrite clear_from_spec by (rewrite (wf_length t Hwf); lia).
  simpl. rewrite drop_ge by (rewrite (wf_length t Hwf); lia).
  rewrite app_nil_r. reflexivity.
Qed.

Lemma RemoveAllKeys_wf (t : Table) :
  wf t -> wf (with_buckets t (replicate (Z.to_nat (m_iSize t)) [])).
Proof.
  intros Hwf. split; simpl.
  - apply length_replicate.
  - apply (wf_size t Hwf).
  - apply (wf_count t Hwf).
  - intros i b p Hb Hp. simpl in Hb.
    apply lookup_replicate in Hb as [-> _]. inversion Hp.
  - unfold keys, contents. simpl. rewrite join_replicate_nil. constructor.
Qed.

(** [RemoveAllKeys] empties the table and leaves every scalar member,
    the entry count included, as it was. *)
Lemma RemoveAllKeys_effect (t : Table) :
  wf t ->
  exists t', RemoveAllKeys t = Done t' /\
             wf t' /\
             contents t' = [] /\
             m_iSize t' = m_iSize t /\
             m_iNumEntries t' = m_iNumEntries t /\
             m_kpfHashFunction t' = m_kpfHashFunction t /\
             m_kfMaxLoadFactor t' = m_kfMaxLoadFactor t /\
             forall k pValue, LookUpKey t' k pValue = Done (t', pValue, false).
Proof.
  intros Hwf. eexists. split; [apply RemoveAllKeys_spec; exact Hwf|].
  pose proof (RemoveAllKeys_wf t Hwf) as Hwf'.
  assert (Hc : contents (with_buckets t (replicate (Z.to_nat (m_iSize t)) [])) = [])
    by (unfold contents; simpl; apply join_replicate_nil).
  split; [exact Hwf'|]. split; [exact Hc|].
  repeat (split; [reflexivity|]).
  intros k pValue. apply LookUpKey_absent; [exact Hwf'|].
  unfold keys. rewrite Hc. simpl. intros Hin. inversion Hin.
Qed.

End Queries.

(** ** Rounding to nearest, ties to even *)

Lemma rne_div_mono (N1 D1 N2 D2 : Z) :
  0 < D1 -> 0 < D2 -> N1 * D2 <= N2 * D1 -> rne_div N1 D1 <= rne_div N2 D2.
Proof.
  intros H1 H2 Hle. unfold rne_div.
  pose proof (Z.div_mod N1 D1 ltac:(lia)) as E1.
  pose proof (Z.div_mod N2 D2 ltac:(lia)) as E2.
  pose proof (Z.mod_pos_bound N1 D1 H1) as B1.
  pose proof (Z.mod_pos_bound N2 D2 H2) as B2.
  set (q1 := N1 / D1) in *. set (r1 := N1 mod D1) in *.
  set (q2 := N2 / D2) in *. set (r2 := N2 mod D2) in *.
  assert (Hq : q1 <= q2).
  { destruct (Z_le_gt_dec q1 q2) as [|Hgt]; [assumption|exfalso].
    assert (D1 * (q2 + 1) <= D1 * q1) by nia.
    assert (N2 * D1 < D2 * (q2 + 1) * D1) by nia.
    assert (D1 * (q2 + 1) * D2 <= N1 * D2) by nia.
    nia. }
  destruct (Z.eq_dec q1 q2) as [Heq|Hne].
  - clearbody q1 r1 q2 r2. subst q1 N1 N2.
    assert (Hr : r1 * D2 <= r2 * D1) by nia.
    destruct (Z.ltb_spec (2 * r1) D1), (Z.ltb_spec D1 (2 * r1)),
             (Z.ltb_spec (2 * r2) D2), (Z.ltb_spec D2 (2 * r2));
      destruct (Z.even q2); try lia; exfalso; nia.
  - destruct (2 * r1 <? D1), (D1 <? 2 * r1), (2 * r2 <? D2), (D2 <? 2 * r2),
             (Z.even q1), (Z.even q2); lia.
Qed.

Lemma rne_div_exact (m D : Z) : 0 < D -> rne_div (m * D) D = m.
Proof.
  intros HD. unfold rne_div. rewrite Z.div_mul by lia. rewrite Z.mod_mul by lia.
  destruct (Z.ltb_spec (2 * 0) D); [reflexivity|lia].
Qed.

Lemma rne_div_le (N D m : Z) : 0 < D -> N <= m * D -> rne_div N D <= m.
Proof.
  intros HD Hle. pose proof (rne_div_mono N D (m * D) D HD HD) as Hm.
  rewrite rne_div_exact in Hm by lia. apply Hm.
  apply Z.mul_le_mono_nonneg_r; lia.
Qed.

Lemma rne_div_ge (N D m : Z) : 0 < D -> m * D <= N -> m <= rne_div N D.
Proof.
  intros HD Hle. pose proof (rne_div_mono (m * D) D N D HD HD) as Hm.
  rewrite rne_div_exact in Hm by lia. apply Hm.
  apply Z.mul_le_mono_nonneg_r; lia.
Qed.

Lemma rne_div_scale (k N D : Z) :
  0 < k -> 0 < D -> rne_div (k * N) (k * D) = rne_div N D.
Proof.
  intros Hk HD. apply Z.le_antisymm; apply rne_div_mono; nia.
Qed.

Lemma pow2_pos (e : Z) : 0 <= e -> 0 < 2 ^ e.
Proof. intros He. apply Z.pow_pos_nonneg; lia. Qed.

Lemma spacing_nonneg (N D : Z) : 0 <= spacing N D.
Proof. unfold spacing. lia. Qed.

Lemma spacing_mono (N1 D1 N2 D2 : Z) :
  0 < D1 -> 0 < D2 -> 0 <= N1 -> N1 * D2 <= N2 * D1 ->
  spacing N1 D1 <= spacing N2 D2.
Proof.
  intros H1 H2 H0 Hle. unfold spacing.
  assert (N1 / D1 <= N2 / D2).
  { apply Z.div_le_lower_bound; [lia|].
    assert (D1 * (N1 / D1) <= N1) by (apply Z.mul_div_le; lia).
    destruct (Z_le_gt_dec (D2 * (N1 / D1)) N2) as [|Hgt]; [assumption|exfalso].
    nia. }
  pose proof (Z.log2_le_mono (N1 / D1) (N2 / D2) ltac:(lia)). lia.
Qed.

Lemma round_units_le_pow2 (N D e : Z) :
  0 < D -> 0 <= e -> N <= 2 ^ e * D -> round_units N D <= 2 ^ e.
Proof.
  intros HD He Hle. unfold round_units.
  assert (Hc : spacing N D <= e).
  { unfold spacing.
    assert (N / D <= 2 ^ e) by (apply Z.div_le_upper_bound; lia).
    pose proof (Z.log2_le_mono (N / D) (2 ^ e) ltac:(lia)) as Hl.
    rewrite Z.log2_pow2 in Hl by lia. lia. }
  pose proof (spacing_nonneg N D) as Hc0.
  set (c := spacing N D) in *.
  pose proof (pow2_pos c Hc0) as Hp.
  assert (Hsplit : 2 ^ e = 2 ^ (e - c) * 2 ^ c)
    by (rewrite <- Z.pow_add_r by lia; f_equal; lia).
  assert (rne_div N (D * 2 ^ c) <= 2 ^ (e - c)).
  { apply rne_div_le; [nia|]. rewrite Hsplit in Hle. lia. }
  nia.
Qed.

Lemma round_units_ge_pow2 (N D e : Z) :
  0 < D -> 0 <= e -> 2 ^ e * D <= N -> 2 ^ e <= round_units N D.
Proof.
  intros HD He Hle. unfold round_units.
  pose proof (pow2_pos e He) as Hpe.
  assert (Hq : 2 ^ e <= N / D) by (apply Z.div_le_lower_bound; lia).
  pose proof (Z.log2_le_mono _ _ Hq) as Hl. rewrite Z.log2_pow2 in Hl by lia.
  destruct (Z.log2_spec (N / D) ltac:(lia)) as [Hlo _].
  set (e' := Z.log2 (N / D)) in *.
  assert (Hc : spacing N D <= e') by (unfold spacing; fold e'; lia).
  pose proof (spacing_nonneg N D) as Hc0.
  set (c := spacing N D) in *.
  pose proof (pow2_pos c Hc0) as Hp.
  assert (Hsplit : 2 ^ e' = 2 ^ (e' - c) * 2 ^ c)
    by (rewrite <- Z.pow_add_r by lia; f_equal; lia).
  assert (Hmono : 2 ^ e <= 2 ^ e') by (apply Z.pow_le_mono_r; lia).
  assert (D * (N / D) <= N) by (apply Z.mul_div_le; lia).
  assert (2 ^ (e' - c) <= rne_div N (D * 2 ^ c)).
  { apply rne_div_ge; [nia|].
    replace (2 ^ (e' - c) * (D * 2 ^ c)) with (2 ^ e' * D) by (rewrite Hsplit; lia).
    nia. }
  nia.
Qed.

Lemma round_units_pow2 (e : Z) : 0 <= e -> round_units (2 ^ e) 1 = 2 ^ e.
Proof.
  intros He. apply Z.le_antisymm.
  - apply round_units_le_pow2; lia.
  - apply round_units_ge_pow2; lia.
Qed.

Lemma round_units_nonneg (N D : Z) : 0 <= N -> 0 < D -> 0 <= round_units N D.
Proof.
  intros HN HD. unfold round_units.
  pose proof (pow2_pos _ (spacing_nonneg N D)) as Hp.
  assert (0 <= rne_div N (D * 2 ^ spacing N D)) by (apply rne_div_ge; nia).
  nia.
Qed.

Lemma round_units_mono (N1 D1 N2 D2 : Z) :
  0 < D1 -> 0 < D2 -> 0 <= N1 -> N1 * D2 <= N2 * D1 ->
  round_units N1 D1 <= round_units N2 D2.
Proof.
  intros H1 H2 H0 Hle.
  pose proof (spacing_mono N1 D1 N2 D2 H1 H2 H0 Hle) as Hc.
  destruct (Z.eq_dec (spacing N1 D1) (spacing N2 D2)) as [Heq|Hne].
  - unfold round_units. rewrite Heq.
    pose proof (pow2_pos _ (spacing_nonneg N2 D2)) as Hp.
    assert (rne_div N1 (D1 * 2 ^ spacing N2 D2) <= rne_div N2 (D2 * 2 ^ spacing N2 D2))
      by (apply rne_div_mono; nia).
    nia.
  - assert (Hlt : spacing N1 D1 < spacing N2 D2) by lia.
    unfold spacing in Hlt.
    assert (Hq2 : 0 < N2 / D2).
    { destruct (Z_lt_le_dec 0 (N2 / D2)) as [|Hz]; [assumption|exfalso].
      rewrite (Z.log2_nonpos (N2 / D2)) in Hlt by lia. lia. }
    destruct (Z.log2_spec (N2 / D2) Hq2) as [Hlo _].
    set (e := Z.log2 (N2 / D2)) in *.
    assert (He : 0 <= e) by (apply Z.log2_nonneg).
    assert (Hq1 : N1 / D1 < 2 ^ e).
    { destruct (Z_lt_le_dec 0 (N1 / D1)) as [Hpos|Hz].
      - apply Z.log2_lt_pow2; lia.
      - pose proof (pow2_pos e He). lia. }
    assert (D2 * (N2 / D2) <= N2) by (apply Z.mul_div_le; lia).
    assert (N1 < D1 * (N1 / D1 + 1)).
    { pose proof (Z.div_mod N1 D1 ltac:(lia)). pose proof (Z.mod_pos_bound N1 D1 H1). nia. }
    transitivity (2 ^ e).
    + apply round_units_le_pow2; [lia|lia|nia].
    + apply round_units_ge_pow2; [lia|lia|nia].
Qed.

Lemma round_units_double (N D : Z) :
  0 < D -> 2 ^ 23 * D <= N -> round_units (2 * N) D = 2 * round_units N D.
Proof.
  intros HD HN.
  assert (Hq : 2 ^ 23 <= N / D) by (apply Z.div_le_lower_bound; lia).
  assert (Hl : Z.log2 (2 * N / D) = Z.log2 (N / D) + 1).
  { destruct (Z.log2_spec (N / D) ltac:(lia)) as [Hlo Hhi].
    pose proof (Z.div_mod N D ltac:(lia)) as E.
    pose proof (Z.mod_pos_bound N D HD) as B.
    apply Z.log2_unique.
    - pose proof (Z.log2_nonneg (N / D)). lia.
    - rewrite Z.pow_add_r by (try apply Z.log2_nonneg; lia).
      replace (Z.succ (Z.log2 (N / D) + 1)) with (Z.succ (Z.log2 (N / D)) + 1) by lia.
      rewrite Z.pow_add_r by (pose proof (Z.log2_nonneg (N / D)); lia).
      change (2 ^ 1) with 2. split.
      + apply Z.div_le_lower_bound; [lia|]. nia.
      + apply Z.div_lt_upper_bound; [lia|]. nia. }
  assert (Hl23 : 23 <= Z.log2 (N / D)).
  { pose proof (Z.log2_le_mono _ _ Hq) as H. rewrite Z.log2_pow2 in H by lia. exact H. }
  unfold round_units, spacing. rewrite Hl.
  rewrite !Z.max_r by lia.
  set (c := Z.log2 (N / D) - 23).
  replace (Z.log2 (N / D) + 1 - 23) with (c + 1) by (unfold c; lia).
  rewrite Z.pow_add_r by (unfold c; lia). change (2 ^ 1) with 2.
  replace (D * (2 ^ c * 2)) with (2 * (D * 2 ^ c)) by lia.
  rewrite rne_div_scale; [lia|lia|].
  pose proof (pow2_pos c ltac:(unfold c; lia)). nia.
Qed.

(** ** Single-precision numbers on the extended line *)

Lemma binary32_round_nonneg (N D : Z) :
  0 <= N ->
  binary32_round N D =
    if 2 ^ 277 <=? round_units N D then B32_infinity false
    else B32_finite (round_units N D).
Proof.
  intros HN. unfold binary32_round. rewrite Z.abs_eq by lia.
  destruct (Z.ltb_spec N 0); [lia|reflexivity].
Qed.

Lemma binary32_round_negative (N D : Z) :
  N < 0 ->
  binary32_round N D =
    if 2 ^ 277 <=? round_units (- N) D then B32_infinity true
    else B32_finite (- round_units (- N) D).
Proof.
  intros HN. unfold binary32_round. rewrite Z.abs_neq by lia.
  destruct (Z.ltb_spec N 0); [reflexivity|lia].
Qed.

Lemma rank_round_mono (N1 D1 N2 D2 : Z) :
  0 < D1 -> 0 < D2 -> N1 * D2 <= N2 * D1 ->
  rank (binary32_round N1 D1) <= rank (binary32_round N2 D2).
Proof.
  intros H1 H2 Hle.
  destruct (Z_lt_le_dec N1 0) as [Hn1|Hp1], (Z_lt_le_dec N2 0) as [Hn2|Hp2].
  - rewrite !binary32_round_negative by lia.
    pose proof (round_units_mono (- N2) D2 (- N1) D1 H2 H1 ltac:(lia) ltac:(lia)).
    destruct (Z.leb_spec (2 ^ 277) (round_units (- N1) D1)),
             (Z.leb_spec (2 ^ 277) (round_units (- N2) D2)); simpl; lia.
  - rewrite binary32_round_negative, binary32_round_nonneg by lia.
    pose proof (round_units_nonneg (- N1) D1 ltac:(lia) H1).
    pose proof (round_units_nonneg N2 D2 Hp2 H2).
    destruct (Z.leb_spec (2 ^ 277) (round_units (- N1) D1)),
             (Z.leb_spec (2 ^ 277) (round_units N2 D2)); simpl; lia.
  - exfalso. nia.
  - rewrite !binary32_round_nonneg by lia.
    pose proof (round_units_mono N1 D1 N2 D2 H1 H2 Hp1 Hle).
    destruct (Z.leb_spec (2 ^ 277) (round_units N1 D1)),
             (Z.leb_spec (2 ^ 277) (round_units N2 D2)); simpl; lia.
Qed.

Lemma round_units_zero (D : Z) : 0 < D -> round_units 0 D = 0.
Proof.
  intros HD. apply Z.le_antisymm.
  - pose proof (round_units_mono 0 D 0 1 HD ltac:(lia) ltac:(lia) ltac:(lia)) as Hm.
    assert (Hz : round_units 0 1 = 0) by reflexivity. lia.
  - apply round_units_nonneg; lia.
Qed.

Lemma rank_round_bounds (N D : Z) :
  0 < D ->
  match binary32_round N D with
  | B32_finite a => - 2 ^ 277 < a < 2 ^ 277 /\ (0 <= N -> 0 <= a) /\ (N <= 0 -> a <= 0)
  | B32_infinity s => s = (N <? 0) /\ N <> 0
  | B32_nan => False
  end.
Proof.
  intros HD. destruct (Z_lt_le_dec N 0) as [Hn|Hp].
  - rewrite binary32_round_negative by lia.
    pose proof (round_units_nonneg (- N) D ltac:(lia) HD).
    destruct (Z.leb_spec (2 ^ 277) (round_units (- N) D)).
    + destruct (Z.ltb_spec N 0); [split; [reflexivity|lia]|lia].
    + lia.
  - rewrite binary32_round_nonneg by lia.
    pose proof (round_units_nonneg N D Hp HD).
    pose proof (pow2_pos 277 ltac:(lia)).
    destruct (Z.leb_spec (2 ^ 277) (round_units N D)).
    + destruct (Z.ltb_spec N 0); [lia|]. split; [reflexivity|].
      intros ->. rewrite round_units_zero in * by lia. lia.
    + assert (N <= 0 -> round_units N D <= 0).
      { intros Hz. assert (N = 0) by lia. subst N. rewrite round_units_zero by lia. lia. }
      lia.
Qed.

Lemma binary32_lt_mono_r (x y y' : binary32) (N D N' D' : Z) :
  0 < D -> 0 < D' -> N * D' <= N' * D ->
  y = binary32_round N D -> y' = binary32_round N' D' ->
  binary32_lt x y = true -> binary32_lt x y' = true.
Proof.
  intros HD HD' Hle -> ->.
  pose proof (rank_round_mono N D N' D' HD HD' Hle) as Hr.
  pose proof (rank_round_bounds N D HD) as Hb.
  pose proof (rank_round_bounds N' D' HD') as Hb'.
  destruct (binary32_round N D) as [a|s|], (binary32_round N' D') as [a'|s'|];
    try contradiction; destruct x as [b|t|]; simpl in *; try discriminate; try tauto.
  - intros Hlt. apply Z.ltb_lt in Hlt. apply Z.ltb_lt. lia.
  - destruct s'; [lia|reflexivity].
  - destruct s'; [lia|]. intros ->. reflexivity.
  - destruct s; [|lia]. discriminate.
  - destruct s; [|lia]. intros Ht; apply andb_true_iff in Ht as [_ Ht]. discriminate.
  - destruct s, s'; simpl; try reflexivity; try lia; discriminate.
  - destruct s, s'; simpl; try lia; intros Ht; apply andb_true_iff in Ht as [Ht1 Ht2];
      try discriminate. rewrite Ht1. reflexivity.
Qed.

(** ** The load-factor test *)

Lemma nonnegative_load (L : TFloat32) : (0 <= L)%Q <-> 0 <= Qnum L.
Proof. unfold Qle. cbn [Qnum Qden]. lia. Qed.

Lemma at_least_half (L : TFloat32) :
  (1 # 2 <= L)%Q <-> Z.pos (Qden L) <= 2 * Qnum L.
Proof. unfold Qle. cbn [Qnum Qden]. lia. Qed.

Lemma exceeds_load_mono (n n' s : Z) (L : TFloat32) :
  n <= n' -> exceeds_load n' s L = false -> exceeds_load n s L = false.
Proof.
  intros Hle Hno. unfold exceeds_load in *.
  destruct (binary32_lt _ (binary32_of_Z n)) eqn:Hlt; [|reflexivity].
  rewrite <- Hno. symmetry.
  apply (binary32_lt_mono_r _ _ _ (n * 2 ^ 149) 1 (n' * 2 ^ 149) 1)
    with (4 := eq_refl) (5 := eq_refl) in Hlt; [exact Hlt|lia|lia|].
  pose proof (pow2_pos 149 ltac:(lia)). nia.
Qed.

Lemma binary32_mul_nonneg (N1 D1 N2 D2 : Z) :
  0 < D1 -> 0 < D2 -> 0 <= N1 -> 0 <= N2 ->
  match binary32_mul (binary32_round N1 D1) (binary32_round N2 D2) with
  | B32_finite a => 0 <= a
  | B32_infinity s => s = false
  | B32_nan => True
  end.
Proof.
  intros H1 H2 Hp1 Hp2.
  pose proof (rank_round_bounds N1 D1 H1) as Hb1.
  pose proof (rank_round_bounds N2 D2 H2) as Hb2.
  destruct (binary32_round N1 D1) as [a|s|], (binary32_round N2 D2) as [b|t|];
    try contradiction; simpl.
  - pose proof (rank_round_bounds (a * b) (2 ^ 149) (pow2_pos 149 ltac:(lia))) as Hb.
    destruct (binary32_round (a * b) (2 ^ 149)) as [c|u|]; [| |contradiction].
    + apply Hb. nia.
    + destruct Hb as [-> _]. destruct (Z.ltb_spec (a * b) 0); [nia|reflexivity].
  - destruct (a =? 0); [exact I|]. destruct Hb2 as [-> _].
    destruct (Z.ltb_spec N2 0), (Z.ltb_spec a 0); try reflexivity; lia.
  - destruct (b =? 0); [exact I|]. destruct Hb1 as [-> _].
    destruct (Z.ltb_spec N1 0), (Z.ltb_spec b 0); try reflexivity; lia.
  - destruct Hb1 as [-> _], Hb2 as [-> _].
    destruct (Z.ltb_spec N1 0), (Z.ltb_spec N2 0); try reflexivity; lia.
Qed.

Lemma exceeds_load_nonpositive (n s : Z) (L : TFloat32) :
  n <= 0 -> 0 <= s -> (0 <= L)%Q -> exceeds_load n s L = false.
Proof.
  intros Hn Hs HL. apply nonnegative_load in HL. unfold exceeds_load.
  pose proof (pow2_pos 149 ltac:(lia)) as HU.
  pose proof (binary32_mul_nonneg (s * 2 ^ 149) 1 (Qnum L * 2 ^ 149) (Z.pos (Qden L))
                ltac:(lia) ltac:(lia) ltac:(nia) ltac:(nia)) as Hx.
  fold (binary32_of_Z s) in Hx. fold (binary32_of_Q L) in Hx.
  pose proof (rank_round_bounds (n * 2 ^ 149) 1 ltac:(lia)) as Hy.
  fold (binary32_of_Z n) in Hy.
  destruct (binary32_mul _ _) as [a|u|]; [| |reflexivity];
    destruct (binary32_of_Z n) as [b|t|]; try contradiction; simpl.
  - apply Z.ltb_ge. assert (b <= 0) by (apply Hy; nia). lia.
  - destruct Hy as [-> Hne]. destruct (Z.ltb_spec (n * 2 ^ 149) 0); [reflexivity|nia].
  - subst u. reflexivity.
  - subst u. reflexivity.
Qed.

Lemma binary32_of_Z_finite (n : Z) :
  0 <= n <= 2 ^ 32 ->
  binary32_of_Z n = B32_finite (round_units (n * 2 ^ 149) 1).
Proof.
  intros Hn. unfold binary32_of_Z.
  pose proof (pow2_pos 149 ltac:(lia)) as HU.
  rewrite binary32_round_nonneg by nia.
  pose proof (round_units_le_pow2 (n * 2 ^ 149) 1 181 ltac:(lia) ltac:(lia)) as Hr.
  replace (2 ^ 181) with (2 ^ 32 * 2 ^ 149) in Hr by (rewrite <- Z.pow_add_r by lia; reflexivity).
  specialize (Hr ltac:(nia)).
  assert (2 ^ 32 * 2 ^ 149 < 2 ^ 277) by (rewrite <- Z.pow_add_r by lia; apply Z.pow_lt_mono_r; lia).
  destruct (Z.leb_spec (2 ^ 277) (round_units (n * 2 ^ 149) 1)); [lia|reflexivity].
Qed.

Lemma exceeds_load_double (n s : Z) (L : TFloat32) :
  (1 # 2 <= L)%Q -> 1 <= s -> s * 2 <= 2 ^ 32 -> n <= 2 ^ 32 ->
  exceeds_load (n - 1) s L = false -> exceeds_load n (s * 2) L = false.
Proof.
  intros Hhalf Hs Hs2 Hn Hno.
  destruct (Z_le_gt_dec n 0) as [Hn0|Hn1].
  { apply exceeds_load_nonpositive; [lia|lia|].
    apply nonnegative_load. apply at_least_half in Hhalf. lia. }
  apply at_least_half in Hhalf.
  pose proof (pow2_pos 149 ltac:(lia)) as HU.
  unfold exceeds_load in *.
  rewrite (binary32_of_Z_finite s) in Hno by lia.
  rewrite (binary32_of_Z_finite (s * 2)) by lia.
  rewrite (binary32_of_Z_finite n) by lia.
  rewrite (binary32_of_Z_finite (n - 1)) in Hno by lia.
  replace (s * 2 * 2 ^ 149) with (2 * (s * 2 ^ 149)) by lia.
  rewrite round_units_double by (change (2 ^ 23) with 8388608; change (2 ^ 149) with (8388608 * 2 ^ 126); pose proof (pow2_pos 126 ltac:(lia)); nia).
  pose proof (round_units_ge_pow2 (s * 2 ^ 149) 1 149 ltac:(lia) ltac:(lia) ltac:(nia)) as Ha.
  set (a := round_units (s * 2 ^ 149) 1) in *.
  unfold binary32_of_Q in *.
  rewrite binary32_round_nonneg in * by nia.
  pose proof (round_units_ge_pow2 (Qnum L * 2 ^ 149) (Z.pos (Qden L)) 148
                ltac:(lia) ltac:(lia)) as Hl.
  assert (Hsplit : 2 ^ 149 = 2 * 2 ^ 148) by reflexivity.
  specialize (Hl ltac:(rewrite Hsplit; nia)).
  set (l := round_units (Qnum L * 2 ^ 149) (Z.pos (Qden L))) in *.
  pose proof (pow2_pos 148 ltac:(lia)) as HU'.
  destruct (Z.leb_spec (2 ^ 277) l) as [Hinf|Hfin].
  { simpl. destruct (Z.eqb_spec (2 * a) 0); [lia|].
    destruct (Z.ltb_spec (2 * a) 0); [lia|]. reflexivity. }
  cbn [binary32_mul] in *.
  replace (2 * a * l) with (2 * (a * l)) by lia.
  assert (Hnormal : 2 ^ 23 * 2 ^ 149 <= a * l).
  { assert (2 ^ 23 <= 2 ^ 148) by (apply Z.pow_le_mono_r; lia). nia. }
  rewrite binary32_round_nonneg in * by nia.
  rewrite round_units_double by (try exact Hnormal; lia).
  pose proof (round_units_ge_pow2 (a * l) (2 ^ 149) 148 ltac:(lia) ltac:(lia) ltac:(nia)) as Hp.
  set (p := round_units (a * l) (2 ^ 149)) in *.
  destruct (Z.leb_spec (2 ^ 277) (2 * p)) as [Hover|Hfit]; [reflexivity|].
  destruct (Z.leb_spec (2 ^ 277) p) as [Hover'|Hfit']; [lia|].
  cbn [binary32_lt] in *. apply Z.ltb_ge. apply Z.ltb_ge in Hno.
  destruct (Z.eq_dec n 1) as [->|Hn2].
  - rewrite Z.mul_1_l, round_units_pow2 by lia. lia.
  - pose proof (round_units_mono (n * 2 ^ 149) 1 (2 * ((n - 1) * 2 ^ 149)) 1
                  ltac:(lia) ltac:(lia) ltac:(nia) ltac:(nia)) as Hm.
    rewrite round_units_double in Hm
      by (try lia; change (2 ^ 23) with 8388608; change (2 ^ 149) with (8388608 * 2 ^ 126);
          pose proof (pow2_pos 126 ltac:(lia)); nia).
    lia.
Qed.

Lemma round_units_exact (m k D : Z) :
  0 < D -> 0 <= m < 2 ^ 24 -> 0 <= k -> round_units (m * 2 ^ k * D) D = m * 2 ^ k.
Proof.
  intros HD Hm Hk. unfold round_units, spacing.
  rewrite Z.div_mul by lia.
  pose proof (pow2_pos k Hk) as Hpk.
  assert (Hc : Z.max 0 (Z.log2 (m * 2 ^ k) - 23) <= k).
  { destruct (Z.eq_dec m 0) as [->|Hne]; [simpl; lia|].
    rewrite Z.log2_mul_pow2 by lia.
    assert (Z.log2 m < 24) by (apply Z.log2_lt_pow2; lia). lia. }
  set (c := Z.max 0 (Z.log2 (m * 2 ^ k) - 23)) in *.
  assert (Hc0 : 0 <= c) by (unfold c; lia).
  pose proof (pow2_pos c Hc0) as Hpc.
  assert (Hsplit : 2 ^ k = 2 ^ (k - c) * 2 ^ c)
    by (rewrite <- Z.pow_add_r by lia; f_equal; lia).
  replace (m * 2 ^ k * D) with (m * 2 ^ (k - c) * (D * 2 ^ c)) by (rewrite Hsplit; lia).
  rewrite rne_div_exact by nia. rewrite Hsplit. lia.
Qed.

Lemma default_MaxLoadFactor_units :
  binary32_of_Q default_MaxLoadFactor = B32_finite (11744051 * 2 ^ 125).
Proof. vm_compute. reflexivity. Qed.

Lemma exceeds_load_default_pow2 (n e : Z) :
  0 <= e <= 31 -> n <= 2 ^ 32 ->
  exceeds_load n (2 ^ e) default_MaxLoadFactor = true ->
  2 ^ e * 11744051 < n * 16777216.
Proof.
  intros He Hn Hyes.
  destruct (Z_le_gt_dec n 0) as [Hn0|Hn1].
  { rewrite exceeds_load_nonpositive in Hyes; [discriminate|lia| |].
    - pose proof (pow2_pos e ltac:(lia)). lia.
    - apply nonnegative_load. simpl. lia. }
  pose proof (pow2_pos e ltac:(lia)) as Hpe.
  pose proof (pow2_pos 125 ltac:(lia)) as H125.
  assert (He32 : 2 ^ e <= 2 ^ 32) by (apply Z.pow_le_mono_r; lia).
  unfold exceeds_load in Hyes.
  rewrite default_MaxLoadFactor_units in Hyes.
  rewrite (binary32_of_Z_finite (2 ^ e)), (binary32_of_Z_finite n) in Hyes by lia.
  rewrite <- Z.pow_add_r, round_units_pow2 in Hyes by lia.
  cbn [binary32_mul] in Hyes.
  assert (Hprod : 2 ^ (e + 149) * (11744051 * 2 ^ 125) =
                  11744051 * 2 ^ (e + 125) * 2 ^ 149)
    by (rewrite !Z.pow_add_r by lia; lia).
  rewrite Hprod, binary32_round_nonneg in Hyes
    by (pose proof (pow2_pos (e + 125) ltac:(lia)); pose proof (pow2_pos 149 ltac:(lia)); nia).
  rewrite round_units_exact in Hyes by (try apply pow2_pos; lia).
  destruct (Z.leb_spec (2 ^ 277) (11744051 * 2 ^ (e + 125))); [discriminate|].
  cbn [binary32_lt] in Hyes. apply Z.ltb_lt in Hyes.
  destruct (Z_lt_le_dec (2 ^ e * 11744051) (n * 16777216)) as [|Hle]; [assumption|exfalso].
  pose proof (round_units_mono (n * 2 ^ 149) 1 (11744051 * 2 ^ (e + 125) * 1) 1
                ltac:(lia) ltac:(lia)) as Hm.
  rewrite round_units_exact in Hm by lia.
  assert (Hsplit : 2 ^ 149 = 16777216 * 2 ^ 125) by reflexivity.
  rewrite Z.pow_add_r in * by lia.
  pose proof (pow2_pos 149 ltac:(lia)).
  specialize (Hm ltac:(nia) ltac:(rewrite Hsplit; nia)). lia.
Qed.

(** ** Termination and completion of [SetKeyValue] *)

Section Termination.
Context {TKeyType : Type} `{KeyType TKeyType} {TValueType : Type}.

#[local] Abbreviation Table := (CHashTable TKeyType TValueType).
#[local] Abbreviation Pair := (TKeyValuePair TKeyType TValueType).

Lemma FindBucket_not_OutOfFuel (t : Table) (k : TKeyType) :
  FindBucket t k <> OutOfFuel.
Proof. unfold FindBucket. destruct (m_iSize t =? 0); discriminate. Qed.

Lemma bucket_at_not_OutOfFuel (t : Table) (i : Z) : bucket_at t i <> OutOfFuel.
Proof.
  unfold bucket_at. destruct ((0 <=? i) && (i <? m_iSize t)); [|discriminate].
  destruct (m_aBuckets t !! Z.to_nat i); discriminate.
Qed.

Lemma body_not_OutOfFuel (resize : Table -> Z -> outcome Table) (t : Table)
    (k : TKeyType) (v : TValueType) :
  resize t (wrap32 (m_iSize t * 2)) <> OutOfFuel ->
  SetKeyValue_body resize t k v <> OutOfFuel.
Proof.
  intros Hr. unfold SetKeyValue_body, FindKeyValuePair.
  pose proof (FindBucket_not_OutOfFuel t k) as Hf.
  destruct (FindBucket t k) as [i| |]; simpl; try congruence.
  pose proof (bucket_at_not_OutOfFuel t i) as Hb.
  destruct (bucket_at t i) as [b| |]; simpl; try congruence.
  destruct (scan_bucket k b) as [j|]; [discriminate|].
  destruct (exceeds_load (m_iNumEntries t) (m_iSize t) (m_kfMaxLoadFactor t)).
  - destruct (resize t (wrap32 (m_iSize t * 2))) as [t1| |]; simpl; try congruence.
    pose proof (FindBucket_not_OutOfFuel t1 k) as Hf1.
    destruct (FindBucket t1 k) as [i1| |]; simpl; try congruence.
    pose proof (bucket_at_not_OutOfFuel t1 i1) as Hb1.
    destruct (bucket_at t1 i1) as [b1| |]; simpl; congruence.
  - simpl. pose proof (bucket_at_not_OutOfFuel t i) as Hb1.
    destruct (bucket_at t i) as [b1| |]; simpl; congruence.
Qed.

Lemma SetKeyValue_fuel_size0 (fuel : nat) (t : Table) (k : TKeyType) (v : TValueType) :
  m_iSize t = 0 -> SetKeyValue_fuel (S fuel) t k v = Fault.
Proof.
  intros Hz. simpl. unfold SetKeyValue_body, FindBucket. rewrite Hz. reflexivity.
Qed.

(** Draining pairs into a table without buckets faults at the first pair. *)
Lemma drain_size0_outcome (fuel : nat) (ps : list Pair) (t : Table) :
  m_iSize t = 0 -> (length ps <= fuel)%nat ->
  drain_bucket (SetKeyValue_fuel fuel) ps t = match ps with [] => Done t | _ => Fault end.
Proof.
  intros Hz Hlen. destruct ps as [|p ps]; simpl; [reflexivity|].
  destruct fuel as [|fuel]; [simpl in Hlen; lia|].
  rewrite SetKeyValue_fuel_size0 by exact Hz. reflexivity.
Qed.

Lemma drain_not_OutOfFuel (fuel : nat) :
  (forall (t : Table) k v, wf t -> (entries t < fuel)%nat ->
                           SetKeyValue_fuel fuel t k v <> OutOfFuel) ->
  forall (ps : list Pair) (t : Table),
    wf t ->
    m_iNumEntries t = wrap32 (Z.of_nat (entries t)) ->
    NoDup (keys t ++ (key <$> ps)) ->
    (entries t + length ps <= fuel)%nat ->
    drain_bucket (SetKeyValue_fuel fuel) ps t <> OutOfFuel.
Proof.
  intros Hfuel ps. induction ps as [|p ps IH]; intros t Hwf Hn Hnd Hlen; simpl.
  - discriminate.
  - simpl in Hlen.
    destruct (SetKeyValue_fuel fuel t (key p) (value p)) as [t1| |] eqn:Hs; simpl.
    + destruct (drain_spec (SetKeyValue_fuel fuel) (SetKeyValue_fuel_spec fuel)
                  [p] t t1 Hwf Hn) as (Hwf1 & _ & _ & Hc1 & Hn1 & _).
      * simpl in Hnd. apply NoDup_app in Hnd as (Hnd1 & Hdis & Hnd2).
        apply NoDup_app. split; [exact Hnd1|]. split.
        -- intros x Hx Hx'. apply (Hdis x Hx). simpl in Hx'.
           apply list_elem_of_singleton in Hx'. subst x. left.
        -- simpl. apply NoDup_singleton.
      * simpl. rewrite Hs. reflexivity.
      * apply IH; auto.
        -- unfold keys at 1. rewrite Hc1. rewrite fmap_app. simpl.
           rewrite <- app_assoc. exact Hnd.
        -- rewrite (entries_perm t t1 _ Hc1). rewrite length_app. simpl.
           unfold entries in Hlen. lia.
    + discriminate.
    + exfalso. apply (Hfuel t (key p) (value p) Hwf); [lia|exact Hs].
Qed.

Lemma Resize_with_not_OutOfFuel (fuel : nat) (t : Table) (n : Z) :
  (forall (t : Table) k v, wf t -> (entries t < fuel)%nat ->
                           SetKeyValue_fuel fuel t k v <> OutOfFuel) ->
  wf t -> 0 <= n < 2 ^ 32 -> (entries t <= fuel)%nat ->
  Resize_with (SetKeyValue_fuel fuel) t n <> OutOfFuel.
Proof.
  intros Hfuel Hwf Hn Hlen. unfold Resize_with.
  destruct (Z.of_nat (length (m_aBuckets t)) <? m_iSize t); [discriminate|].
  rewrite take_ge by (rewrite (wf_length t Hwf); lia).
  rewrite drain_buckets_join. fold (contents t).
  destruct (decide (n = 0)) as [->|Hn0].
  - rewrite drain_size0_outcome by (auto; exact Hlen).
    destruct (contents t); discriminate.
  - change (drain_bucket (SetKeyValue_fuel fuel) (contents t)
              (CHashTable_new n (m_kpfHashFunction t) (m_kfMaxLoadFactor t))
            <> OutOfFuel).
    apply (drain_not_OutOfFuel fuel Hfuel).
    + apply new_wf. lia.
    + unfold entries. rewrite new_contents. reflexivity.
    + unfold keys at 1. rewrite new_contents. simpl. apply (wf_nodup t Hwf).
    + unfold entries at 1. rewrite new_contents. simpl. exact Hlen.
Qed.

Lemma SetKeyValue_fuel_not_OutOfFuel (fuel : nat) :
  forall (t : Table) (k : TKeyType) (v : TValueType),
    wf t -> (entries t < fuel)%nat -> SetKeyValue_fuel fuel t k v <> OutOfFuel.
Proof.
  induction fuel as [|fuel IH]; intros t k v Hwf Hlen; [lia|].
  simpl. apply body_not_OutOfFuel.
  apply Resize_with_not_OutOfFuel; auto.
  - apply wrap32_range.
  - lia.
Qed.

(** The fuel chosen by the entry points is always sufficient. *)
Lemma SetKeyValue_terminates (t : Table) (k : TKeyType) (v : TValueType) :
  wf t -> SetKeyValue t k v <> OutOfFuel.
Proof. intros Hwf. apply SetKeyValue_fuel_not_OutOfFuel; auto. Qed.

Lemma Resize_terminates (t : Table) (n : Z) :
  wf t -> 0 <= n < 2 ^ 32 -> Resize t n <> OutOfFuel.
Proof.
  intros Hwf Hn. apply Resize_with_not_OutOfFuel; auto.
  intros. apply SetKeyValue_fuel_not_OutOfFuel; auto.
Qed.

(** *** The result does not depend on the call-depth bound *)

Lemma drain_bucket_agree (set1 set2 : Table -> TKeyType -> TValueType -> outcome Table) :
  (forall t k v, set1 t k v <> OutOfFuel -> set2 t k v = set1 t k v) ->
  forall (ps : list Pair) (t : Table),
    drain_bucket set1 ps t <> OutOfFuel ->
    drain_bucket set2 ps t = drain_bucket set1 ps t.
Proof.
  intros Hagree ps. induction ps as [|p ps IH]; intros t Hrun; simpl in *.
  - reflexivity.
  - destruct (set1 t (key p) (value p)) as [t1| |] eqn:Hs; simpl in Hrun.
    + rewrite Hagree, Hs by congruence. simpl. apply IH. exact Hrun.
    + rewrite Hagree, Hs by congruence. reflexivity.
    + contradiction.
Qed.

Lemma Resize_with_agree (set1 set2 : Table -> TKeyType -> TValueType -> outcome Table)
    (t : Table) (n : Z) :
  (forall t k v, set1 t k v <> OutOfFuel -> set2 t k v = set1 t k v) ->
  Resize_with set1 t n <> OutOfFuel ->
  Resize_with set2 t n = Resize_with set1 t n.
Proof.
  intros Hagree. unfold Resize_with.
  destruct (Z.of_nat (length (m_aBuckets t)) <? m_iSize t); [reflexivity|].
  rewrite !drain_buckets_join. apply drain_bucket_agree. exact Hagree.
Qed.

Lemma body_agree (resize1 resize2 : Table -> Z -> outcome Table) (t : Table)
    (k : TKeyType) (v : TValueType) :
  (resize1 t (wrap32 (m_iSize t * 2)) <> OutOfFuel ->
   resize2 t (wrap32 (m_iSize t * 2)) = resize1 t (wrap32 (m_iSize t * 2))) ->
  SetKeyValue_body resize1 t k v <> OutOfFuel ->
  SetKeyValue_body resize2 t k v = SetKeyValue_body resize1 t k v.
Proof.
  intros Hagree. unfold SetKeyValue_body.
  destruct (FindBucket t k) as [i| |]; simpl; try reflexivity.
  destruct (FindKeyValuePair t i k) as [[j|]| |]; simpl; try reflexivity.
  destruct (exceeds_load (m_iNumEntries t) (m_iSize t) (m_kfMaxLoadFactor t));
    [|reflexivity].
  destruct (resize1 t (wrap32 (m_iSize t * 2))) as [t1| |] eqn:Hr; simpl; intros Hrun.
  - rewrite Hagree by discriminate. reflexivity.
  - rewrite Hagree by discriminate. reflexivity.
  - contradiction.
Qed.

Lemma SetKeyValue_fuel_mono (fuel : nat) :
  forall (fuel' : nat) (t : Table) (k : TKeyType) (v : TValueType),
    (fuel <= fuel')%nat ->
    SetKeyValue_fuel fuel t k v <> OutOfFuel ->
    SetKeyValue_fuel fuel' t k v = SetKeyValue_fuel fuel t k v.
Proof.
  induction fuel as [|fuel IH]; intros fuel' t k v Hle Hrun; simpl in Hrun.
  - contradiction.
  - destruct fuel' as [|fuel']; [lia|]. simpl.
    apply body_agree; [|exact Hrun].
    apply Resize_with_agree. intros u k' v' Hu. apply IH; [lia|exact Hu].
Qed.

(** Any larger bound gives the result of [SetKeyValue]. *)
Lemma SetKeyValue_any_fuel (t : Table) (k : TKeyType) (v : TValueType) (fuel : nat) :
  wf t -> (entries t < fuel)%nat -> SetKeyValue_fuel fuel t k v = SetKeyValue t k v.
Proof.
  intros Hwf Hfuel. apply SetKeyValue_fuel_mono; [lia|].
  apply SetKeyValue_terminates. exact Hwf.
Qed.

End Termination.

Section Completion.
Context {TKeyType : Type} `{KeyType TKeyType} {TValueType : Type}.

#[local] Abbreviation Table := (CHashTable TKeyType TValueType).
#[local] Abbreviation Pair := (TKeyValuePair TKeyType TValueType).

Lemma body_without_resize (resize : Table -> Z -> outcome Table) (t : Table)
    (k : TKeyType) (v : TValueType) :
  wf t ->
  k ∈ keys t \/
    exceeds_load (m_iNumEntries t) (m_iSize t) (m_kfMaxLoadFactor t) = false ->
  exists t', SetKeyValue_body resize t k v = Done t'.
Proof.
  intros Hwf Hcase. unfold SetKeyValue_body.
  destruct (home_bucket t k Hwf) as (b & Hf & Hb & Hl).
  rewrite Hf. simpl. unfold FindKeyValuePair. rewrite Hb. simpl.
  destruct (scan_bucket k b) as [j|] eqn:Hscan; [eauto|].
  destruct Hcase as [Hin|Hload].
  - exfalso. apply scan_bucket_None in Hscan.
    apply Hscan, (home_bucket_keys t k b Hwf Hl), Hin.
  - rewrite Hload. simpl. rewrite Hb. simpl. eauto.
Qed.

(** Without a resize the call completes and keeps the bucket count. *)
Lemma SetKeyValue_fuel_without_resize (fuel : nat) (t : Table)
    (k : TKeyType) (v : TValueType) :
  wf t ->
  k ∈ keys t \/
    exceeds_load (m_iNumEntries t) (m_iSize t) (m_kfMaxLoadFactor t) = false ->
  exists t', SetKeyValue_fuel (S fuel) t k v = Done t' /\
             set_post t k v t' /\ m_iSize t' = m_iSize t.
Proof.
  intros Hwf Hcase.
  destruct (body_without_resize (Resize_with (SetKeyValue_fuel fuel)) t k v Hwf Hcase)
    as (t' & Hrun).
  exists t'. split; [exact Hrun|].
  pose proof (SetKeyValue_fuel_spec (S fuel) t k v t' Hwf Hrun) as Hpost.
  split; [exact Hpost|].
  destruct (sp_effect _ _ _ _ Hpost) as [Hup|Hin].
  - apply (up_size _ _ _ _ Hup).
  - destruct (in_growth _ _ _ _ Hin) as [(_ & Hs & _)|(Ht & _)]; [exact Hs|].
    destruct Hcase as [Hk|Hload]; [|congruence].
    exfalso. exact (in_absent _ _ _ _ Hin Hk).
Qed.

Lemma SetKeyValue_without_resize (t : Table) (k : TKeyType) (v : TValueType) :
  wf t ->
  k ∈ keys t \/
    exceeds_load (m_iNumEntries t) (m_iSize t) (m_kfMaxLoadFactor t) = false ->
  exists t', SetKeyValue t k v = Done t' /\
             set_post t k v t' /\ m_iSize t' = m_iSize t.
Proof. apply SetKeyValue_fuel_without_resize. Qed.

(** Reinsertion during a resize whose new size is large enough for all
    the old pairs: no nested resize happens. *)
Lemma drain_plain (fuel : nat) (ps : list Pair) :
  forall t : Table,
    wf t ->
    m_iNumEntries t = Z.of_nat (entries t) ->
    NoDup (keys t ++ (key <$> ps)) ->
    (length ps <= fuel)%nat ->
    Z.of_nat (entries t + length ps) < 2 ^ 32 ->
    (forall j : nat, (entries t <= j < entries t + length ps)%nat ->
                     exceeds_load (Z.of_nat j) (m_iSize t) (m_kfMaxLoadFactor t) = false) ->
    exists t', drain_bucket (SetKeyValue_fuel fuel) ps t = Done t' /\
               wf t' /\
               m_iSize t' = m_iSize t /\
               contents t' ≡ₚ contents t ++ ps /\
               m_iNumEntries t' = Z.of_nat (entries t') /\
               m_kpfHashFunction t' = m_kpfHashFunction t /\
               m_kfMaxLoadFactor t' = m_kfMaxLoadFactor t.
Proof.
  induction ps as [|p ps IH]; intros t Hwf Hn Hnd Hfuel Hsmall Hload; simpl.
  - exists t. rewrite app_nil_r.
    split; [reflexivity|]. split; [exact Hwf|]. split; [reflexivity|].
    split; [reflexivity|]. split; [exact Hn|]. split; reflexivity.
  - simpl in Hfuel, Hsmall. destruct fuel as [|fuel']; [lia|].
    destruct (SetKeyValue_fuel_without_resize fuel' t (key p) (value p) Hwf)
      as (t1 & Hs & Hpost & Hsize).
    { right. rewrite Hn. apply Hload. simpl. lia. }
    rewrite Hs. simpl.
    destruct Hpost as [Hwf1 Hh1 Hl1 [Hup|Hin]].
    { exfalso. apply NoDup_app in Hnd as (_ & Hdis & _).
      apply (Hdis (key p) (up_present _ _ _ _ Hup)). simpl. left. }
    destruct Hin as [Habs Hc1 _ Hgrow]. rewrite pair_eta in Hc1.
    assert (He1 : entries t1 = S (entries t)).
    { rewrite (entries_perm t t1 _ Hc1). reflexivity. }
    assert (Hn1 : m_iNumEntries t1 = Z.of_nat (entries t1)).
    { destruct Hgrow as [(_ & _ & Hc)|(Ht & _)].
      - rewrite Hc, Hn, He1, Nat2Z.inj_succ. unfold Z.succ. apply wrap32_small. lia.
      - rewrite Hn in Ht. rewrite Hload in Ht by (simpl; lia). discriminate. }
    destruct (IH t1) as (t' & Hd & Hwf' & Hs' & Hc' & Hn' & Hh' & Hl'); auto.
    + unfold keys at 1. rewrite Hc1. simpl. simpl in Hnd.
      rewrite <- Permutation_middle in Hnd. exact Hnd.
    + lia.
    + rewrite He1. lia.
    + intros j Hj. rewrite Hsize, Hl1. apply Hload. simpl. lia.
    + exists t'. split; [exact Hd|]. split; [exact Hwf'|].
      split; [congruence|]. split; [|split; [exact Hn'|split; congruence]].
      rewrite Hc', Hc1. simpl. apply Permutation_middle.
Qed.

(** A resize that is large enough completes with exactly one doubling. *)
Lemma SetKeyValue_resize_once (t : Table) (k : TKeyType) (v : TValueType) :
  wf t ->
  k ∉ keys t ->
  exceeds_load (m_iNumEntries t) (m_iSize t) (m_kfMaxLoadFactor t) = true ->
  0 < wrap32 (m_iSize t * 2) ->
  Z.of_nat (entries t) + 1 < 2 ^ 32 ->
  (forall j : nat, (j < entries t)%nat ->
     exceeds_load (Z.of_nat j) (wrap32 (m_iSize t * 2)) (m_kfMaxLoadFactor t) = false) ->
  exists t', SetKeyValue t k v = Done t' /\
             set_post t k v t' /\
             m_iSize t' = wrap32 (m_iSize t * 2) /\
             m_iNumEntries t' = Z.of_nat (entries t) + 1.
Proof.
  intros Hwf Habs Hload Hpos Hsmall Hfit.
  assert (Hrun : exists t', SetKeyValue t k v = Done t' /\
                            m_iSize t' = wrap32 (m_iSize t * 2) /\
                            m_iNumEntries t' = Z.of_nat (entries t) + 1).
  { unfold SetKeyValue. simpl. unfold SetKeyValue_body.
    destruct (home_bucket t k Hwf) as (b & Hf & Hb & Hl).
    rewrite Hf. simpl. unfold FindKeyValuePair. rewrite Hb. simpl.
    rewrite (home_bucket_keys t k b Hwf Hl) in Habs.
    apply scan_bucket_None in Habs. rewrite Habs, Hload.
    unfold Resize_with.
    destruct (Z.of_nat (length (m_aBuckets t)) <? m_iSize t) eqn:Hlen;
      [apply Z.ltb_lt in Hlen; rewrite (wf_length t Hwf) in Hlen;
       pose proof (wf_size t Hwf); lia|].
    rewrite take_ge by (rewrite (wf_length t Hwf); lia).
    rewrite drain_buckets_join. fold (contents t).
    pose proof (wrap32_range (m_iSize t * 2)) as Hr.
    destruct (drain_plain (entries t) (contents t)
                (CHashTable_new (wrap32 (m_iSize t * 2))
                   (m_kpfHashFunction t) (m_kfMaxLoadFactor t)))
      as (t1 & Hd & Hwf1 & Hs1 & Hc1 & Hn1 & Hh1 & Hl1).
    - apply new_wf. lia.
    - unfold entries. rewrite new_contents. reflexivity.
    - unfold keys at 1. rewrite new_contents. simpl. apply (wf_nodup t Hwf).
    - reflexivity.
    - unfold entries at 1. rewrite new_contents. simpl. unfold entries in Hsmall. lia.
    - intros j Hj. simpl. apply Hfit. unfold entries at 1 2 in Hj.
      rewrite new_contents in Hj. simpl in Hj. unfold entries. lia.
    - change (drain_bucket (SetKeyValue_fuel (entries t)) (contents t)
                (CHashTable_new (wrap32 (m_iSize t * 2))
                   (m_kpfHashFunction t) (m_kfMaxLoadFactor t)))
        with (drain_bucket (SetKeyValue_fuel (entries t)) (contents t)
                {| m_aBuckets := replicate (Z.to_nat (wrap32 (m_iSize t * 2))) [];
                   m_iSize := wrap32 (m_iSize t * 2);
                   m_iNumEntries := 0;
                   m_kpfHashFunction := m_kpfHashFunction t;
                   m_kfMaxLoadFactor := m_kfMaxLoadFactor t |}) in Hd.
      rewrite Hd. simpl.
      destruct (home_bucket t1 k Hwf1) as (b1 & Hf1 & Hb1 & _).
      rewrite Hf1. simpl. rewrite Hb1. simpl.
      eexists. split; [reflexivity|]. simpl. split; [exact Hs1|].
      rewrite Hn1. rewrite new_contents in Hc1. simpl in Hc1.
      rewrite (entries_perm t t1 _ Hc1). fold (entries t).
      apply wrap32_small. lia. }
  destruct Hrun as (t' & Hrun & Hs & Hn). exists t'.
  split; [exact Hrun|]. split; [|split; assumption].
  apply SetKeyValue_spec; assumption.
Qed.

(** When doubling wraps the 32-bit size to zero, the insertion divides by
    zero in [FindBucket]. *)
Lemma SetKeyValue_overflow (t : Table) (k : TKeyType) (v : TValueType) :
  wf t ->
  k ∉ keys t ->
  exceeds_load (m_iNumEntries t) (m_iSize t) (m_kfMaxLoadFactor t) = true ->
  wrap32 (m_iSize t * 2) = 0 ->
  SetKeyValue t k v = Fault.
Proof.
  intros Hwf Habs Hload Hzero. unfold SetKeyValue. simpl. unfold SetKeyValue_body.
  destruct (home_bucket t k Hwf) as (b & Hf & Hb & Hl).
  rewrite Hf. simpl. unfold FindKeyValuePair. rewrite Hb. simpl.
  rewrite (home_bucket_keys t k b Hwf Hl) in Habs.
  apply scan_bucket_None in Habs. rewrite Habs, Hload. rewrite Hzero.
  unfold Resize_with.
  destruct (Z.of_nat (length (m_aBuckets t)) <? m_iSize t); [reflexivity|].
  rewrite take_ge by (rewrite (wf_length t Hwf); lia).
  rewrite drain_buckets_join. fold (contents t).
  rewrite drain_size0_outcome by (auto; reflexivity).
  destruct (contents t); reflexivity.
Qed.

End Completion.

(** ** The hash functions against their reference definitions *)

Section Hashing.

(** The indexed loop over [pKey[0 .. iKeyLen-1]] visits the key bytes in
    order. *)
Lemma indexed_loop (f : Z -> Z -> Z) (done rest : list Z) (acc : Z) :
  fold_left (fun a i => f a (byte_at (done ++ rest) i))
    (seq (length done) (length rest)) acc =
  fold_left f rest acc.
Proof.
  revert done acc. induction rest as [|b rest IH]; intros done acc; simpl.
  - reflexivity.
  - unfold byte_at at 2. rewrite app_nth2 by lia. rewrite Nat.sub_diag. simpl.
    specialize (IH (done ++ [b]) (f acc b)).
    rewrite <- app_assoc in IH. simpl in IH.
    rewrite length_app in IH. simpl in IH.
    rewrite Nat.add_1_r in IH. exact IH.
Qed.

Lemma indexed_loop_all (f : Z -> Z -> Z) (pKey : list Z) (acc : Z) :
  fold_left (fun a i => f a (byte_at pKey i))
    (seq 0 (Z.to_nat (Z.of_nat (length pKey)))) acc =
  fold_left f pKey acc.
Proof. rewrite Nat2Z.id. apply (indexed_loop f [] pKey acc). Qed.

Lemma add_up_loop (bytes : list Z) (acc : Z) :
  wrap32 (fold_left (fun h b => wrap32 (h + b)) bytes acc) =
  wrap32 (acc + fold_right Z.add 0 bytes).
Proof.
  revert acc. induction bytes as [|b bytes IH]; intros acc; simpl.
  - rewrite Z.add_0_r. reflexivity.
  - rewrite IH, wrap32_add_l. f_equal. lia.
Qed.

Lemma add_up_loop_range (bytes : list Z) (acc : Z) :
  0 <= acc < 2 ^ 32 ->
  0 <= fold_left (fun h b => wrap32 (h + b)) bytes acc < 2 ^ 32.
Proof.
  revert acc. induction bytes as [|b bytes IH]; intros acc Hacc; simpl.
  - exact Hacc.
  - apply IH, wrap32_range.
Qed.

Lemma AddUpHash_reference (pKey : list Z) :
  AddUpHash pKey (Z.of_nat (length pKey)) = Reference.sum_of_bytes pKey.
Proof.
  unfold AddUpHash, Reference.sum_of_bytes.
  rewrite (indexed_loop_all (fun h b => wrap32 (h + b))).
  rewrite <- (wrap32_small (fold_left _ pKey 0)) by (apply add_up_loop_range; lia).
  rewrite add_up_loop. reflexivity.
Qed.

Lemma add_shifted (acc : Z) (n : Z) :
  0 <= n ->
  wrap32 (acc + wrap32 (Z.shiftl acc n)) = (acc + acc * 2 ^ n) mod 2 ^ 32.
Proof.
  intros Hn. unfold wrap32. rewrite Z.shiftl_mul_pow2 by exact Hn.
  apply Zplus_mod_idemp_r.
Qed.

Lemma mix_step (iHash b : Z) :
  (let h1 := wrap32 (iHash + b) in
   let h2 := wrap32 (h1 + wrap32 (Z.shiftl h1 10)) in
   Z.lxor h2 (Z.shiftr h2 6)) = Reference.mix_byte iHash b.
Proof.
  unfold Reference.mix_byte. cbv zeta.
  rewrite add_shifted by lia. rewrite Z.shiftr_div_pow2 by lia. reflexivity.
Qed.

Lemma JOneAtATimeHash_reference (pKey : list Z) :
  JOneAtATimeHash pKey (Z.of_nat (length pKey)) = Reference.one_at_a_time pKey.
Proof.
  unfold JOneAtATimeHash, Reference.one_at_a_time, Reference.finalize. cbv zeta.
  rewrite (indexed_loop_all
             (fun h b => Z.lxor (wrap32 (wrap32 (h + b) + wrap32 (Z.shiftl (wrap32 (h + b)) 10)))
                           (Z.shiftr (wrap32 (wrap32 (h + b) + wrap32 (Z.shiftl (wrap32 (h + b)) 10))) 6))).
  replace (fold_left _ pKey 0) with (fold_left Reference.mix_byte pKey 0).
  - rewrite !add_shifted by lia. rewrite Z.shiftr_div_pow2 by lia. reflexivity.
  - generalize 0. induction pKey as [|b pKey IH]; intros acc; simpl.
    + reflexivity.
    + rewrite IH. f_equal. symmetry. apply mix_step.
Qed.

End Hashing.

(** C8: both hash functions compute their reference definitions in
    unsigned 32-bit arithmetic: [AddUpHash] is the sum of the key bytes
    modulo 2^32, and [JOneAtATimeHash] folds [acc += byte; acc += acc<<10;
    acc ^= acc>>6] over the bytes and finishes with [acc += acc<<3;
    acc ^= acc>>11; acc += acc<<15], every addition and shift taken modulo
    2^32; both results are 32-bit values. *)
Theorem hash_functions_match_reference (pKey : list Z) :
  AddUpHash pKey (Z.of_nat (length pKey)) = Reference.sum_of_bytes pKey /\
  JOneAtATimeHash pKey (Z.of_nat (length pKey)) = Reference.one_at_a_time pKey /\
  0 <= AddUpHash pKey (Z.of_nat (length pKey)) < 2 ^ 32 /\
  0 <= JOneAtATimeHash pKey (Z.of_nat (length pKey)) < 2 ^ 32.
Proof.
  split; [apply AddUpHash_reference|]. split; [apply JOneAtATimeHash_reference|].
  split.
  - rewrite AddUpHash_reference. unfold Reference.sum_of_bytes.
    apply Z.mod_pos_bound. lia.
  - unfold JOneAtATimeHash. cbv zeta. apply wrap32_range.
Qed.

(** ** Observed outcomes *)

Lemma done_result {A : Type} (d : A) (o : outcome A) :
  is_done o = true -> o = Done (result d o).
Proof. destruct o; simpl; intros Hd; try discriminate. reflexivity. Qed.

(** ** Doubling a 32-bit size never returns to the size it started from *)

Lemma pow2_divides_odd_multiple (n : nat) :
  forall m s : Z, Z.odd m = true -> (2 ^ Z.of_nat n | m * s) -> (2 ^ Z.of_nat n | s).
Proof.
  induction n as [|n IH]; intros m s Hm [q Hq].
  - apply Z.divide_1_l.
  - rewrite Nat2Z.inj_succ, Z.pow_succ_r in Hq by lia.
    assert (Hs : Z.even s = true).
    { assert (He : Z.even (m * s) = true)
        by (apply Z.even_spec; exists (q * 2 ^ Z.of_nat n); lia).
      rewrite Z.even_mul in He. rewrite <- Z.negb_odd, Hm in He. exact He. }
    apply Z.even_spec in Hs as [s' ->].
    destruct (IH m s' Hm) as [q' Hq']; [exists q; lia|].
    exists q'. rewrite Nat2Z.inj_succ, Z.pow_succ_r by lia. lia.
Qed.

Lemma wrap32_doubling_moves (s : Z) (j : nat) :
  0 < s < 2 ^ 32 -> (1 <= j)%nat -> wrap32 (s * 2 ^ Z.of_nat j) <> s.
Proof.
  intros Hs Hj Heq. unfold wrap32 in Heq.
  assert (Hdiv : (2 ^ Z.of_nat 32 | (2 ^ Z.of_nat j - 1) * s)).
  { exists ((s * 2 ^ Z.of_nat j) / 2 ^ 32).
    pose proof (Z.div_mod (s * 2 ^ Z.of_nat j) (2 ^ 32)) as Hdm.
    change (Z.of_nat 32) with 32. lia. }
  apply pow2_divides_odd_multiple in Hdiv.
  - change (Z.of_nat 32) with 32 in Hdiv. apply Z.divide_pos_le in Hdiv; lia.
  - apply Z.odd_spec. exists (2 ^ (Z.of_nat j - 1) - 1).
    replace (Z.of_nat j) with (1 + (Z.of_nat j - 1)) at 1 by lia.
    rewrite Z.pow_add_r by lia. lia.
Qed.

(** ** Stored pairs and their keys *)

Section Operations.
Context {TKeyType : Type} `{KeyType TKeyType} {TValueType : Type}.

#[local] Abbreviation Table := (CHashTable TKeyType TValueType).
#[local] Abbreviation Pair := (TKeyValuePair TKeyType TValueType).

Lemma occurrences_absent (l : list Pair) (k : TKeyType) :
  k ∉ key <$> l -> filter (fun p : Pair => key p = k) l = [].
Proof.
  induction l as [|p l IH]; intros Hk; [reflexivity|].
  simpl in Hk. rewrite filter_cons.
  destruct (decide (key p = k)) as [Heq|Hne].
  - exfalso. apply Hk. rewrite Heq. left.
  - apply IH. intros Hin. apply Hk. right. exact Hin.
Qed.

Lemma occurrences_unique (t : Table) (k : TKeyType) :
  wf t -> k ∈ keys t -> occurrences t k = 1%nat.
Proof.
  intros Hwf. pose proof (wf_nodup t Hwf) as Hnd. unfold occurrences, keys in *.
  induction (contents t) as [|p l IH]; intros Hin; [inversion Hin|].
  simpl in Hnd. apply NoDup_cons in Hnd as [Hp Hnd]. rewrite filter_cons.
  destruct (decide (key p = k)) as [Heq|Hne].
  - simpl. rewrite occurrences_absent by (rewrite <- Heq; exact Hp). reflexivity.
  - apply IH; [exact Hnd|]. simpl in Hin.
    apply elem_of_cons in Hin as [Heq|Hin]; [congruence|exact Hin].
Qed.

Lemma set_post_stored (t t' : Table) (k : TKeyType) (v : TValueType) :
  set_post t k v t' -> stored t' k v.
Proof.
  intros [_ _ _ [Hup|Hin]].
  - apply (up_stored _ _ _ _ Hup).
  - unfold stored. rewrite (in_contents _ _ _ _ Hin). left.
Qed.

Lemma stored_key (t : Table) (k : TKeyType) (v : TValueType) :
  stored t k v -> k ∈ keys t.
Proof.
  intros Hst. unfold keys. apply list_elem_of_fmap.
  exists {| key := k; value := v |}. auto.
Qed.

(** Pairs under other keys are not affected by [SetKeyValue]. *)
Lemma set_post_frame (t t' : Table) (k k' : TKeyType) (v v' : TValueType) :
  set_post t k v t' -> k' <> k -> stored t' k' v' <-> stored t k' v'.
Proof.
  intros [_ _ _ [Hup|Hin]] Hne; unfold stored.
  - apply (up_frame _ _ _ _ Hup). simpl. exact Hne.
  - rewrite (in_contents _ _ _ _ Hin). rewrite elem_of_cons. split.
    + intros [Heq|Hst]; [|exact Hst]. inversion Heq. contradiction.
    + intros Hst. right. exact Hst.
Qed.

End Operations.

(** ** Histories of operations *)

Section Histories.
Context {TKeyType : Type} `{KeyType TKeyType} {TValueType : Type}.

#[local] Abbreviation Table := (CHashTable TKeyType TValueType).
#[local] Abbreviation Pair := (TKeyValuePair TKeyType TValueType).

Lemma RemoveKey_cases (t t' : Table) (k : TKeyType) (found : bool) :
  wf t -> RemoveKey t k = Done (t', found) ->
  (found = false /\ t' = t /\ k ∉ keys t) \/
  (found = true /\ removed t k t' /\ k ∈ keys t).
Proof.
  intros Hwf Hrun. destruct (decide (k ∈ keys t)) as [Hin|Hout].
  - right. destruct (RemoveKey_present t k Hwf Hin) as (t1 & Hr1 & Hrm).
    rewrite Hr1 in Hrun. injection Hrun as <- <-. auto.
  - left. rewrite (RemoveKey_absent t k Hwf Hout) in Hrun.
    injection Hrun as <- <-. auto.
Qed.

Lemma step_wf (t t' : Table) : wf t -> step t t' -> wf t'.
Proof.
  intros Hwf Hstep. destruct Hstep as [t k pValue t' v found Hrun|t k v t' Hrun
                                      |t k t' found Hrun|t t' Hrun].
  - apply LookUpKey_same_table in Hrun. subst. exact Hwf.
  - apply (sp_wf _ _ _ _ (SetKeyValue_spec t k v t' Hwf Hrun)).
  - destruct (RemoveKey_cases t t' k found Hwf Hrun) as [(_ & -> & _)|(_ & Hrm & _)].
    + exact Hwf.
    + apply (rm_wf _ _ _ Hrm).
  - rewrite (RemoveAllKeys_spec t Hwf) in Hrun. injection Hrun as <-.
    apply RemoveAllKeys_wf. exact Hwf.
Qed.

Lemma reachable_wf (t : Table) : reachable t -> wf t.
Proof.
  induction 1 as [n h L Hn|t t' _ IH Hstep].
  - apply new_wf. exact Hn.
  - apply (step_wf t t' IH Hstep).
Qed.

(** The size after one completed call. *)
Lemma step_size (t t' : Table) :
  wf t -> step t t' ->
  exists j : nat, m_iSize t' = wrap32 (m_iSize t * 2 ^ Z.of_nat j).
Proof.
  intros Hwf Hstep.
  assert (Hsame : m_iSize t = wrap32 (m_iSize t * 2 ^ Z.of_nat 0)).
  { simpl. rewrite Z.mul_1_r. symmetry. apply wrap32_small.
    pose proof (wf_size t Hwf). lia. }
  destruct Hstep as [t k pValue t' v found Hrun|t k v t' Hrun
                    |t k t' found Hrun|t t' Hrun].
  - apply LookUpKey_same_table in Hrun. subst. exists O. exact Hsame.
  - destruct (sp_effect _ _ _ _ (SetKeyValue_spec t k v t' Hwf Hrun)) as [Hup|Hin].
    + exists O. rewrite (up_size _ _ _ _ Hup). exact Hsame.
    + destruct (in_growth _ _ _ _ Hin) as [(_ & Hs & _)|(_ & (j & _ & Hs) & _)].
      * exists O. rewrite Hs. exact Hsame.
      * exists j. exact Hs.
  - destruct (RemoveKey_cases t t' k found Hwf Hrun) as [(_ & -> & _)|(_ & Hrm & _)].
    + exists O. exact Hsame.
    + exists O. rewrite (rm_size _ _ _ Hrm). exact Hsame.
  - rewrite (RemoveAllKeys_spec t Hwf) in Hrun. injection Hrun as <-.
    exists O. exact Hsame.
Qed.

Lemma steps_size (t t' : Table) :
  wf t -> rtc step t t' ->
  wf t' /\ exists j : nat, m_iSize t' = wrap32 (m_iSize t * 2 ^ Z.of_nat j).
Proof.
  intros Hwf Hsteps. induction Hsteps as [t|t t1 t' Hstep _ IH].
  - split; [exact Hwf|]. exists O. simpl. rewrite Z.mul_1_r. symmetry.
    apply wrap32_small. pose proof (wf_size t Hwf). lia.
  - destruct (step_size t t1 Hwf Hstep) as (j1 & Hj1).
    destruct (IH (step_wf t t1 Hwf Hstep)) as (Hwf' & j2 & Hj2).
    split; [exact Hwf'|]. exists (j1 + j2)%nat.
    rewrite Hj2, Hj1. apply wrap32_doublings.
Qed.

End Histories.

(** ** The load limit as an invariant *)

Section LoadLimit.
Context {TKeyType : Type} `{KeyType TKeyType} {TValueType : Type}.

#[local] Abbreviation Table := (CHashTable TKeyType TValueType).
#[local] Abbreviation Pair := (TKeyValuePair TKeyType TValueType).

Lemma steady_new (n : Z) (h : THashFunction) (L : TFloat32) :
  0 < n < 2 ^ 32 -> (0 <= L)%Q ->
  steady (CHashTable_new (TValueType := TValueType) (TKeyType := TKeyType) n h L).
Proof.
  intros Hn HL. split.
  - apply new_wf. exact Hn.
  - unfold entries. rewrite new_contents. simpl. lia.
  - simpl. apply exceeds_load_nonpositive; [lia|lia|exact HL].
Qed.

Lemma steady_SetKeyValue (t : Table) (k : TKeyType) (v : TValueType) :
  steady t ->
  (1 # 2 <= m_kfMaxLoadFactor t)%Q ->
  m_iSize t * 2 < 2 ^ 32 ->
  m_iNumEntries t + 1 < 2 ^ 32 ->
  exists t', SetKeyValue t k v = Done t' /\ steady t' /\
             (m_iSize t' = m_iSize t \/ m_iSize t' = m_iSize t * 2).
Proof.
  intros [Hwf Hcount Hslack] Hhalf Hsize Hroom.
  pose proof (wf_size t Hwf) as Hs. pose proof (wf_count t Hwf) as Hc.
  assert (Hnext : exceeds_load (m_iNumEntries t) (m_iSize t * 2)
                    (m_kfMaxLoadFactor t) = false)
    by (apply exceeds_load_double; [exact Hhalf|lia|lia|lia|exact Hslack]).
  destruct (decide (k ∈ keys t)) as [Hin|Hout].
  - destruct (SetKeyValue_without_resize t k v Hwf (or_introl Hin))
      as (t' & Hrun & Hpost & Hsz).
    exists t'. split; [exact Hrun|]. split; [|left; exact Hsz].
    destruct (sp_effect _ _ _ _ Hpost) as [Hup|Hi];
      [|exfalso; exact (in_absent _ _ _ _ Hi Hin)].
    split.
    + apply (sp_wf _ _ _ _ Hpost).
    + rewrite (up_count _ _ _ _ Hup). unfold entries.
      rewrite <- (length_fmap key (contents t')). fold (keys t').
      rewrite (up_keys _ _ _ _ Hup). unfold keys. rewrite length_fmap. exact Hcount.
    + rewrite (up_count _ _ _ _ Hup), Hsz, (sp_load _ _ _ _ Hpost). exact Hslack.
  - destruct (exceeds_load (m_iNumEntries t) (m_iSize t) (m_kfMaxLoadFactor t)) eqn:Hload.
    + destruct (SetKeyValue_resize_once t k v Hwf Hout Hload)
        as (t' & Hrun & Hpost & Hsz & Hn).
      * rewrite wrap32_small by lia. lia.
      * lia.
      * intros j Hj. rewrite wrap32_small by lia.
        apply (exceeds_load_mono _ (m_iNumEntries t)); [lia|exact Hnext].
      * rewrite wrap32_small in Hsz by lia.
        exists t'. split; [exact Hrun|]. split; [|right; exact Hsz].
        destruct (sp_effect _ _ _ _ Hpost) as [Hup|Hi];
          [exfalso; exact (Hout (up_present _ _ _ _ Hup))|].
        pose proof (entries_perm t t' _ (in_contents _ _ _ _ Hi)) as He.
        simpl in He. fold (entries t) in He.
        split.
        -- apply (sp_wf _ _ _ _ Hpost).
        -- rewrite Hn, He. lia.
        -- rewrite Hn, Hsz, (sp_load _ _ _ _ Hpost).
           apply (exceeds_load_mono _ (m_iNumEntries t)); [lia|exact Hnext].
    + destruct (SetKeyValue_without_resize t k v Hwf (or_intror Hload))
        as (t' & Hrun & Hpost & Hsz).
      exists t'. split; [exact Hrun|]. split; [|left; exact Hsz].
      destruct (sp_effect _ _ _ _ Hpost) as [Hup|Hi];
        [exfalso; exact (Hout (up_present _ _ _ _ Hup))|].
      pose proof (entries_perm t t' _ (in_contents _ _ _ _ Hi)) as He.
      simpl in He. fold (entries t) in He.
      destruct (in_growth _ _ _ _ Hi) as [(_ & _ & Hn)|(Ht & _)]; [|congruence].
      rewrite wrap32_small in Hn by lia.
      split.
      * apply (sp_wf _ _ _ _ Hpost).
      * rewrite Hn, He. lia.
      * rewrite Hn, Hsz, (sp_load _ _ _ _ Hpost).
        replace (m_iNumEntries t + 1 - 1) with (m_iNumEntries t) by lia. exact Hload.
Qed.

Lemma steady_RemoveKey (t t' : Table) (k : TKeyType) (found : bool) :
  steady t -> RemoveKey t k = Done (t', found) -> steady t'.
Proof.
  intros [Hwf Hcount Hslack] Hrun.
  destruct (RemoveKey_cases t t' k found Hwf Hrun) as [(_ & -> & _)|(_ & Hrm & _)].
  - split; assumption.
  - destruct (rm_contents _ _ _ Hrm) as (v & Hc).
    assert (He : entries t = S (entries t')) by (unfold entries; rewrite Hc; reflexivity).
    pose proof (wf_count t Hwf) as Hn.
    assert (Hn' : m_iNumEntries t' = m_iNumEntries t - 1).
    { rewrite (rm_count _ _ _ Hrm). apply wrap32_small. lia. }
    split.
    + apply (rm_wf _ _ _ Hrm).
    + lia.
    + rewrite Hn', (rm_size _ _ _ Hrm), (rm_load _ _ _ Hrm).
      apply (exceeds_load_mono _ (m_iNumEntries t - 1)); [lia|exact Hslack].
Qed.

Lemma steady_RemoveAllKeys (t t' : Table) :
  steady t -> RemoveAllKeys t = Done t' -> steady t'.
Proof.
  intros [Hwf Hcount Hslack] Hrun.
  rewrite (RemoveAllKeys_spec t Hwf) in Hrun. injection Hrun as <-. split.
  - apply RemoveAllKeys_wf. exact Hwf.
  - unfold entries, contents. simpl. rewrite join_replicate_nil. simpl.
    apply (wf_count t Hwf).
  - exact Hslack.
Qed.

Lemma SetKeyValue_count_bound (t t' : Table) (k : TKeyType) (v : TValueType) :
  steady t -> m_iNumEntries t + 1 < 2 ^ 32 ->
  SetKeyValue t k v = Done t' ->
  m_iNumEntries t' <= m_iNumEntries t + 1 /\
  m_kfMaxLoadFactor t' = m_kfMaxLoadFactor t.
Proof.
  intros [Hwf Hcount _] Hroom Hrun.
  destruct (SetKeyValue_spec t k v t' Hwf Hrun) as [_ _ Hl [Hup|Hin]].
  - split; [|exact Hl]. rewrite (up_count _ _ _ _ Hup). lia.
  - split; [|exact Hl]. pose proof (wf_count t Hwf) as Hc.
    destruct (in_growth _ _ _ _ Hin) as [(_ & _ & Hn)|(_ & _ & Hn)]; rewrite Hn.
    + rewrite wrap32_small by lia. lia.
    + rewrite wrap32_small by lia. lia.
Qed.

End LoadLimit.

(** ** Inserting a sequence of distinct keys *)

Section Sequences.
Context {TKeyType : Type} `{KeyType TKeyType} {TValueType : Type}.

#[local] Abbreviation Table := (CHashTable TKeyType TValueType).
#[local] Abbreviation Pair := (TKeyValuePair TKeyType TValueType).

Lemma insert_all_spec (kvs : list (TKeyType * TValueType)) :
  forall t t' : Table,
    wf t ->
    m_iNumEntries t = Z.of_nat (entries t) ->
    NoDup (keys t ++ kvs.*1) ->
    Z.of_nat (entries t + length kvs) < 2 ^ 32 ->
    insert_all t kvs = Done t' ->
    wf t' /\
    (forall k v, stored t k v \/ (k, v) ∈ kvs -> stored t' k v) /\
    entries t' = (entries t + length kvs)%nat /\
    ((m_iSize t' = m_iSize t /\
      forall i : Z, m_iNumEntries t <= i < m_iNumEntries t + Z.of_nat (length kvs) ->
                    exceeds_load i (m_iSize t) (m_kfMaxLoadFactor t) = false) \/
     (exists j : nat, (1 <= j)%nat /\ m_iSize t' = wrap32 (m_iSize t * 2 ^ Z.of_nat j))).
Proof.
  induction kvs as [|[k v] kvs IH]; intros t t' Hwf Hn Hnd Hsmall Hrun; simpl in Hrun.
  - injection Hrun as <-. split; [exact Hwf|]. split; [|split].
    + intros k v [Hst|Hin]; [exact Hst|inversion Hin].
    + simpl. lia.
    + left. split; [reflexivity|]. simpl. intros i Hi. lia.
  - apply obind_Done in Hrun as (t1 & Hs & Hrun). simpl in Hs.
    pose proof (SetKeyValue_spec t k v t1 Hwf Hs) as Hpost.
    destruct Hpost as [Hwf1 Hh1 Hl1 [Hup|Hin]].
    { exfalso. simpl in Hnd. apply NoDup_app in Hnd as (_ & Hdis & _).
      apply (Hdis k (up_present _ _ _ _ Hup)). left. }
    pose proof (in_contents _ _ _ _ Hin) as Hc1.
    assert (He1 : entries t1 = S (entries t)).
    { rewrite (entries_perm t t1 _ Hc1). reflexivity. }
    simpl in Hsmall.
    assert (Hn1 : m_iNumEntries t1 = Z.of_nat (entries t1)).
    { rewrite He1, Nat2Z.inj_succ. unfold Z.succ.
      destruct (in_growth _ _ _ _ Hin) as [(_ & _ & Hc)|(_ & _ & Hc)]; rewrite Hc.
      - rewrite Hn. apply wrap32_small. lia.
      - apply wrap32_small. lia. }
    destruct (IH t1 t' Hwf1 Hn1) as (Hwf' & Hst' & He' & Hsz'); auto.
    { unfold keys at 1. rewrite Hc1. simpl. simpl in Hnd.
      rewrite <- Permutation_middle in Hnd. exact Hnd. }
    { rewrite He1. lia. }
    split; [exact Hwf'|]. split; [|split].
    + intros k' v' [Hst|Hmem].
      * apply Hst'. left. unfold stored. rewrite Hc1. right. exact Hst.
      * apply elem_of_cons in Hmem as [Heq|Hmem].
        -- injection Heq as -> ->. apply Hst'. left. unfold stored. rewrite Hc1. left.
        -- apply Hst'. right. exact Hmem.
    + rewrite He', He1. simpl. lia.
    + destruct (in_growth _ _ _ _ Hin) as [(Hload & Hs1 & Hc)|(_ & (j & Hj & Hs1) & _)].
      * destruct Hsz' as [(Hs' & Hno)|(j & Hj & Hs')].
        -- left. split; [congruence|]. intros i Hi. simpl in Hi.
           destruct (decide (i = m_iNumEntries t)) as [->|Hne]; [exact Hload|].
           rewrite <- Hs1, <- Hl1. apply Hno. rewrite Hn1, He1. lia.
        -- right. exists j. split; [exact Hj|]. rewrite Hs', Hs1. reflexivity.
      * right. destruct Hsz' as [(Hs' & _)|(j' & _ & Hs')].
        -- exists j. split; [exact Hj|]. congruence.
        -- exists (j + j')%nat. split; [lia|]. rewrite Hs', Hs1.
           apply wrap32_doublings.
Qed.

(** Growth and retrieval for a freshly constructed table. *)
Lemma insert_all_new (n : Z) (h : THashFunction) (L : TFloat32)
    (kvs : list (TKeyType * TValueType)) (t : Table) :
  0 < n < 2 ^ 32 ->
  NoDup kvs.*1 ->
  Z.of_nat (length kvs) < 2 ^ 32 ->
  insert_all (CHashTable_new n h L) kvs = Done t ->
  (kvs <> [] -> exceeds_load (Z.of_nat (length kvs) - 1) n L = true -> m_iSize t <> n) /\
  (m_iSize t = n ->
   forall i : Z, 0 <= i < Z.of_nat (length kvs) -> exceeds_load i n L = false) /\
  (forall k v pValue, (k, v) ∈ kvs -> LookUpKey t k pValue = Done (t, v, true)) /\
  entries t = length kvs.
Proof.
  intros Hn Hnd Hlen Hrun.
  destruct (insert_all_spec kvs (CHashTable_new n h L) t) as (Hwf & Hst & He & Hsz); auto.
  - apply new_wf. exact Hn.
  - unfold entries. rewrite new_contents. reflexivity.
  - unfold keys. rewrite new_contents. simpl. exact Hnd.
  - unfold entries. rewrite new_contents. simpl. exact Hlen.
  - unfold entries at 2 in He. rewrite new_contents in He. simpl in He, Hsz.
    assert (Hcases : m_iSize t = n ->
              forall i : Z, 0 <= i < Z.of_nat (length kvs) -> exceeds_load i n L = false).
    { intros Heq. destruct Hsz as [(_ & Hno)|(j & Hj & Hs)]; [exact Hno|].
      exfalso. apply (wrap32_doubling_moves n j Hn Hj). congruence. }
    split; [|split; [exact Hcases|split; [|exact He]]].
    + intros Hne Hload Heq.
      assert (Hpos : (0 < length kvs)%nat) by (destruct kvs; [contradiction|simpl; lia]).
      rewrite (Hcases Heq) in Hload by lia. discriminate.
    + intros k v pValue Hin. apply LookUpKey_stored; [exact Hwf|]. apply Hst. right. exact Hin.
Qed.

(** For a load factor of at least 1/2 each insertion at most doubles the
    size, so a sequence of insertions completes when the size has room for
    that many doublings. *)
Lemma insert_all_completes (kvs : list (TKeyType * TValueType)) :
  forall t : Table,
    steady t ->
    (1 # 2 <= m_kfMaxLoadFactor t)%Q ->
    m_iSize t * 2 ^ Z.of_nat (length kvs) < 2 ^ 32 ->
    m_iNumEntries t + Z.of_nat (length kvs) < 2 ^ 32 ->
    exists t', insert_all t kvs = Done t' /\ steady t' /\
               m_iSize t <= m_iSize t' <= m_iSize t * 2 ^ Z.of_nat (length kvs).
Proof.
  induction kvs as [|[k v] kvs IH]; intros t Hst Hhalf Hsize Hroom.
  - exists t. simpl. split; [reflexivity|]. split; [exact Hst|]. lia.
  - simpl length in *. rewrite Nat2Z.inj_succ, Z.pow_succ_r in * by lia.
    pose proof (wf_size t (st_wf t Hst)) as Hs.
    assert (Hpow : 0 < 2 ^ Z.of_nat (length kvs)) by (apply Z.pow_pos_nonneg; lia).
    destruct (steady_SetKeyValue t k v Hst Hhalf) as (t1 & Hrun & Hst1 & Hsz1); [nia|lia|].
    destruct (SetKeyValue_count_bound t t1 k v Hst) as (Hn1 & Hl1); [lia|exact Hrun|].
    destruct (IH t1 Hst1) as (t' & Hall & Hst' & Hsz').
    + rewrite Hl1. exact Hhalf.
    + destruct Hsz1 as [-> | ->]; nia.
    + lia.
    + exists t'. split; [simpl; rewrite Hrun; exact Hall|]. split; [exact Hst'|].
      destruct Hsz1 as [Heq|Heq]; rewrite Heq in Hsz'; nia.
Qed.

End Sequences.

(** ** Properties of the operations and of their histories *)

Section Claims.
Context {TKeyType : Type} `{KeyType TKeyType} {TValueType : Type}.

#[local] Abbreviation Table := (CHashTable TKeyType TValueType).
#[local] Abbreviation Pair := (TKeyValuePair TKeyType TValueType).

(** Two insertions into a fresh table whose load limit is below one
    entry: the first completes without a resize, the second doubles the
    size once, in 32-bit arithmetic. *)
Lemma second_insert_doubles (n : Z) (h : THashFunction) (L : TFloat32)
    (k1 k2 : TKeyType) (v1 v2 : TValueType) :
  0 < n < 2 ^ 32 -> k1 <> k2 ->
  exceeds_load 0 n L = false ->
  exceeds_load 1 n L = true ->
  0 < wrap32 (n * 2) ->
  exceeds_load 0 (wrap32 (n * 2)) L = false ->
  exists t1 t2 : Table,
    SetKeyValue (CHashTable_new n h L) k1 v1 = Done t1 /\
    SetKeyValue t1 k2 v2 = Done t2 /\
    m_iSize t1 = n /\ m_iSize t2 = wrap32 (n * 2).
Proof.
  intros Hn Hne H0 H1 Hpos H0'.
  pose proof (new_wf (TKeyType := TKeyType) (TValueType := TValueType) n h L Hn) as Hwf.
  destruct (SetKeyValue_without_resize (CHashTable_new n h L) k1 v1 Hwf)
    as (t1 & Hs1 & Hpost1 & Hsz1); [right; exact H0|].
  destruct Hpost1 as [Hwf1 Hh1 Hl1 [Hup|Hin]].
  { exfalso. pose proof (up_present _ _ _ _ Hup) as Hk. unfold keys in Hk.
    rewrite new_contents in Hk. inversion Hk. }
  pose proof (in_contents _ _ _ _ Hin) as Hc1. rewrite new_contents in Hc1.
  assert (He1 : entries t1 = 1%nat) by (unfold entries; rewrite Hc1; reflexivity).
  assert (Hn1 : m_iNumEntries t1 = 1).
  { destruct (in_growth _ _ _ _ Hin) as [(_ & _ & Hc)|(Ht & _)].
    - exact Hc.
    - simpl in Ht. congruence. }
  simpl in Hsz1, Hl1.
  destruct (SetKeyValue_resize_once t1 k2 v2 Hwf1) as (t2 & Hs2 & _ & Hsz2 & _).
  - unfold keys. rewrite Hc1. simpl. intros Hk.
    apply list_elem_of_singleton in Hk. congruence.
  - rewrite Hn1, Hsz1, Hl1. exact H1.
  - rewrite Hsz1. exact Hpos.
  - rewrite He1. lia.
  - intros j Hj. rewrite He1 in Hj. assert (j = O) by lia. subst j.
    rewrite Hsz1, Hl1. exact H0'.
  - exists t1, t2. rewrite Hsz1 in Hsz2. auto.
Qed.

(** The same two insertions when doubling wraps the size to zero. *)
Lemma second_insert_faults (n : Z) (h : THashFunction) (L : TFloat32)
    (k1 k2 : TKeyType) (v1 v2 : TValueType) :
  0 < n < 2 ^ 32 -> k1 <> k2 ->
  exceeds_load 0 n L = false ->
  exceeds_load 1 n L = true ->
  wrap32 (n * 2) = 0 ->
  exists t1 : Table,
    SetKeyValue (CHashTable_new n h L) k1 v1 = Done t1 /\
    reachable t1 /\
    SetKeyValue t1 k2 v2 = Fault.
Proof.
  intros Hn Hne H0 H1 Hzero.
  pose proof (new_wf (TKeyType := TKeyType) (TValueType := TValueType) n h L Hn) as Hwf.
  destruct (SetKeyValue_without_resize (CHashTable_new n h L) k1 v1 Hwf)
    as (t1 & Hs1 & Hpost1 & Hsz1); [right; exact H0|].
  destruct Hpost1 as [Hwf1 Hh1 Hl1 [Hup|Hin]].
  { exfalso. pose proof (up_present _ _ _ _ Hup) as Hk. unfold keys in Hk.
    rewrite new_contents in Hk. inversion Hk. }
  pose proof (in_contents _ _ _ _ Hin) as Hc1. rewrite new_contents in Hc1.
  assert (Hn1 : m_iNumEntries t1 = 1).
  { destruct (in_growth _ _ _ _ Hin) as [(_ & _ & Hc)|(Ht & _)].
    - exact Hc.
    - simpl in Ht. congruence. }
  simpl in Hsz1, Hl1.
  exists t1. split; [exact Hs1|]. split.
  - apply (reach_step (CHashTable_new n h L) t1).
    + apply reach_new. exact Hn.
    + apply (step_SetKeyValue _ k1 v1). exact Hs1.
  - apply SetKeyValue_overflow; auto.
    + unfold keys. rewrite Hc1. simpl. intros Hk.
      apply list_elem_of_singleton in Hk. congruence.
    + rewrite Hn1, Hsz1, Hl1. exact H1.
    + rewrite Hsz1. exact Hzero.
Qed.



(** C9: [LookUpKey] hands back the very table it was given, so buckets,
    size, entry count, hash function and load factor are as before; when
    the key is not found the result is false and the caller's value slot
    keeps its content; on a well-formed table the call always returns
    normally and finds exactly the stored keys. *)
Theorem LookUpKey_frame (t : Table) (k : TKeyType) (pValue : TValueType) :
  (forall t' v found,
      LookUpKey t k pValue = Done (t', v, found) ->
      t' = t /\
      m_aBuckets t' = m_aBuckets t /\ m_iSize t' = m_iSize t /\
      m_iNumEntries t' = m_iNumEntries t /\
      m_kpfHashFunction t' = m_kpfHashFunction t /\
      m_kfMaxLoadFactor t' = m_kfMaxLoadFactor t /\
      (found = false -> v = pValue)) /\
  (wf t ->
   exists v found, LookUpKey t k pValue = Done (t, v, found) /\
                   (found = true <-> k ∈ keys t)).
Proof.
  split.
  - intros t' v found Hrun.
    pose proof (LookUpKey_same_table t t' k pValue v found Hrun) as ->.
    repeat (split; [reflexivity|]).
    intros ->. unfold LookUpKey in Hrun.
    apply obind_Done in Hrun as (i & _ & Hrun).
    apply obind_Done in Hrun as (it & _ & Hrun).
    apply obind_Done in Hrun as (b & _ & Hrun).
    destruct it as [j|]; [destruct (b !! j)|]; congruence.
  - intros Hwf. apply LookUpKey_total. exact Hwf.
Qed.

(** C6: in every table reached from the constructor through completed
    operations, each stored pair lies in the bucket whose index is the
    hash of its key bytes modulo the current size; and a completed
    [Resize] of such a table yields a table with the same pairs in which
    this placement holds for the new size. *)
Theorem placement_invariant :
  (forall t : Table, reachable t ->
     forall (i : nat) (b : list Pair) (p : Pair),
       m_aBuckets t !! i = Some b -> p ∈ b ->
       Z.of_nat i =
         m_kpfHashFunction t (key_data (key p)) sizeof_key mod m_iSize t) /\
  (forall (t : Table) (n : Z) (t1 : Table),
     reachable t -> 0 < n < 2 ^ 32 -> Resize t n = Done t1 ->
     placed t1 /\ contents t1 ≡ₚ contents t /\
     exists j : nat, m_iSize t1 = wrap32 (n * 2 ^ Z.of_nat j)) /\
  (forall (t : Table) (n : Z),
     reachable t -> 0 <= n < 2 ^ 32 -> Resize t n <> OutOfFuel).
Proof.
  split; [|split].
  - intros t Hr i b p Hb Hp. symmetry.
    apply (wf_placed t (reachable_wf t Hr) i b p Hb Hp).
  - intros t n t1 Hr Hn Hrun.
    destruct (Resize_spec t n t1 (reachable_wf t Hr) Hn Hrun) as [Hwf1 _ _ Hc _ Hj].
    split; [apply (wf_placed t1 Hwf1)|]. split; assumption.
  - intros t n Hr Hn. apply Resize_terminates; [apply reachable_wf; exact Hr|exact Hn].
Qed.


(** X18. A table constructed with a positive size and used through
    completed operations, with at most 2^31 buckets: the size is positive
    and the bucket array has as many buckets as the size; [FindBucket]
    divides by a positive size and returns an index below it, at which
    the array has a bucket; [LookUpKey], [RemoveKey], [RemoveAllKeys] and
    a [SetKeyValue] that does not resize return normally and keep the
    size. With at most 2^30 buckets, a load factor of at least 1/2 and a
    steady table whose entry count does not overflow, [SetKeyValue]
    returns normally also when it resizes, and the table it returns is
    steady and has between 1 and 2^31 buckets. *)
Theorem accesses_in_bounds (t : Table) :
  reachable t ->
  m_iSize t <= 2 ^ 31 ->
  0 < m_iSize t /\
  length (m_aBuckets t) = Z.to_nat (m_iSize t) /\
  (forall k, exists i b,
      FindBucket t k = Done i /\ 0 <= i < m_iSize t /\ bucket_at t i = Done b) /\
  (forall k pValue, exists v found, LookUpKey t k pValue = Done (t, v, found)) /\
  (forall k, exists t' found,
      RemoveKey t k = Done (t', found) /\ m_iSize t' = m_iSize t) /\
  (exists t', RemoveAllKeys t = Done t' /\ m_iSize t' = m_iSize t) /\
  (forall k v,
      k ∈ keys t \/
        exceeds_load (m_iNumEntries t) (m_iSize t) (m_kfMaxLoadFactor t) = false ->
      exists t', SetKeyValue t k v = Done t' /\ m_iSize t' = m_iSize t) /\
  (forall k v,
      steady t -> (1 # 2 <= m_kfMaxLoadFactor t)%Q ->
      m_iSize t <= 2 ^ 30 -> m_iNumEntries t + 1 < 2 ^ 32 ->
      exists t', SetKeyValue t k v = Done t' /\ steady t' /\ reachable t' /\
                 0 < m_iSize t' <= 2 ^ 31).
Proof.
  intros Hr Hbound. pose proof (reachable_wf t Hr) as Hwf.
  split; [apply (wf_size t Hwf)|]. split; [apply (wf_length t Hwf)|].
  split; [|split; [|split; [|split; [|split]]]].
  - intros k. destruct (home_bucket t k Hwf) as (b & Hf & Hb & _).
    destruct (FindBucket_wf t k (proj1 (wf_size t Hwf))) as [_ Hi]. eauto.
  - intros k pValue.
    destruct (LookUpKey_total t k pValue Hwf) as (v & found & Hrun & _). eauto.
  - intros k. destruct (decide (k ∈ keys t)) as [Hin|Hout].
    + destruct (RemoveKey_present t k Hwf Hin) as (t' & Hrun & Hrm).
      exists t', true. split; [exact Hrun|]. apply (rm_size _ _ _ Hrm).
    + exists t, false. split; [apply RemoveKey_absent; assumption|reflexivity].
  - eexists. split; [apply RemoveAllKeys_spec; exact Hwf|]. reflexivity.
  - intros k v Hcase.
    destruct (SetKeyValue_without_resize t k v Hwf Hcase) as (t' & Hrun & _ & Hsz). eauto.
  - intros k v Hst Hhalf Hsize Hroom.
    destruct (steady_SetKeyValue t k v Hst Hhalf ltac:(lia) Hroom)
      as (t' & Hrun & Hst' & Hsz).
    exists t'. split; [exact Hrun|]. split; [exact Hst'|].
    split; [apply (reach_step t t' Hr), (step_SetKeyValue t k v t' Hrun)|].
    pose proof (wf_size t Hwf). lia.
Qed.

(** C4, amended: when [SetKeyValue] inserts a key that is not yet stored,
    the load test uses the entry count held before the insertion; without
    a resize the size stays and the count grows by one; with a resize the
    size is doubled (once or more, modulo 2^32) and the old pairs are
    recounted before the new pair is placed; in both cases the new pair is
    the last pair of the bucket selected by its hash modulo the final
    size. For a load factor of at least 1/2, and as long as neither the
    size doubling nor the entry count overflows 32 bits, every operation
    keeps the entry count within one insertion of the limit: the load
    test of the source, evaluated in single precision, fails for one
    entry less. *)
Theorem load_check_before_insertion :
  (forall (t : Table) k v t',
      wf t -> k ∉ keys t -> SetKeyValue t k v = Done t' ->
      (exceeds_load (m_iNumEntries t) (m_iSize t) (m_kfMaxLoadFactor t) = false ->
       m_iSize t' = m_iSize t /\ m_iNumEntries t' = wrap32 (m_iNumEntries t + 1)) /\
      (exceeds_load (m_iNumEntries t) (m_iSize t) (m_kfMaxLoadFactor t) = true ->
       (exists j : nat, (1 <= j)%nat /\
                        m_iSize t' = wrap32 (m_iSize t * 2 ^ Z.of_nat j)) /\
       m_iNumEntries t' = wrap32 (Z.of_nat (entries t) + 1)) /\
      contents t' ≡ₚ {| key := k; value := v |} :: contents t /\
      exists b : list Pair,
        m_aBuckets t' !! Z.to_nat (hash_of t' k mod m_iSize t') =
          Some (b ++ [{| key := k; value := v |}])) /\
  (forall n h L, 0 < n < 2 ^ 32 -> (0 <= L)%Q ->
                 steady (CHashTable_new (TValueType := TValueType)
                           (TKeyType := TKeyType) n h L)) /\
  (forall t : Table,
      steady t -> (1 # 2 <= m_kfMaxLoadFactor t)%Q ->
      (forall k v, m_iSize t * 2 < 2 ^ 32 -> m_iNumEntries t + 1 < 2 ^ 32 ->
                   exists t', SetKeyValue t k v = Done t' /\ steady t') /\
      (forall k t' found, RemoveKey t k = Done (t', found) -> steady t') /\
      (forall t', RemoveAllKeys t = Done t' -> steady t') /\
      (forall k pValue t' v found,
          LookUpKey t k pValue = Done (t', v, found) -> steady t')).
Proof.
  split; [|split].
  - intros t k v t' Hwf Hout Hrun.
    destruct (sp_effect _ _ _ _ (SetKeyValue_spec t k v t' Hwf Hrun)) as [Hup|Hin].
    { exfalso. exact (Hout (up_present _ _ _ _ Hup)). }
    split; [|split; [|split]].
    + intros Hload.
      destruct (in_growth _ _ _ _ Hin) as [(_ & Hs & Hn)|(Ht & _)]; [auto|congruence].
    + intros Hload.
      destruct (in_growth _ _ _ _ Hin) as [(Hf & _)|(_ & Hj & Hn)]; [congruence|auto].
    + apply (in_contents _ _ _ _ Hin).
    + apply (in_home _ _ _ _ Hin).
  - intros n h L Hn HL. apply steady_new; assumption.
  - intros t Hst Hhalf. split; [|split; [|split]].
    + intros k v Hsize Hroom.
      destruct (steady_SetKeyValue t k v Hst Hhalf Hsize Hroom) as (t' & Hrun & Hst' & _).
      eauto.
    + intros k t' found Hrun. apply (steady_RemoveKey t t' k found Hst Hrun).
    + intros t' Hrun. apply (steady_RemoveAllKeys t t' Hst Hrun).
    + intros k pValue t' v found Hrun.
      apply LookUpKey_same_table in Hrun. subst. exact Hst.
Qed.

End Claims.

(** ** The concrete scenario *)

Lemma scenario_sizes (L : TFloat32) :
  L = default_MaxLoadFactor \/ L = (7 # 10)%Q ->
  (t <~ scenario L 3 ;; Done (shape t)) = Done (4, 3, 3%nat) /\
  (t <~ scenario L 4 ;; Done (shape t)) = Done (8, 4, 4%nat) /\
  (t <~ scenario L 6 ;; Done (shape t)) = Done (8, 6, 6%nat) /\
  (t <~ scenario L 7 ;; Done (shape t)) = Done (16, 7, 7%nat) /\
  (t <~ scenario L 10 ;; Done (shape t)) = Done (16, 10, 10%nat).
Proof. intros [-> | ->]; repeat split; vm_compute; reflexivity. Qed.

Lemma scenario_queries (L : TFloat32) :
  L = default_MaxLoadFactor \/ L = (7 # 10)%Q ->
  (t <~ scenario L 10 ;; looked_up (LookUpKey t 7 0)) = Done (70, true) /\
  (t <~ scenario L 10 ;;
   r1 <~ RemoveKey t 3 ;;
   r2 <~ RemoveKey r1.1 3 ;;
   Done (r1.2, r2.2, shape r2.1)) = Done (true, false, (16, 9, 9%nat)).
Proof. intros [-> | ->]; split; vm_compute; reflexivity. Qed.



(** The load test is the one of the machine. With 10 buckets the product
    10 * 0.7f is rounded to 7, so the eighth key is inserted without a
    resize although 7 exceeds the exact product; with 2^26 buckets the
    count 46976205 is converted to 46976204, the exact product, and does
    not exceed it. *)
Lemma load_test_in_single_precision :
  exceeds_load 7 10 default_MaxLoadFactor = false /\
  10 * 11744051 < 7 * 16777216 /\
  (t <~ insert_all (uid_table 10 default_MaxLoadFactor) (first_keys 8) ;;
   Done (shape t)) = Done (10, 8, 8%nat) /\
  exceeds_load 8 10 default_MaxLoadFactor = true /\
  exceeds_load 46976205 (2 ^ 26) default_MaxLoadFactor = false /\
  2 ^ 26 * 11744051 < 46976205 * 16777216 /\
  exceeds_load 46976206 (2 ^ 26) default_MaxLoadFactor = true.
Proof. repeat split; vm_compute; reflexivity. Qed.

(** C2: [RemoveAllKeys] does not reset [m_iNumEntries]. After keys 1, 2, 3
    were inserted into a table of size 4 with load factor 0.7 and then
    cleared, no pair is stored but the entry count is still 3, and the next
    insertion doubles the size to 8, where a freshly constructed table of
    size 4 keeps its size. *)
Theorem RemoveAllKeys_keeps_entry_count :
  (t <~ scenario default_MaxLoadFactor 3 ;;
   c <~ RemoveAllKeys t ;;
   t' <~ SetKeyValue c 1 10 ;;
   Done (shape c, shape t')) = Done ((4, 3, 0%nat), (8, 1, 1%nat)) /\
  (t' <~ SetKeyValue (uid_table 4 default_MaxLoadFactor) 1 10 ;; Done (shape t')) =
    Done (4, 1, 1%nat).
Proof. split; vm_compute; reflexivity. Qed.

(** C4 as stated fails for small load factors: with S = 4 and L = 1/16,
    after two insertions the size is 8 and the entry count 2, so even one
    insertion less (1 entry) exceeds 8/16. *)
Lemma slack_exceeded_for_small_load_factor :
  (t <~ insert_all (uid_table 4 (1 # 16)%Q) (first_keys 2) ;;
   Done (shape t,
         exceeds_load (m_iNumEntries t - 1) (m_iSize t) (m_kfMaxLoadFactor t))) =
  Done ((8, 2, 2%nat), true).
Proof. vm_compute. reflexivity. Qed.

(** C7: the size can decrease, against the comments of the source (the
    table is doubled in size, it is never resized downwards, it is never
    decreased in size). [SetKeyValue] computes the new size [m_iSize * 2]
    in 32 bits: a table constructed with 3 * 2^30 buckets and load factor
    0 holds one key, and inserting a second key resizes it to
    3 * 2^31 - 2^32 = 2^31 buckets. Keys 1 and 2 hash to the buckets
    10338022 and 248092841 of the large table. *)
Theorem size_decreases_on_overflow :
  exists t1 t2 : CHashTable Z Z,
    SetKeyValue (uid_table 3221225472 0%Q) 1 10 = Done t1 /\
    SetKeyValue t1 2 20 = Done t2 /\
    m_iSize t1 = 3221225472 /\
    m_iSize t2 = 2147483648.
Proof.
  destruct (second_insert_doubles (TValueType := Z) 3221225472 JOneAtATimeHash 0%Q 1 2 10 20)
    as (t1 & t2 & H1 & H2 & Hs1 & Hs2).
  - lia.
  - discriminate.
  - reflexivity.
  - reflexivity.
  - reflexivity.
  - reflexivity.
  - exists t1, t2. split; [exact H1|]. split; [exact H2|]. split; [exact Hs1|].
    rewrite Hs2. reflexivity.
Qed.

(** C10: a table constructed with a positive size can reach size 0 and
    divide by zero. [SetKeyValue] computes the new size [m_iSize * 2] in
    32 bits without a check: a table constructed with 2^31 buckets and
    load factor 0 holds one key; inserting a second key resizes it to
    2^32 - 2^32 = 0 buckets, and the [FindBucket] that follows reduces
    the hash modulo 0. *)
Theorem division_by_zero_on_overflow :
  exists t1 : CHashTable Z Z,
    SetKeyValue (uid_table 2147483648 0%Q) 1 10 = Done t1 /\
    reachable t1 /\
    SetKeyValue t1 2 20 = Fault.
Proof.
  apply (second_insert_faults (TValueType := Z) 2147483648 JOneAtATimeHash 0%Q 1 2 10 20).
  - lia.
  - discriminate.
  - reflexivity.
  - reflexivity.
  - reflexivity.
Qed.

(** ** The theorems at concrete tables *)



Lemma lookup_miss_keeps_slot :
  LookUpKey fresh 1 99 = Done (fresh, 99, false) /\
  (fresh = fresh /\
   m_aBuckets fresh = m_aBuckets fresh /\ m_iSize fresh = m_iSize fresh /\
   m_iNumEntries fresh = m_iNumEntries fresh /\
   m_kpfHashFunction fresh = m_kpfHashFunction fresh /\
   m_kfMaxLoadFactor fresh = m_kfMaxLoadFactor fresh /\
   (false = false -> 99 = 99)).
Proof.
  assert (Hrun : LookUpKey fresh 1 99 = Done (fresh, 99, false)).
  { apply LookUpKey_absent; [apply new_wf; lia|].
    unfold keys, fresh, uid_table. rewrite new_contents. simpl. intros Hin. inversion Hin. }
  split; [exact Hrun|].
  exact (proj1 (LookUpKey_frame fresh 1 99) fresh 99 false Hrun).
Defined.

Lemma placement_in_one_entry :
  reachable one_entry /\
  m_aBuckets one_entry !! 2%nat = Some [{| key := 1; value := 10 |}] /\
  Z.of_nat 2 =
    m_kpfHashFunction one_entry (key_data (key {| key := 1; value := 10 |})) sizeof_key
      mod m_iSize one_entry.
Proof.
  assert (Hrun : SetKeyValue fresh 1 10 = Done one_entry)
    by (apply done_result; vm_compute; reflexivity).
  assert (Hr : reachable one_entry).
  { apply (reach_step fresh one_entry).
    - apply reach_new. lia.
    - apply (step_SetKeyValue fresh 1 10 one_entry Hrun). }
  assert (Hb : m_aBuckets one_entry !! 2%nat = Some [{| key := 1; value := 10 |}])
    by (vm_compute; reflexivity).
  split; [exact Hr|]. split; [exact Hb|].
  apply (proj1 placement_invariant one_entry Hr 2%nat _ _ Hb). left.
Defined.


Lemma accesses_of_one_entry :
  reachable one_entry /\
  m_iSize one_entry <= 2 ^ 31 /\
  0 < m_iSize one_entry /\
  length (m_aBuckets one_entry) = Z.to_nat (m_iSize one_entry) /\
  (forall k, exists i b,
      FindBucket one_entry k = Done i /\ 0 <= i < m_iSize one_entry /\
      bucket_at one_entry i = Done b).
Proof.
  assert (Hrun : SetKeyValue fresh 1 10 = Done one_entry)
    by (apply done_result; vm_compute; reflexivity).
  assert (Hr : reachable one_entry).
  { apply (reach_step fresh one_entry).
    - apply reach_new. lia.
    - apply (step_SetKeyValue fresh 1 10 one_entry Hrun). }
  assert (Hsize : m_iSize one_entry <= 2 ^ 31)
    by (replace (m_iSize one_entry) with 4 by (vm_compute; reflexivity); lia).
  split; [exact Hr|]. split; [exact Hsize|].
  destruct (accesses_in_bounds one_entry Hr Hsize) as (Hs & Hl & Hf & _).
  split; [exact Hs|]. split; [exact Hl|exact Hf].
Defined.

Lemma load_check_on_fresh_table :
  wf fresh /\
  (1 ∉ keys fresh) /\
  SetKeyValue fresh 1 10 = Done one_entry /\
  exceeds_load (m_iNumEntries fresh) (m_iSize fresh) (m_kfMaxLoadFactor fresh) = false /\
  m_iSize one_entry = m_iSize fresh /\
  m_iNumEntries one_entry = wrap32 (m_iNumEntries fresh + 1) /\
  steady fresh /\
  (1 # 2 <= m_kfMaxLoadFactor fresh)%Q /\
  exists t', SetKeyValue fresh 2 20 = Done t' /\ steady t'.
Proof.
  assert (Hwf : wf fresh) by (apply new_wf; lia).
  assert (Hout : 1 ∉ keys fresh).
  { unfold keys, fresh, uid_table. rewrite new_contents. simpl. intros Hin. inversion Hin. }
  assert (Hrun : SetKeyValue fresh 1 10 = Done one_entry)
    by (apply done_result; vm_compute; reflexivity).
  assert (Hload : exceeds_load (m_iNumEntries fresh) (m_iSize fresh)
                    (m_kfMaxLoadFactor fresh) = false) by (vm_compute; reflexivity).
  assert (Hhalf : (1 # 2 <= m_kfMaxLoadFactor fresh)%Q)
    by (apply at_least_half; vm_compute; discriminate).
  destruct (load_check_before_insertion (TKeyType := Z) (TValueType := Z))
    as (Horder & Hnew & Hkeep).
  destruct (Horder fresh 1 10 one_entry Hwf Hout Hrun) as (Hno & _).
  destruct (Hno Hload) as (Hs & Hn).
  assert (Hst : steady fresh).
  { apply (Hnew 4 JOneAtATimeHash default_MaxLoadFactor); [lia|].
    apply nonnegative_load. vm_compute. discriminate. }
  destruct (Hkeep fresh Hst Hhalf) as (Hset & _).
  split; [exact Hwf|]. split; [exact Hout|]. split; [exact Hrun|].
  split; [exact Hload|]. split; [exact Hs|]. split; [exact Hn|].
  split; [exact Hst|]. split; [exact Hhalf|].
  apply (Hset 2 20); vm_compute; reflexivity.
Defined.


(** ** The bucket statistics of [OutputDistribution] *)

Section DistributionFacts.
Context {TKeyType : Type} `{KeyType TKeyType} {TValueType : Type}.

#[local] Abbreviation Table := (CHashTable TKeyType TValueType).
#[local] Abbreviation Pair := (TKeyValuePair TKeyType TValueType).

(** The size of a bucket as the loop reads it. *)
#[local] Abbreviation collisions :=
  (fun b : list Pair => wrap32 (Z.of_nat (length b))).

Lemma count_from_fold (t : Table) (n : nat) :
  forall (i : nat) (d : TDistribution),
    length (m_aBuckets t) = Z.to_nat (m_iSize t) ->
    m_iSize t < 2 ^ 32 ->
    (i + n <= length (m_aBuckets t))%nat ->
    count_from t n (Z.of_nat i) d =
    Done (fold_left count_bucket (collisions <$> take n (drop i (m_aBuckets t))) d).
Proof.
  induction n as [|n IH]; intros i d Hlen Hs Hin; simpl.
  - reflexivity.
  - destruct (bucket_at_wf t (Z.of_nat i) Hlen) as (b & Hb & Hl); [lia|].
    rewrite Hb. simpl. rewrite Nat2Z.id in Hl.
    rewrite (drop_S _ _ _ Hl). simpl.
    replace (wrap32 (Z.of_nat i + 1)) with (Z.of_nat (S i))
      by (rewrite wrap32_small; lia).
    rewrite IH by (auto; lia). reflexivity.
Qed.

Lemma marks_fold (sizes : list Z) :
  forall d, marks (fold_left count_bucket sizes d) =
            marks d ++ (collision_mark <$> sizes).
Proof.
  induction sizes as [|s sizes IH]; intros d; simpl.
  - rewrite app_nil_r. reflexivity.
  - rewrite IH. simpl. rewrite <- app_assoc. reflexivity.
Qed.

Lemma average_fold (sizes : list Z) :
  Forall (fun s => 0 <= s) sizes ->
  forall d, wrap32 (iAverageBucketSize (fold_left count_bucket sizes d)) =
            wrap32 (iAverageBucketSize d + foldr Z.add 0 sizes).
Proof.
  induction 1 as [|s sizes Hs _ IH]; intros d; simpl.
  - rewrite Z.add_0_r. reflexivity.
  - rewrite IH. simpl. destruct (0 <? s) eqn:Hp.
    + rewrite wrap32_add_l. f_equal. lia.
    + apply Z.ltb_ge in Hp. f_equal. lia.
Qed.

Lemma average_range (sizes : list Z) :
  forall d, 0 <= iAverageBucketSize d < 2 ^ 32 ->
            0 <= iAverageBucketSize (fold_left count_bucket sizes d) < 2 ^ 32.
Proof.
  induction sizes as [|s sizes IH]; intros d Hd; simpl; [exact Hd|].
  apply IH. simpl. destruct (0 <? s); [apply wrap32_range|exact Hd].
Qed.

Lemma used_fold (sizes : list Z) :
  forall d, 0 <= iUsedBuckets d ->
            iUsedBuckets d + Z.of_nat (length sizes) < 2 ^ 32 ->
            iUsedBuckets (fold_left count_bucket sizes d) =
            iUsedBuckets d + Z.of_nat (length (filter (fun s => 0 < s) sizes)).
Proof.
  induction sizes as [|s sizes IH]; intros d H0 Hb.
  - simpl. lia.
  - cbn [fold_left]. cbn [length] in Hb.
    destruct (0 <? s) eqn:Hp.
    + apply Z.ltb_lt in Hp. rewrite filter_cons_True by exact Hp.
      rewrite IH; unfold count_bucket; cbn [iUsedBuckets]; rewrite (proj2 (Z.ltb_lt 0 s) Hp).
      * rewrite wrap32_small by lia. cbn [length]. lia.
      * apply wrap32_range.
      * rewrite wrap32_small by lia. lia.
    + apply Z.ltb_ge in Hp. rewrite filter_cons_False by lia.
      rewrite IH; unfold count_bucket; cbn [iUsedBuckets];
        rewrite (proj2 (Z.ltb_ge 0 s) Hp); lia.
Qed.

Lemma collisions_sum (bs : list (list Pair)) :
  wrap32 (foldr Z.add 0 (collisions <$> bs)) = wrap32 (Z.of_nat (length (mjoin bs))).
Proof.
  induction bs as [|b bs IH]; [reflexivity|].
  change (mjoin (b :: bs)) with (b ++ mjoin bs).
  cbn [fmap list_fmap foldr]. rewrite length_app, Nat2Z.inj_add.
  rewrite wrap32_add_l.
  unfold wrap32 in *.
  rewrite <- (Z.add_mod_idemp_r (Z.of_nat (length b))), IH by lia.
  rewrite Z.add_mod_idemp_r by lia. reflexivity.
Qed.

Lemma collisions_filter (bs : list (list Pair)) :
  length (filter (fun s => 0 < s) (collisions <$> bs)) =
  length (filter (fun b : list Pair => 0 < collisions b) bs).
Proof.
  induction bs as [|b bs IH]; [reflexivity|].
  cbn [fmap list_fmap].
  destruct (decide (0 < collisions b)) as [Hp|Hp].
  - rewrite !filter_cons_True by exact Hp. cbn [length]. f_equal. exact IH.
  - rewrite !filter_cons_False by exact Hp. exact IH.
Qed.

Lemma collisions_small (bs : list (list Pair)) :
  Z.of_nat (length (mjoin bs)) < 2 ^ 32 ->
  filter (fun b : list Pair => 0 < collisions b) bs =
  filter (fun b : list Pair => (0 < length b)%nat) bs.
Proof.
  induction bs as [|b bs IH]; intros Hlen; [reflexivity|].
  change (mjoin (b :: bs)) with (b ++ mjoin bs) in Hlen.
  rewrite length_app in Hlen.
  assert (Hb : wrap32 (Z.of_nat (length b)) = Z.of_nat (length b))
    by (apply wrap32_small; lia).
  destruct (decide (0 < length b)%nat) as [Hp|Hp].
  - rewrite !filter_cons_True by (cbv beta; rewrite ?Hb; lia). f_equal. apply IH. lia.
  - rewrite !filter_cons_False by (cbv beta; rewrite ?Hb; lia). apply IH. lia.
Qed.

Lemma used_buckets_bounds (bs : list (list Pair)) :
  let used := length (filter (fun b : list Pair => (0 < length b)%nat) bs) in
  (used <= length (mjoin bs))%nat /\ (used <= length bs)%nat /\
  (used = 0%nat <-> mjoin bs = []).
Proof.
  induction bs as [|b bs IH]; cbn zeta in *.
  - simpl. split; [lia|]. split; [lia|]. split; reflexivity.
  - destruct IH as (IH1 & IH2 & IH3).
    change (mjoin (b :: bs)) with (b ++ mjoin bs). rewrite length_app.
    destruct (decide (0 < length b)%nat) as [Hp|Hp].
    + rewrite filter_cons_True by exact Hp. cbn [length].
      split; [lia|]. split; [lia|]. split; [lia|].
      intros Hnil. apply app_eq_nil in Hnil as [-> _]. simpl in Hp. lia.
    + rewrite filter_cons_False by exact Hp. cbn [length].
      assert (b = []) as -> by (destruct b; [reflexivity|simpl in Hp; lia]).
      simpl. split; [lia|]. split; [lia|]. exact IH3.
Qed.

(** The loop in closed form. *)
Lemma OutputDistribution_spec (t : Table) :
  length (m_aBuckets t) = Z.to_nat (m_iSize t) ->
  m_iSize t < 2 ^ 32 ->
  exists d, OutputDistribution t = Done d /\
            marks d = (fun b => collision_mark (collisions b)) <$> m_aBuckets t /\
            iAverageBucketSize d = wrap32 (Z.of_nat (entries t)) /\
            iUsedBuckets d =
              Z.of_nat (length (filter (fun b : list Pair => 0 < collisions b)
                                  (m_aBuckets t))).
Proof.
  intros Hlen Hs. unfold OutputDistribution.
  change 0 with (Z.of_nat 0) at 1.
  rewrite count_from_fold by (auto; lia).
  rewrite drop_0, <- Hlen, firstn_all.
  eexists. split; [reflexivity|].
  split; [|split].
  - rewrite marks_fold. cbn [marks app]. rewrite <- list_fmap_compose. reflexivity.
  - rewrite <- (wrap32_small (iAverageBucketSize _))
      by (apply average_range; simpl; lia).
    rewrite average_fold.
    + cbn [iAverageBucketSize]. rewrite Z.add_0_l, collisions_sum. reflexivity.
    + apply Forall_fmap, Forall_forall. intros b _. simpl. apply wrap32_range.
  - rewrite used_fold.
    + cbn [iUsedBuckets]. rewrite Z.add_0_l, collisions_filter. reflexivity.
    + cbn [iUsedBuckets]. lia.
    + cbn [iUsedBuckets]. rewrite length_fmap. lia.
Qed.

(** X1. [OutputDistribution] on a well-formed table returns normally; it
    prints one character per bucket, the digit of the bucket's size or
    ['+'] from ten pairs on; [iAverageBucketSize] ends as the number of
    stored pairs (modulo 2^32) and [iUsedBuckets] as the number of
    non-empty buckets, which is at most the number of pairs and at most
    [m_iSize], and is zero exactly when no pair is stored. *)
Theorem OutputDistribution_counts (t : Table) :
  wf t ->
  exists d, OutputDistribution t = Done d /\
    length (marks d) = Z.to_nat (m_iSize t) /\
    (forall (i : nat) (b : list Pair),
        m_aBuckets t !! i = Some b ->
        marks d !! i = Some (collision_mark (Z.of_nat (length b) mod 2 ^ 32))) /\
    iAverageBucketSize d = Z.of_nat (entries t) mod 2 ^ 32 /\
    (Z.of_nat (entries t) < 2 ^ 32 ->
     iAverageBucketSize d = Z.of_nat (entries t) /\
     iUsedBuckets d =
       Z.of_nat (length (filter (fun b : list Pair => (0 < length b)%nat)
                           (m_aBuckets t))) /\
     iUsedBuckets d <= iAverageBucketSize d /\
     iUsedBuckets d <= m_iSize t /\
     (iUsedBuckets d = 0 <-> contents t = [])).
Proof.
  intros Hwf.
  destruct (OutputDistribution_spec t (wf_length t Hwf)) as (d & Hrun & Hm & Ha & Hu);
    [apply (wf_size t Hwf)|].
  exists d. split; [exact Hrun|].
  split; [rewrite Hm, length_fmap; apply (wf_length t Hwf)|].
  split.
  { intros i b Hb. rewrite Hm, list_lookup_fmap, Hb. reflexivity. }
  split; [exact Ha|].
  intros Hsmall.
  pose proof (used_buckets_bounds (m_aBuckets t)) as (Hb1 & Hb2 & Hb3).
  rewrite collisions_small in Hu by exact Hsmall.
  rewrite Ha, wrap32_small by (split; [lia|exact Hsmall]).
  split; [reflexivity|]. split; [exact Hu|].
  rewrite Hu. unfold entries, contents.
  pose proof (wf_size t Hwf) as Hsize.
  split; [lia|]. split; [rewrite (wf_length t Hwf) in Hb2; lia|].
  unfold contents. rewrite <- Hb3. lia.
Qed.

End DistributionFacts.

(** [OutputDistribution] of a table without pairs. *)
Lemma OutputDistribution_empty {TKeyType : Type} `{KeyType TKeyType} {TValueType : Type}
    (t : CHashTable TKeyType TValueType) :
  0 <= m_iSize t < 2 ^ 32 ->
  m_aBuckets t = replicate (Z.to_nat (m_iSize t)) [] ->
  OutputDistribution t =
    Done {| marks := replicate (Z.to_nat (m_iSize t)) "0"%char;
            iAverageBucketSize := 0;
            iUsedBuckets := 0 |}.
Proof.
  intros Hs Hb.
  destruct (OutputDistribution_spec t) as (d & Hrun & Hm & Ha & Hu).
  { rewrite Hb, length_replicate. reflexivity. }
  { lia. }
  rewrite Hrun. f_equal. destruct d as [ms avg used]. simpl in *.
  assert (Hcontents : contents t = [])
    by (unfold contents; rewrite Hb; apply join_replicate_nil).
  assert (Hentries : entries t = 0%nat) by (unfold entries; rewrite Hcontents; reflexivity).
  rewrite Hentries in Ha.
  rewrite collisions_small in Hu by (fold (contents t); rewrite Hcontents; simpl; lia).
  pose proof (used_buckets_bounds (m_aBuckets t)) as (_ & _ & Hzero).
  apply proj2 in Hzero. fold (contents t) in Hzero. rewrite (Hzero Hcontents) in Hu.
  rewrite Hb, fmap_replicate in Hm.
  subst. reflexivity.
Qed.

Section ClearedDistribution.
Context {TKeyType : Type} `{KeyType TKeyType} {TValueType : Type}.

#[local] Abbreviation Table := (CHashTable TKeyType TValueType).

(** X2. For a newly constructed table and for the table that
    [RemoveAllKeys] leaves behind, [OutputDistribution] prints ['0'] for
    every bucket and ends with both counters at zero, the divisor of the
    printed average included; after [RemoveAllKeys] this holds although
    [m_iNumEntries] still has its previous value. *)
Theorem OutputDistribution_of_cleared_table :
  (forall (n : Z) (h : THashFunction) (L : TFloat32),
      0 <= n < 2 ^ 32 ->
      OutputDistribution (CHashTable_new n h L : Table) =
        Done {| marks := replicate (Z.to_nat n) "0"%char;
                iAverageBucketSize := 0;
                iUsedBuckets := 0 |}) /\
  (forall t : Table,
      wf t ->
      exists t', RemoveAllKeys t = Done t' /\
                 m_iNumEntries t' = m_iNumEntries t /\
                 OutputDistribution t' =
                   Done {| marks := replicate (Z.to_nat (m_iSize t)) "0"%char;
                           iAverageBucketSize := 0;
                           iUsedBuckets := 0 |}).
Proof.
  split.
  - intros n h L Hn. apply (OutputDistribution_empty (CHashTable_new n h L)); [exact Hn|].
    reflexivity.
  - intros t Hwf. eexists. split; [apply RemoveAllKeys_spec, Hwf|].
    split; [reflexivity|].
    pose proof (wf_size t Hwf).
    apply (OutputDistribution_empty (with_buckets t _)); [simpl; lia|reflexivity].
Qed.

End ClearedDistribution.

(** ** The entity manager *)

Section ListFacts.
Context {A : Type}.

Lemma removelast_snoc (l : list A) (x : A) : removelast (l ++ [x]) = l.
Proof. apply removelast_last. Qed.

Lemma last_lookup_Some (l : list A) (i : nat) (o : A) :
  l !! i = Some o -> exists l' lst, l = l' ++ [lst] /\ (i <= length l')%nat.
Proof.
  intros Hi. destruct (last l) as [lst|] eqn:Hlast.
  - apply last_Some in Hlast as [l' ->]. exists l', lst. split; [reflexivity|].
    apply lookup_lt_Some in Hi. rewrite length_app in Hi. simpl in Hi. lia.
  - apply last_None in Hlast. subst. discriminate.
Qed.

Lemma insert_snoc_lt (l : list A) (x y : A) (i : nat) :
  (i < length l)%nat -> <[i := y]> (l ++ [x]) = <[i := y]> l ++ [x].
Proof. intros Hi. apply insert_app_l. exact Hi. Qed.

Lemma insert_delete_perm (l : list A) (i : nat) (o x : A) :
  l !! i = Some o -> l ++ [x] ≡ₚ o :: <[i := x]> l.
Proof.
  intros Hi.
  rewrite <- (take_drop_middle l i o Hi) at 1.
  rewrite insert_take_drop by (apply lookup_lt_Some in Hi; exact Hi).
  rewrite <- app_assoc. simpl.
  rewrite <- !Permutation_middle. constructor.
  rewrite app_nil_r. reflexivity.
Qed.

End ListFacts.

Section TableFacts.
Context {TKeyType : Type} `{KeyType TKeyType} {TValueType : Type}.

#[local] Abbreviation Table := (CHashTable TKeyType TValueType).

Lemma stored_unique (t : Table) (k : TKeyType) (v v' : TValueType) :
  wf t -> stored t k v -> stored t k v' -> v = v'.
Proof.
  intros Hwf Hv Hv'.
  pose proof (same_key_same_pair (contents t) _ _ (wf_nodup t Hwf) Hv Hv' eq_refl) as Heq.
  inversion Heq. reflexivity.
Qed.

Lemma key_stored (t : Table) (k : TKeyType) :
  k ∈ keys t -> exists v, stored t k v.
Proof.
  unfold keys. intros Hin. apply list_elem_of_fmap in Hin as (p & -> & Hp).
  exists (value p). unfold stored. rewrite pair_eta. exact Hp.
Qed.

Lemma removed_stored (t t' : Table) (k k' : TKeyType) (v' : TValueType) :
  removed t k t' -> stored t' k' v' <-> stored t k' v' /\ k' <> k.
Proof.
  intros Hrm. destruct (rm_contents t k t' Hrm) as (v & Hperm).
  unfold stored. rewrite Hperm. split.
  - intros Hin. split; [right; exact Hin|].
    intros ->. apply (rm_gone t k t' Hrm). apply (stored_key t' k v'). exact Hin.
  - intros [Hin Hne]. apply elem_of_cons in Hin as [Heq|Hin]; [|exact Hin].
    inversion Heq. contradiction.
Qed.

Lemma removed_entries (t t' : Table) (k : TKeyType) :
  removed t k t' -> entries t = S (entries t').
Proof.
  intros Hrm. destruct (rm_contents t k t' Hrm) as (v & Hperm).
  unfold entries. rewrite Hperm. reflexivity.
Qed.

(** Overwriting the value of a stored key keeps the table steady. *)
Lemma steady_overwrite (t t' : Table) (k : TKeyType) (v : TValueType) :
  steady t -> k ∈ keys t -> set_post t k v t' ->
  steady t' /\ m_iSize t' = m_iSize t /\ m_iNumEntries t' = m_iNumEntries t.
Proof.
  intros Hst Hin Hpost.
  destruct (sp_effect t k v t' Hpost) as [Hup|Hins].
  - assert (Hent : entries t' = entries t).
    { unfold entries. rewrite <- (length_fmap key (contents t')).
      rewrite <- (length_fmap key (contents t)).
      fold (keys t') (keys t). rewrite (up_keys t k v t' Hup). reflexivity. }
    split; [|split; [apply (up_size t k v t' Hup)|apply (up_count t k v t' Hup)]].
    split.
    + apply (sp_wf t k v t' Hpost).
    + rewrite Hent, (up_count t k v t' Hup). apply (st_count t Hst).
    + rewrite (up_count t k v t' Hup), (up_size t k v t' Hup), (sp_load t k v t' Hpost).
      apply (st_slack t Hst).
  - exfalso. apply (in_absent t k v t' Hins). exact Hin.
Qed.

End TableFacts.

Section ManagerFacts.
Context {CVector3 CMatrix4x4 : Type} `{SceneLibrary CVector3 CMatrix4x4}.

#[local] Abbreviation Template_ := (CEntityTemplate CMatrix4x4).
#[local] Abbreviation Object := (CEntityObject CMatrix4x4).
#[local] Abbreviation Manager := (CEntityManager CMatrix4x4).

Lemma with_map_same (m : Manager) : with_map m (m_EntityUIDMap m) = m.
Proof. destruct m. reflexivity. Qed.

Lemma consistent_wf (m : Manager) : consistent m -> wf (m_EntityUIDMap m).
Proof. intros Hc. apply st_wf, (cs_map m Hc). Qed.

Lemma half_default : (1 # 2 <= default_MaxLoadFactor)%Q.
Proof. apply at_least_half. vm_compute. discriminate. Qed.

(** *** UIDs and positions *)

Lemma uid_unique (m : Manager) (i j : nat) (o o' : Object) :
  consistent m ->
  m_Entities m !! i = Some o -> m_Entities m !! j = Some o' ->
  GetUID o = GetUID o' -> i = j.
Proof.
  intros Hc Hi Hj Heq.
  pose proof (cs_index m Hc i o Hi) as Si.
  pose proof (cs_index m Hc j o' Hj) as Sj.
  rewrite <- Heq in Sj.
  pose proof (stored_unique _ _ _ _ (consistent_wf m Hc) Si Sj). lia.
Qed.

Lemma key_entity (m : Manager) (k : Z) :
  consistent m ->
  k ∈ keys (m_EntityUIDMap m) <->
  exists (i : nat) (o : Object), m_Entities m !! i = Some o /\ GetUID o = k.
Proof.
  intros Hc. split.
  - intros Hin. apply key_stored in Hin as (v & Hv).
    destruct (cs_entity m Hc k v Hv) as (i & o & _ & Hi & Hk). eauto.
  - intros (i & o & Hi & <-).
    apply (stored_key _ _ (Z.of_nat i)), (cs_index m Hc i o Hi).
Qed.

Lemma next_uid_unused (m : Manager) :
  consistent m -> m_NextUID m ∉ keys (m_EntityUIDMap m).
Proof.
  intros Hc Hin. apply (key_entity m _ Hc) in Hin as (i & o & Hi & Hk).
  pose proof (cs_fresh m Hc o (list_elem_of_lookup_2 _ _ _ Hi)). lia.
Qed.

Lemma first_entity_Some (test : Object -> bool) (l : list Object) (o : Object) :
  first_entity test l = Some o ->
  exists i : nat, l !! i = Some o /\ test o = true /\
                  forall j o', (j < i)%nat -> l !! j = Some o' -> test o' = false.
Proof.
  induction l as [|x l IH]; [discriminate|]. simpl.
  destruct (test x) eqn:Hx.
  - intros Heq. inversion Heq; subst. exists 0%nat. split; [reflexivity|].
    split; [exact Hx|]. intros j o' Hj. lia.
  - intros Hfind. destruct (IH Hfind) as (i & Hi & Ho & Hbefore).
    exists (S i). split; [exact Hi|]. split; [exact Ho|].
    intros [|j] o' Hj Hl; simpl in Hl.
    + inversion Hl; subst. exact Hx.
    + apply (Hbefore j o'); [lia|exact Hl].
Qed.

Lemma first_entity_None (test : Object -> bool) (l : list Object) :
  first_entity test l = None <-> forall o, o ∈ l -> test o = false.
Proof.
  induction l as [|x l IH]; simpl.
  - split; [intros _ o Ho; inversion Ho|reflexivity].
  - destruct (test x) eqn:Hx.
    + split; [discriminate|]. intros Hall.
      rewrite (Hall x) in Hx by left. discriminate.
    + rewrite IH. split.
      * intros Hall o Ho. apply elem_of_cons in Ho as [->|Ho]; auto.
      * intros Hall o Ho. apply Hall. right. exact Ho.
Qed.

Lemma entity_of_lookup (m : Manager) (i : nat) (o : Object) :
  consistent m -> m_Entities m !! i = Some o -> entity_of m (GetUID o) = Some o.
Proof.
  intros Hc Hi. unfold entity_of.
  destruct (first_entity _ (m_Entities m)) as [o'|] eqn:Hfind.
  - apply first_entity_Some in Hfind as (j & Hj & Ho' & _).
    apply bool_decide_eq_true in Ho'.
    pose proof (uid_unique m j i o' o Hc Hj Hi Ho'). subst j.
    rewrite Hi in Hj. symmetry. exact Hj.
  - rewrite first_entity_None in Hfind.
    specialize (Hfind o (list_elem_of_lookup_2 _ _ _ Hi)).
    apply bool_decide_eq_false in Hfind. contradiction.
Qed.

Lemma entity_of_Some (m : Manager) (UID : Z) (o : Object) :
  entity_of m UID = Some o -> o ∈ m_Entities m /\ GetUID o = UID.
Proof.
  unfold entity_of. intros Hfind.
  apply first_entity_Some in Hfind as (j & Hj & Ho & _).
  apply bool_decide_eq_true in Ho.
  split; [apply (list_elem_of_lookup_2 _ _ _ Hj)|exact Ho].
Qed.

Lemma entity_of_None (m : Manager) (UID : Z) :
  entity_of m UID = None <-> forall o, o ∈ m_Entities m -> GetUID o <> UID.
Proof.
  unfold entity_of. rewrite first_entity_None. split.
  - intros Hall o Ho. apply (bool_decide_eq_false_1 _ (Hall o Ho)).
  - intros Hall o Ho. apply bool_decide_eq_false_2, Hall, Ho.
Qed.

Lemma lookup_entity (m : Manager) (i : nat) (o : Object) (pValue : Z) :
  consistent m -> m_Entities m !! i = Some o ->
  LookUpKey (m_EntityUIDMap m) (GetUID o) pValue =
    Done (m_EntityUIDMap m, Z.of_nat i, true).
Proof.
  intros Hc Hi. apply LookUpKey_stored; [apply (consistent_wf m Hc)|].
  apply (cs_index m Hc i o Hi).
Qed.

Lemma lookup_no_entity (m : Manager) (UID pValue : Z) :
  consistent m -> entity_of m UID = None ->
  LookUpKey (m_EntityUIDMap m) UID pValue = Done (m_EntityUIDMap m, pValue, false).
Proof.
  intros Hc Hnone. apply LookUpKey_absent; [apply (consistent_wf m Hc)|].
  intros Hin. apply (key_entity m UID Hc) in Hin as (i & o & Hi & Hk).
  rewrite entity_of_None in Hnone.
  apply (Hnone o (list_elem_of_lookup_2 _ _ _ Hi) Hk).
Qed.

Lemma entity_at_lookup (m : Manager) (i : nat) (o : Object) :
  m_Entities m !! i = Some o -> entity_at m (Z.of_nat i) = Done o.
Proof.
  intros Hi. unfold entity_at.
  destruct (0 <=? Z.of_nat i) eqn:H0; [|apply Z.leb_gt in H0; lia].
  rewrite Nat2Z.id, Hi. reflexivity.
Qed.

(** *** [GetEntity( UID )] *)

Lemma GetEntity_spec (m : Manager) (UID : Z) :
  consistent m -> GetEntity m UID = Done (m, entity_of m UID).
Proof.
  intros Hc. unfold GetEntity.
  destruct (entity_of m UID) as [o|] eqn:Hfind.
  - destruct (entity_of_Some m UID o Hfind) as [Hin <-].
    apply list_elem_of_lookup_1 in Hin as [i Hi].
    rewrite (lookup_entity m i o 0 Hc Hi). simpl.
    rewrite (entity_at_lookup m i o Hi). simpl.
    rewrite with_map_same. reflexivity.
  - rewrite (lookup_no_entity m UID 0 Hc Hfind). simpl.
    rewrite with_map_same. reflexivity.
Qed.

End ManagerFacts.

Section Creation.
Context {CVector3 CMatrix4x4 : Type} `{SceneLibrary CVector3 CMatrix4x4}.

#[local] Abbreviation Template_ := (CEntityTemplate CMatrix4x4).
#[local] Abbreviation Object := (CEntityObject CMatrix4x4).
#[local] Abbreviation Manager := (CEntityManager CMatrix4x4).

Lemma size_within_limit (m : Manager) :
  consistent m -> m_NextUID m <= uid_limit ->
  m_iSize (m_EntityUIDMap m) * 2 < 2 ^ 32.
Proof.
  intros Hc Hlim. unfold uid_limit in Hlim.
  destruct (cs_size m Hc) as [Hs|Hs]; lia.
Qed.

Lemma doubled_same_size (m m' : Manager) :
  m_iSize (m_EntityUIDMap m') = m_iSize (m_EntityUIDMap m) -> doubled m -> doubled m'.
Proof. intros Hs [j Hj]. exists j. rewrite Hs. exact Hj. Qed.

Lemma doubled_grown (m m' : Manager) :
  m_iSize (m_EntityUIDMap m') = m_iSize (m_EntityUIDMap m) \/
  m_iSize (m_EntityUIDMap m') = m_iSize (m_EntityUIDMap m) * 2 ->
  doubled m -> doubled m'.
Proof.
  intros [Hs|Hs] [j Hj]; [exists j; rewrite Hs; exact Hj|].
  exists (S j). rewrite Hs, Hj, Nat2Z.inj_succ, Z.pow_succ_r by lia. lia.
Qed.

(** The shared part of the two creation functions. *)
Lemma add_entity_spec (m : Manager) (o : Object) :
  consistent m -> doubled m -> m_NextUID m <= uid_limit -> GetUID o = m_NextUID m ->
  exists m', add_entity m o = Done (m', m_NextUID m) /\
             consistent m' /\
             m_Entities m' = m_Entities m ++ [o] /\
             m_NextUID m' = m_NextUID m + 1 /\
             m_IsEnumerating m' = false /\
             m_Templates m' = m_Templates m /\
             (m_iSize (m_EntityUIDMap m') = m_iSize (m_EntityUIDMap m) \/
              m_iSize (m_EntityUIDMap m') = m_iSize (m_EntityUIDMap m) * 2).
Proof.
  intros Hc Hd Hlim Huid.
  pose proof (cs_next m Hc) as Hnext.
  pose proof (cs_count m Hc) as Hcount.
  pose proof (cs_length m Hc) as Hlength.
  pose proof (size_within_limit m Hc Hlim) as Hroom.
  pose proof (consistent_wf m Hc) as Hwf.
  pose proof (next_uid_unused m Hc) as Hnew.
  unfold uid_limit in Hlim.
  assert (Hidx : wrap32 (Z.of_nat (length (m_Entities m))) =
                 Z.of_nat (length (m_Entities m))) by (apply wrap32_small; lia).
  assert (Hhalf : (1 # 2 <= m_kfMaxLoadFactor (m_EntityUIDMap m))%Q)
    by (rewrite (cs_load m Hc); apply half_default).
  destruct (steady_SetKeyValue (m_EntityUIDMap m) (m_NextUID m)
              (Z.of_nat (length (m_Entities m))) (cs_map m Hc) Hhalf Hroom)
    as (t' & Hset & Hst' & Hsize'); [lia|].
  pose proof (SetKeyValue_spec _ _ _ _ Hwf Hset) as Hpost.
  destruct (SetKeyValue_count_bound _ _ _ _ (cs_map m Hc) ltac:(lia) Hset)
    as [Hcount' Hload'].
  pose proof (set_post_stored _ _ _ _ Hpost) as Hstored.
  assert (Hnext' : wrap32 (m_NextUID m + 1) = m_NextUID m + 1)
    by (apply wrap32_small; lia).
  eexists. unfold add_entity. simpl. rewrite Hidx, Hset. simpl.
  split; [reflexivity|]. rewrite Hnext'.
  split; [|repeat split; try reflexivity; exact Hsize'].
  split; simpl.
  - exact Hst'.
  - rewrite Hload'. apply (cs_load m Hc).
  - intros i o' Hi. apply lookup_app_Some in Hi as [Hi|[Hlen Hi]].
    + apply (set_post_frame _ _ _ _ _ _ Hpost).
      * pose proof (cs_fresh m Hc o' (list_elem_of_lookup_2 _ _ _ Hi)). lia.
      * apply (cs_index m Hc i o' Hi).
    + destruct (i - length (m_Entities m))%nat as [|n] eqn:Hn; [|destruct n; discriminate].
      simpl in Hi. inversion Hi; subst o'.
      replace i with (length (m_Entities m)) by lia.
      rewrite Huid. exact Hstored.
  - intros k v Hkv. destruct (decide (k = m_NextUID m)) as [->|Hne].
    + pose proof (stored_unique _ _ _ _ (st_wf _ Hst') Hkv Hstored) as ->.
      exists (length (m_Entities m)), o. split; [reflexivity|].
      split; [|exact Huid].
      rewrite lookup_app_r by lia. rewrite Nat.sub_diag. reflexivity.
    + apply (set_post_frame _ _ _ _ _ _ Hpost) in Hkv; [|exact Hne].
      destruct (cs_entity m Hc k v Hkv) as (i & o' & Hv & Hi & Hk).
      exists i, o'. split; [exact Hv|]. split; [|exact Hk].
      apply lookup_app_l_Some. exact Hi.
  - lia.
  - intros o' Ho'. apply elem_of_app in Ho' as [Ho'|Ho'].
    + pose proof (cs_fresh m Hc o' Ho'). lia.
    + apply list_elem_of_singleton in Ho'. subst o'. lia.
  - lia.
  - rewrite length_app. simpl. lia.
  - destruct (sp_effect _ _ _ _ Hpost) as [Hup|Hins].
    { exfalso. apply Hnew, (up_present _ _ _ _ Hup). }
    destruct (in_growth _ _ _ _ Hins) as [(_ & Hs & _)|(Hyes & _ & _)].
    + rewrite Hs. destruct (cs_size m Hc) as [Hold|Hold]; [left; exact Hold|right; lia].
    + destruct Hd as [j Hj].
      assert (Hpow : m_iSize (m_EntityUIDMap m) = 2 ^ (11 + Z.of_nat j))
        by (rewrite Hj, Z.pow_add_r by lia; reflexivity).
      assert (Hexp : 11 + Z.of_nat j < 31)
        by (apply (Z.pow_lt_mono_r_iff 2); [lia|lia|rewrite <- Hpow; lia]).
      rewrite (cs_load m Hc), Hpow in Hyes.
      apply exceeds_load_default_pow2 in Hyes; [|lia|lia].
      rewrite <- Hpow in Hyes. right. destruct Hsize' as [Hs|Hs]; rewrite Hs; lia.
  - discriminate.
Qed.

Lemma CEntity_new_spec (tpl : Template_) (UID : Z) (name : string)
    (position rotation scale : CVector3) :
  EntityTemplate.m_Mesh tpl <> [] ->
  exists e, CEntity_new (Some tpl) UID name position rotation scale = Done e /\
            m_Template e = tpl /\ m_UID e = UID /\ m_Name e = name /\
            m_RelMatrices e =
              CMatrix4x4_new position rotation scale :: tail (EntityTemplate.m_Mesh tpl).
Proof.
  intros Hmesh. unfold CEntity_new.
  destruct (EntityTemplate.m_Mesh tpl) as [|node nodes]; [contradiction|].
  eexists. split; [reflexivity|]. repeat split.
Qed.

End Creation.

Section Destruction.
Context {CVector3 CMatrix4x4 : Type} `{SceneLibrary CVector3 CMatrix4x4}.

#[local] Abbreviation Template_ := (CEntityTemplate CMatrix4x4).
#[local] Abbreviation Object := (CEntityObject CMatrix4x4).
#[local] Abbreviation Manager := (CEntityManager CMatrix4x4).

Lemma back_snoc (l : list Object) (lst : Object) : back (l ++ [lst]) = Done lst.
Proof. unfold back. rewrite last_snoc. reflexivity. Qed.

Lemma DestroyEntity_absent (m : Manager) (UID : Z) :
  consistent m -> entity_of m UID = None -> DestroyEntity m UID = Done (m, false).
Proof.
  intros Hc Hnone. unfold DestroyEntity.
  rewrite (lookup_no_entity m UID 0 Hc Hnone). simpl.
  rewrite with_map_same. reflexivity.
Qed.

Lemma DestroyEntity_present (m : Manager) (i : nat) (o : Object) :
  consistent m -> m_Entities m !! i = Some o ->
  exists m' l' lst,
    m_Entities m = l' ++ [lst] /\
    DestroyEntity m (GetUID o) = Done (m', true) /\
    consistent m' /\
    m_Entities m' = (if decide (i = length l') then l' else <[i := lst]> l') /\
    m_NextUID m' = m_NextUID m /\
    m_IsEnumerating m' = false /\
    m_Templates m' = m_Templates m /\
    m_iSize (m_EntityUIDMap m') = m_iSize (m_EntityUIDMap m).
Proof.
  intros Hc Hi.
  pose proof (consistent_wf m Hc) as Hwf.
  destruct (last_lookup_Some _ _ _ Hi) as (l' & lst & Hl & Hle).
  assert (Hkey : GetUID o ∈ keys (m_EntityUIDMap m))
    by (apply (key_entity m _ Hc); eauto).
  destruct (RemoveKey_present _ _ Hwf Hkey) as (t1 & Hrm & Hrmd).
  pose proof (steady_RemoveKey _ _ _ _ (cs_map m Hc) Hrm) as Hst1.
  pose proof (removed_entries _ _ _ Hrmd) as Hentries.
  pose proof (st_count _ (cs_map m Hc)) as Hcovered.
  pose proof (wf_count _ Hwf) as Hrange.
  pose proof (cs_count m Hc) as Hcount.
  assert (Hcount1 : m_iNumEntries t1 = m_iNumEntries (m_EntityUIDMap m) - 1).
  { rewrite (rm_count _ _ _ Hrmd). apply wrap32_small. lia. }
  exists (if decide (i = length l') then
            with_enumerating (with_objects (with_map m t1) l') false
          else
            with_enumerating
              (with_objects
                 (with_map m (result t1 (SetKeyValue t1 (GetUID lst) (Z.of_nat i))))
                 (<[i := lst]> l')) false), l', lst.
  split; [exact Hl|].
  unfold DestroyEntity.
  rewrite (lookup_entity m i o 0 Hc Hi). cbn [obind fst snd negb].
  rewrite (entity_at_lookup m i o Hi). cbn [obind].
  rewrite Hrm. cbn [obind fst snd].
  change (m_Entities (with_map m t1)) with (m_Entities m).
  change (m_EntityUIDMap (with_objects (with_map m t1)
            (<[Z.to_nat (Z.of_nat i) := lst]> (m_Entities m)))) with t1.
  rewrite Hl, back_snoc, length_app, Nat2Z.id. cbn [length Nat.add obind].
  destruct (decide (i = length l')) as [->|Hne].
  - (* the last entity is destroyed *)
    replace (Z.of_nat (length l') =? Z.of_nat (length l' + 1) - 1) with true
      by (symmetry; apply Z.eqb_eq; lia).
    cbn [negb obind].
    change (m_Entities (with_map m t1)) with (m_Entities m).
    rewrite Hl, back_snoc, removelast_snoc. cbn [obind].
    split; [reflexivity|].
    split; [|repeat split; try reflexivity; apply (rm_size _ _ _ Hrmd)].
    rewrite Hl, lookup_app_r, Nat.sub_diag in Hi by lia.
    inversion Hi; subst lst.
    split; cbn.
    + exact Hst1.
    + rewrite (rm_load _ _ _ Hrmd). apply (cs_load m Hc).
    + intros j o' Hj. apply (removed_stored _ _ _ _ _ Hrmd).
      assert (Hj' : m_Entities m !! j = Some o')
        by (rewrite Hl; apply lookup_app_l_Some; exact Hj).
      split; [apply (cs_index m Hc j o' Hj')|].
      intros Heq. apply lookup_lt_Some in Hj.
      assert (Hlast : m_Entities m !! length l' = Some o)
        by (rewrite Hl, lookup_app_r, Nat.sub_diag by lia; reflexivity).
      pose proof (uid_unique m _ _ _ _ Hc Hj' Hlast Heq). lia.
    + intros k v Hkv. apply (removed_stored _ _ _ _ _ Hrmd) in Hkv as [Hkv Hne].
      destruct (cs_entity m Hc k v Hkv) as (j & o' & Hv & Hj & Hk).
      exists j, o'. split; [exact Hv|]. split; [|exact Hk].
      rewrite Hl in Hj. apply lookup_app_Some in Hj as [Hj|[Hlen Hj]]; [exact Hj|].
      destruct (j - length l')%nat as [|n]; [|destruct n; discriminate].
      simpl in Hj. inversion Hj; subst o'. congruence.
    + apply (cs_next m Hc).
    + intros o' Ho'. apply (cs_fresh m Hc). rewrite Hl. apply elem_of_app. left. exact Ho'.
    + lia.
    + pose proof (cs_length m Hc) as Hlen. rewrite Hl, length_app in Hlen. simpl in Hlen. lia.
    + rewrite (rm_size _ _ _ Hrmd). apply (cs_size m Hc).
    + discriminate.
  - (* the last entity takes the place of the destroyed one *)
    assert (Hlt : (i < length l')%nat) by lia.
    replace (Z.of_nat i =? Z.of_nat (length l' + 1) - 1) with false
      by (symmetry; apply Z.eqb_neq; lia).
    cbn [negb obind].
    assert (Hlast : m_Entities m !! length l' = Some lst)
      by (rewrite Hl, lookup_app_r, Nat.sub_diag by lia; reflexivity).
    assert (Hdiff : GetUID lst <> GetUID o).
    { intros Heq. pose proof (uid_unique m _ _ _ _ Hc Hlast Hi Heq). lia. }
    assert (Hkept : stored t1 (GetUID lst) (Z.of_nat (length l'))).
    { apply (removed_stored _ _ _ _ _ Hrmd). split; [|exact Hdiff].
      apply (cs_index m Hc _ _ Hlast). }
    pose proof (stored_key _ _ _ Hkept) as Hkey1.
    destruct (SetKeyValue_without_resize t1 (GetUID lst) (Z.of_nat i) (st_wf _ Hst1)
                (or_introl Hkey1)) as (t2 & Hset & Hpost & Hsize2).
    cbn [m_EntityUIDMap with_objects with_map].
    rewrite Hset. cbn [obind result m_Entities with_objects with_map].
    rewrite insert_snoc_lt, back_snoc, removelast_snoc by exact Hlt. cbn [obind].
    split; [reflexivity|].
    split; [|repeat split; try reflexivity;
             cbn [m_EntityUIDMap with_enumerating with_objects with_map];
             rewrite Hsize2; apply (rm_size _ _ _ Hrmd)].
    destruct (steady_overwrite _ _ _ _ Hst1 Hkey1 Hpost) as (Hst2 & _ & Hcount2).
    pose proof (set_post_stored _ _ _ _ Hpost) as Hmoved.
    rewrite Hl, lookup_app_l in Hi by exact Hlt.
    split; cbn.
    + exact Hst2.
    + rewrite (sp_load _ _ _ _ Hpost), (rm_load _ _ _ Hrmd). apply (cs_load m Hc).
    + intros j o' Hj. destruct (decide (j = i)) as [->|Hji].
      * rewrite list_lookup_insert_eq in Hj by exact Hlt. inversion Hj; subst o'.
        exact Hmoved.
      * rewrite list_lookup_insert_ne in Hj by auto.
        assert (Hj' : m_Entities m !! j = Some o')
          by (rewrite Hl; apply lookup_app_l_Some; exact Hj).
        assert (Hi' : m_Entities m !! i = Some o)
          by (rewrite Hl; apply lookup_app_l_Some; exact Hi).
        apply lookup_lt_Some in Hj.
        apply (set_post_frame _ _ _ _ _ _ Hpost).
        { intros Heq. pose proof (uid_unique m _ _ _ _ Hc Hj' Hlast Heq). lia. }
        apply (removed_stored _ _ _ _ _ Hrmd).
        split; [apply (cs_index m Hc j o' Hj')|].
        intros Heq. pose proof (uid_unique m _ _ _ _ Hc Hj' Hi' Heq). lia.
    + intros k v Hkv. destruct (decide (k = GetUID lst)) as [->|Hk].
      * pose proof (stored_unique _ _ _ _ (st_wf _ Hst2) Hkv Hmoved) as ->.
        exists i, lst. split; [reflexivity|]. split; [|reflexivity].
        apply list_lookup_insert_eq. exact Hlt.
      * apply (set_post_frame _ _ _ _ _ _ Hpost) in Hkv; [|exact Hk].
        apply (removed_stored _ _ _ _ _ Hrmd) in Hkv as [Hkv Hko].
        destruct (cs_entity m Hc k v Hkv) as (j & o' & Hv & Hj & Hkj).
        exists j, o'. split; [exact Hv|]. split; [|exact Hkj].
        assert (Hji : j <> i).
        { intros ->. rewrite Hl, lookup_app_l in Hj by exact Hlt.
          rewrite Hi in Hj. inversion Hj; subst o'. congruence. }
        rewrite list_lookup_insert_ne by auto.
        rewrite Hl in Hj. apply lookup_app_Some in Hj as [Hj|[Hlen Hj]]; [exact Hj|].
        destruct (j - length l')%nat as [|n]; [|destruct n; discriminate].
        simpl in Hj. inversion Hj; subst o'. congruence.
    + apply (cs_next m Hc).
    + intros o' Ho'. apply (cs_fresh m Hc). rewrite Hl.
      apply list_elem_of_lookup_1 in Ho' as [j Hj].
      destruct (decide (j = i)) as [->|Hji].
      * rewrite list_lookup_insert_eq in Hj by exact Hlt. inversion Hj; subst o'.
        apply elem_of_app. right. left.
      * rewrite list_lookup_insert_ne in Hj by auto.
        apply elem_of_app. left. apply (list_elem_of_lookup_2 _ _ _ Hj).
    + lia.
    + rewrite length_insert.
      pose proof (cs_length m Hc) as Hlen. rewrite Hl, length_app in Hlen. simpl in Hlen. lia.
    + rewrite Hsize2, (rm_size _ _ _ Hrmd). apply (cs_size m Hc).
    + discriminate.
Qed.

End Destruction.

Section Clearing.
Context {CVector3 CMatrix4x4 : Type} `{SceneLibrary CVector3 CMatrix4x4}.

#[local] Abbreviation Object := (CEntityObject CMatrix4x4).
#[local] Abbreviation Manager := (CEntityManager CMatrix4x4).

Lemma pop_back_all_nil (n : nat) :
  forall l : list Object, (length l <= n)%nat -> pop_back_all n l = [].
Proof.
  induction n as [|n IH]; intros l Hlen; simpl.
  - destruct l; [reflexivity|simpl in Hlen; lia].
  - apply IH. destruct l as [|x l] using rev_ind; [simpl; lia|].
    rewrite removelast_snoc. rewrite length_app in Hlen. simpl in Hlen. lia.
Qed.

Lemma DestroyAllEntities_spec (m : Manager) :
  consistent m ->
  exists m', DestroyAllEntities m = Done m' /\
             consistent m' /\
             m_Entities m' = [] /\
             m_NextUID m' = m_NextUID m /\
             m_IsEnumerating m' = false /\
             m_Templates m' = m_Templates m /\
             m_iNumEntries (m_EntityUIDMap m') = m_iNumEntries (m_EntityUIDMap m) /\
             m_iSize (m_EntityUIDMap m') = m_iSize (m_EntityUIDMap m).
Proof.
  intros Hc.
  destruct (RemoveAllKeys_effect _ (consistent_wf m Hc))
    as (t' & Hrun & Hwf' & Hcont & Hsize & Hcount & Hhash & Hload & Hlook).
  pose proof (steady_RemoveAllKeys _ _ (cs_map m Hc) Hrun) as Hst'.
  eexists. unfold DestroyAllEntities. rewrite Hrun. cbn [obind].
  cbn [m_Entities with_map]. rewrite pop_back_all_nil by lia.
  split; [reflexivity|].
  split; [|repeat split; cbn; auto].
  split; cbn.
  - exact Hst'.
  - rewrite Hload. apply (cs_load m Hc).
  - intros i o Hi. discriminate.
  - intros k v Hkv. unfold stored in Hkv. rewrite Hcont in Hkv. inversion Hkv.
  - apply (cs_next m Hc).
  - intros o Ho. inversion Ho.
  - rewrite Hcount. apply (cs_count m Hc).
  - pose proof (cs_next m Hc). lia.
  - rewrite Hsize. apply (cs_size m Hc).
  - discriminate.
Qed.

(** Replacing entities by entities with the same UIDs. *)
Lemma consistent_same_uids (m : Manager) (l : list Object) :
  consistent m ->
  GetUID <$> l = GetUID <$> m_Entities m ->
  consistent (with_objects m l).
Proof.
  intros Hc Huids.
  assert (Hlen : length l = length (m_Entities m))
    by (rewrite <- (length_fmap GetUID l), Huids, length_fmap; reflexivity).
  assert (Hto : forall i o, l !! i = Some o ->
                  exists o', m_Entities m !! i = Some o' /\ GetUID o' = GetUID o).
  { intros i o Hi.
    assert (Hu : (GetUID <$> l) !! i = Some (GetUID o))
      by (rewrite list_lookup_fmap, Hi; reflexivity).
    rewrite Huids, list_lookup_fmap in Hu.
    destruct (m_Entities m !! i) as [o'|]; [|discriminate].
    inversion Hu. eauto. }
  assert (Hfrom : forall i o', m_Entities m !! i = Some o' ->
                    exists o, l !! i = Some o /\ GetUID o = GetUID o').
  { intros i o' Hi.
    assert (Hu : (GetUID <$> m_Entities m) !! i = Some (GetUID o'))
      by (rewrite list_lookup_fmap, Hi; reflexivity).
    rewrite <- Huids, list_lookup_fmap in Hu.
    destruct (l !! i) as [o|]; [|discriminate].
    inversion Hu. eauto. }
  split; cbn.
  - apply (cs_map m Hc).
  - apply (cs_load m Hc).
  - intros i o Hi. destruct (Hto i o Hi) as (o' & Hi' & <-).
    apply (cs_index m Hc i o' Hi').
  - intros k v Hkv. destruct (cs_entity m Hc k v Hkv) as (i & o' & Hv & Hi & Hk).
    destruct (Hfrom i o' Hi) as (o & Hl & Ho).
    exists i, o. split; [exact Hv|]. split; [exact Hl|congruence].
  - apply (cs_next m Hc).
  - intros o Ho. apply list_elem_of_lookup_1 in Ho as [i Hi].
    destruct (Hto i o Hi) as (o' & Hi' & <-).
    apply (cs_fresh m Hc o' (list_elem_of_lookup_2 _ _ _ Hi')).
  - apply (cs_count m Hc).
  - rewrite Hlen. apply (cs_length m Hc).
  - apply (cs_size m Hc).
  - rewrite Hlen. apply (cs_enum m Hc).
Qed.

End Clearing.

Section Enumeration.
Context {CVector3 CMatrix4x4 : Type} `{SceneLibrary CVector3 CMatrix4x4}.

#[local] Abbreviation Object := (CEntityObject CMatrix4x4).
#[local] Abbreviation Manager := (CEntityManager CMatrix4x4).

Lemma next_entity_Some (test : Object -> bool) (rest : list Object) :
  forall (pos pos' : nat) (o : Object),
    next_entity test rest pos = (Some o, pos') ->
    exists skipped after,
      rest = skipped ++ o :: after /\
      filter (fun x => test x = true) skipped = [] /\
      test o = true /\
      pos' = (pos + length skipped + 1)%nat.
Proof.
  induction rest as [|x rest IH]; intros pos pos' o; simpl; [discriminate|].
  destruct (test x) eqn:Hx.
  - intros Heq. inversion Heq; subst. exists [], rest.
    split; [reflexivity|]. split; [reflexivity|]. split; [exact Hx|]. simpl. lia.
  - intros Hnext. destruct (IH _ _ _ Hnext) as (skipped & after & -> & Hskip & Ho & ->).
    exists (x :: skipped), after. split; [reflexivity|].
    split; [|split; [exact Ho|simpl; lia]].
    rewrite filter_cons_False by (rewrite Hx; discriminate). exact Hskip.
Qed.

Lemma next_entity_None (test : Object -> bool) (rest : list Object) :
  forall (pos pos' : nat),
    next_entity test rest pos = (None, pos') ->
    filter (fun x => test x = true) rest = [] /\ pos' = (pos + length rest)%nat.
Proof.
  induction rest as [|x rest IH]; intros pos pos'; simpl.
  - intros Heq. inversion Heq. split; [reflexivity|lia].
  - destruct (test x) eqn:Hx; [discriminate|].
    intros Hnext. destruct (IH _ _ Hnext) as (Hskip & ->).
    split; [|lia]. rewrite filter_cons_False by (rewrite Hx; discriminate). exact Hskip.
Qed.

(** Calling [EnumEntity] until it returns the null pointer. *)
Lemma enumerate_spec (fuel : nat) :
  forall m : Manager,
    m_IsEnumerating m = true ->
    (m_EnumEntity m <= length (m_Entities m))%nat ->
    (length (filter (fun o => enumerated m o = true)
               (drop (m_EnumEntity m) (m_Entities m))) < fuel)%nat ->
    enumerate fuel m =
      Done (with_enumerating (with_position m (length (m_Entities m))) false,
            filter (fun o => enumerated m o = true)
              (drop (m_EnumEntity m) (m_Entities m))).
Proof.
  induction fuel as [|fuel IH]; intros m Hon Hpos Hfuel; [lia|].
  cbn [enumerate]. unfold EnumEntity. rewrite Hon. cbn [negb].
  destruct (length (m_Entities m) <? m_EnumEntity m)%nat eqn:Hcmp;
    [apply Nat.ltb_lt in Hcmp; lia|].
  destruct (next_entity (enumerated m) (drop (m_EnumEntity m) (m_Entities m))
              (m_EnumEntity m)) as [[o|] pos'] eqn:Hnext; cbn [fst snd obind].
  - destruct (next_entity_Some _ _ _ _ _ Hnext) as (skipped & after & Hrest & Hskip & Ho & ->).
    assert (Hlen : (m_EnumEntity m + length skipped + 1 + length after =
                    length (m_Entities m))%nat).
    { pose proof (f_equal length Hrest) as Hl.
      rewrite length_drop, length_app in Hl. simpl in Hl. lia. }
    assert (Hafter : drop (m_EnumEntity m + length skipped + 1) (m_Entities m) = after).
    { rewrite <- Nat.add_assoc, <- drop_drop, Hrest.
      rewrite cons_middle, app_assoc.
      apply drop_app_length'. rewrite length_app. simpl. lia. }
    rewrite Hrest, filter_app, Hskip, filter_cons_True by exact Ho.
    rewrite Hrest, filter_app, Hskip, filter_cons_True in Hfuel by exact Ho.
    simpl in Hfuel. cbn [app].
    rewrite (IH (with_position m (m_EnumEntity m + length skipped + 1))).
    + cbn [obind fst snd m_Entities m_EnumEntity with_position].
      rewrite Hafter. reflexivity.
    + exact Hon.
    + cbn. lia.
    + cbn [m_Entities m_EnumEntity with_position]. rewrite Hafter.
      change (enumerated (with_position m _)) with (enumerated m). lia.
  - destruct (next_entity_None _ _ _ _ Hnext) as (Hskip & ->).
    rewrite Hskip. rewrite length_drop.
    replace (m_EnumEntity m + (length (m_Entities m) - m_EnumEntity m))%nat
      with (length (m_Entities m)) by lia.
    reflexivity.
Qed.

End Enumeration.

Section Updating.
Context {CVector3 CMatrix4x4 : Type} `{SceneLibrary CVector3 CMatrix4x4}.

#[local] Abbreviation Object := (CEntityObject CMatrix4x4).
#[local] Abbreviation Manager := (CEntityManager CMatrix4x4).

Lemma with_objects_same (m : Manager) : with_objects m (m_Entities m) = m.
Proof. destruct m. reflexivity. Qed.

Lemma entity_at_middle (m : Manager) (done todo : list Object) (o : Object) :
  m_Entities m = done ++ o :: todo ->
  entity_at m (Z.of_nat (length done)) = Done o.
Proof.
  intros Hl. apply entity_at_lookup. rewrite Hl.
  rewrite lookup_app_r, Nat.sub_diag by lia. reflexivity.
Qed.

Lemma insert_middle (done todo : list Object) (o o' : Object) :
  <[length done := o']> (done ++ o :: todo) = done ++ o' :: todo.
Proof.
  rewrite insert_app_r_alt, Nat.sub_diag by lia. reflexivity.
Qed.

(** The loop of [UpdateAllEntities] when every update asks to keep the
    entity. *)
Lemma update_from_all_kept
    (update : TFloat32 -> Object -> outcome (Object * bool)) (updateTime : TFloat32)
    (fuel : nat) :
  forall (done todo todo' : list Object) (m : Manager),
    m_Entities m = done ++ todo ->
    (length todo < fuel)%nat ->
    Z.of_nat (length (done ++ todo)) < 2 ^ 32 ->
    Forall2 (fun o o' => update updateTime o = Done (o', true)) todo todo' ->
    update_from update fuel updateTime m (Z.of_nat (length done)) =
      Done (with_objects m (done ++ todo')).
Proof.
  induction fuel as [|fuel IH]; intros done todo todo' m Hl Hfuel Hsmall Hall; [lia|].
  cbn [update_from]. rewrite Hl.
  destruct Hall as [|o o' rest rest' Ho Hrest].
  - rewrite app_nil_r.
    destruct (Z.of_nat (length done) <? Z.of_nat (length done)) eqn:Hcmp;
      [apply Z.ltb_lt in Hcmp; lia|].
    rewrite app_nil_r in Hl. rewrite <- Hl, with_objects_same. reflexivity.
  - destruct (Z.of_nat (length done) <? Z.of_nat (length (done ++ o :: rest))) eqn:Hcmp.
    2:{ apply Z.ltb_ge in Hcmp. rewrite length_app in Hcmp. simpl in Hcmp. lia. }
    rewrite (entity_at_middle m done rest o Hl). cbn [obind].
    rewrite Ho. cbn [obind fst snd negb].
    rewrite Nat2Z.id, insert_middle.
    rewrite length_app in Hsmall. simpl in Hsmall, Hfuel.
    replace (wrap32 (Z.of_nat (length done) + 1)) with (Z.of_nat (length (done ++ [o']))).
    2:{ rewrite length_app. simpl. rewrite wrap32_small; lia. }
    rewrite (IH (done ++ [o']) rest rest').
    + cbn. rewrite <- app_assoc. reflexivity.
    + cbn. rewrite <- app_assoc. reflexivity.
    + lia.
    + rewrite !length_app. simpl. lia.
    + exact Hrest.
Qed.

Lemma kept_cons_true (update : TFloat32 -> Object -> outcome (Object * bool))
    (updateTime : TFloat32) (o o' : Object) (l : list Object) :
  update updateTime o = Done (o', true) ->
  kept update updateTime (o :: l) = o' :: kept update updateTime l.
Proof. intros Ho. unfold kept. simpl. rewrite Ho. reflexivity. Qed.

Lemma kept_cons_false (update : TFloat32 -> Object -> outcome (Object * bool))
    (updateTime : TFloat32) (o o' : Object) (l : list Object) :
  update updateTime o = Done (o', false) ->
  kept update updateTime (o :: l) = kept update updateTime l.
Proof. intros Ho. unfold kept. simpl. rewrite Ho. reflexivity. Qed.

(** The loop of [UpdateAllEntities] from position [length done] on. *)
Lemma update_from_spec
    (update : TFloat32 -> Object -> outcome (Object * bool)) (updateTime : TFloat32) :
  (forall o o' keep, update updateTime o = Done (o', keep) -> GetUID o' = GetUID o) ->
  forall (fuel : nat) (done todo : list Object) (m : Manager),
    consistent m ->
    m_Entities m = done ++ todo ->
    (length todo < fuel)%nat ->
    Forall (fun o => exists r, update updateTime o = Done r) todo ->
    exists m' rest,
      update_from update fuel updateTime m (Z.of_nat (length done)) = Done m' /\
      consistent m' /\
      m_Entities m' = done ++ rest /\
      rest ≡ₚ kept update updateTime todo /\
      m_NextUID m' = m_NextUID m /\
      m_Templates m' = m_Templates m.
Proof.
  intros Huid.
  induction fuel as [|fuel IH]; intros done todo m Hc Hl Hfuel Hall; [lia|].
  cbn [update_from]. rewrite Hl.
  destruct todo as [|o rest].
  - destruct (Z.of_nat (length done) <? Z.of_nat (length (done ++ []))) eqn:Hcmp.
    { apply Z.ltb_lt in Hcmp. rewrite app_nil_r in Hcmp. lia. }
    exists m, []. split; [reflexivity|]. split; [exact Hc|].
    split; [exact Hl|]. split; [reflexivity|]. split; reflexivity.
  - destruct (Z.of_nat (length done) <? Z.of_nat (length (done ++ o :: rest))) eqn:Hcmp.
    2:{ apply Z.ltb_ge in Hcmp. rewrite length_app in Hcmp. simpl in Hcmp. lia. }
    rewrite (entity_at_middle m done rest o Hl). cbn [obind].
    apply Forall_cons in Hall as [[[o' keep] Ho] Hall].
    rewrite Ho. cbn [obind fst snd].
    rewrite Nat2Z.id, insert_middle.
    pose proof (Huid o o' keep Ho) as Hsame.
    assert (Hc1 : consistent (with_objects m (done ++ o' :: rest))).
    { apply consistent_same_uids; [exact Hc|].
      rewrite Hl, !fmap_app, !fmap_cons, Hsame. reflexivity. }
    pose proof (cs_length m Hc) as Hlen. pose proof (cs_next m Hc) as Hnext.
    rewrite Hl, length_app in Hlen. simpl in Hlen, Hfuel.
    destruct keep; cbn [negb].
    + replace (wrap32 (Z.of_nat (length done) + 1))
        with (Z.of_nat (length (done ++ [o']))).
      2:{ rewrite length_app. simpl. rewrite wrap32_small; lia. }
      destruct (IH (done ++ [o']) rest (with_objects m (done ++ o' :: rest)) Hc1)
        as (m' & rest' & Hrun & Hc' & Hl' & Hperm & Hn' & Ht');
        [cbn; rewrite <- app_assoc; reflexivity|lia|exact Hall|].
      exists m', (o' :: rest'). split; [exact Hrun|]. split; [exact Hc'|].
      split; [rewrite Hl', <- app_assoc; reflexivity|].
      split; [|split; [exact Hn'|exact Ht']].
      rewrite (kept_cons_true _ _ _ _ _ Ho), Hperm. reflexivity.
    + assert (Hat : m_Entities (with_objects m (done ++ o' :: rest)) !! length done
                    = Some o').
      { cbn. rewrite lookup_app_r, Nat.sub_diag by lia. reflexivity. }
      rewrite (entity_at_lookup _ _ _ Hat). cbn [obind].
      destruct (DestroyEntity_present _ _ _ Hc1 Hat)
        as (m2 & l' & lst & Hsplit & Hrun2 & Hc2 & Hl2 & Hn2 & _ & Ht2 & _).
      rewrite Hrun2. cbn [obind fst].
      cbn [m_Entities with_objects] in Hsplit.
      assert (Hshape : exists todo2, m_Entities m2 = done ++ todo2 /\ todo2 ≡ₚ rest).
      { destruct rest as [|x rest0] using rev_ind.
        - apply app_inj_tail in Hsplit as [<- <-].
          rewrite decide_True in Hl2 by reflexivity.
          exists []. rewrite app_nil_r. split; [exact Hl2|reflexivity].
        - clear IHrest0.
          change (done ++ o' :: rest0 ++ [x]) with (done ++ (o' :: rest0) ++ [x]) in Hsplit.
          rewrite app_assoc in Hsplit.
          apply app_inj_tail in Hsplit as [<- <-].
          rewrite decide_False in Hl2 by (rewrite !length_app; simpl; lia).
          rewrite insert_middle in Hl2.
          exists (x :: rest0). split; [exact Hl2|].
          rewrite (Permutation_app_comm rest0 [x]). reflexivity. }
      destruct Hshape as (todo2 & Hl2' & Hperm2).
      destruct (IH done todo2 m2 Hc2 Hl2') as (m' & rest' & Hrun & Hc' & Hl' & Hperm & Hn' & Ht').
      { rewrite Hperm2. lia. }
      { rewrite Hperm2. exact Hall. }
      exists m', rest'. split; [exact Hrun|]. split; [exact Hc'|].
      split; [exact Hl'|]. split; [|split; [rewrite Hn', Hn2|rewrite Ht', Ht2]; reflexivity].
      rewrite (kept_cons_false _ _ _ _ _ Ho), Hperm.
      unfold kept. rewrite Hperm2. reflexivity.
Qed.

End Updating.

Section Histories.
Context {CVector3 CMatrix4x4 : Type} `{SceneLibrary CVector3 CMatrix4x4}.

#[local] Abbreviation Template_ := (CEntityTemplate CMatrix4x4).
#[local] Abbreviation Object := (CEntityObject CMatrix4x4).
#[local] Abbreviation Manager := (CEntityManager CMatrix4x4).

(** *** The two entity classes *)

Lemma CEntity_new_Done (entityTemplate : option Template_) (UID : Z) (name : string)
    (position rotation scale : CVector3) (e : CEntity CMatrix4x4) :
  CEntity_new entityTemplate UID name position rotation scale = Done e ->
  exists tpl, entityTemplate = Some tpl /\
              EntityTemplate.m_Mesh tpl <> [] /\
              m_Template e = tpl /\ m_UID e = UID /\ m_Name e = name /\
              m_RelMatrices e <> [].
Proof.
  unfold CEntity_new. destruct entityTemplate as [tpl|]; [|discriminate].
  destruct (EntityTemplate.m_Mesh tpl) as [|node nodes] eqn:Hmesh; [discriminate|].
  intros Heq. inversion Heq; subst. exists tpl. simpl.
  rewrite Hmesh. repeat split; discriminate.
Qed.

Lemma Update_Done (updateTime : TFloat32) (o o' : Object) (keep : bool) :
  Update updateTime o = Done (o', keep) ->
  keep = true /\ GetUID o' = GetUID o /\ GetName o' = GetName o /\
  Template o' = Template o /\ (rooted o -> rooted o').
Proof.
  unfold Update, rooted. destruct o as [e|p]; simpl.
  - intros Heq. inversion Heq; subst. repeat split; auto.
  - destruct (m_RelMatrices (planet_CEntity p)) as [|root nodes]; [discriminate|].
    intros Heq. inversion Heq; subst. simpl. repeat split; auto.
Qed.

Lemma Update_total (updateTime : TFloat32) (o : Object) :
  rooted o -> exists o', Update updateTime o = Done (o', true).
Proof.
  unfold Update, rooted. destruct o as [e|p]; simpl.
  - eauto.
  - destruct (m_RelMatrices (planet_CEntity p)) as [|root nodes]; [contradiction|].
    eauto.
Qed.

Lemma Update_all (updateTime : TFloat32) (l : list Object) :
  Forall rooted l ->
  exists l', Forall2 (fun o o' => Update updateTime o = Done (o', true)) l l'.
Proof.
  induction 1 as [|o l Ho _ [l' IH]].
  - exists []. constructor.
  - destruct (Update_total updateTime o Ho) as [o' Hrun].
    exists (o' :: l'). constructor; assumption.
Qed.

Lemma Update_all_uids (updateTime : TFloat32) (l l' : list Object) :
  Forall2 (fun o o' => Update updateTime o = Done (o', true)) l l' ->
  GetUID <$> l' = GetUID <$> l /\ (Forall rooted l -> Forall rooted l').
Proof.
  induction 1 as [|o o' l l' Ho _ [IH1 IH2]]; [split; auto|].
  destruct (Update_Done _ _ _ _ Ho) as (_ & Hu & _ & _ & Hr).
  split.
  - rewrite !fmap_cons, Hu, IH1. reflexivity.
  - intros Hall. apply Forall_cons in Hall as [Hro Hall].
    constructor; auto.
Qed.

(** [UpdateAllEntities] with the two classes of the repository. *)
Lemma UpdateAllEntities_spec (m : Manager) (updateTime : TFloat32) :
  Z.of_nat (length (m_Entities m)) < 2 ^ 32 ->
  Forall rooted (m_Entities m) ->
  exists l', UpdateAllEntities m updateTime = Done (with_objects m l') /\
             Forall2 (fun o o' => Update updateTime o = Done (o', true))
               (m_Entities m) l'.
Proof.
  intros Hlen Hroot. destruct (Update_all updateTime _ Hroot) as [l' Hall].
  exists l'. split; [|exact Hall].
  unfold UpdateAllEntities, UpdateAllEntities_with.
  apply (update_from_all_kept Update updateTime _ [] (m_Entities m) l' m);
    [reflexivity|lia|exact Hlen|exact Hall].
Qed.

(** *** Consistency along the operations *)

Lemma consistent_new : consistent (CEntityManager_new CMatrix4x4).
Proof.
  split; cbn.
  - apply steady_new; [lia|]. apply nonnegative_load. vm_compute. discriminate.
  - reflexivity.
  - intros i o Hi. discriminate.
  - intros k v Hkv. unfold stored, uid_table in Hkv. rewrite new_contents in Hkv.
    inversion Hkv.
  - lia.
  - intros o Ho. inversion Ho.
  - lia.
  - lia.
  - left. reflexivity.
  - discriminate.
Qed.

Lemma consistent_templates (m : Manager) (T : gmap string Template_) :
  consistent m -> consistent (with_templates m T).
Proof. intros Hc. split; cbn; apply Hc. Qed.

Lemma consistent_enum_state (m : Manager) (pos : nat) (b : bool) :
  consistent m ->
  (b = true -> (pos <= length (m_Entities m))%nat) ->
  consistent (with_enumerating (with_position m pos) b).
Proof. intros Hc Hpos. split; cbn; try apply Hc. exact Hpos. Qed.

Lemma consistent_BeginEnumEntities (m : Manager) (name templateName templateType : string) :
  consistent m -> consistent (BeginEnumEntities m name templateName templateType).
Proof. intros Hc. split; cbn; try apply Hc. intros _. lia. Qed.

Lemma EnumEntity_outcome (m : Manager) :
  (m_IsEnumerating m = true -> (m_EnumEntity m <= length (m_Entities m))%nat) ->
  exists pos b found,
    EnumEntity m = Done (with_enumerating (with_position m pos) b, found) /\
    (b = true -> (pos <= length (m_Entities m))%nat) /\
    (m_IsEnumerating m = false -> found = None) /\
    (forall o, found = Some o -> o ∈ m_Entities m /\ enumerated m o = true).
Proof.
  intros Hvalid. unfold EnumEntity.
  destruct (m_IsEnumerating m) eqn:Hon; cbn [negb].
  - specialize (Hvalid eq_refl).
    destruct (length (m_Entities m) <? m_EnumEntity m)%nat eqn:Hcmp;
      [apply Nat.ltb_lt in Hcmp; lia|].
    destruct (next_entity (enumerated m) (drop (m_EnumEntity m) (m_Entities m))
                (m_EnumEntity m)) as [[o|] pos'] eqn:Hnext; cbn [fst snd].
    + destruct (next_entity_Some _ _ _ _ _ Hnext) as (skipped & after & Hrest & _ & Ho & ->).
      exists (m_EnumEntity m + length skipped + 1)%nat, true, (Some o).
      split; [destruct m; cbn in *; rewrite Hon; reflexivity|].
      pose proof (f_equal length Hrest) as Hl.
      rewrite length_drop, length_app in Hl. simpl in Hl.
      split; [intros _; lia|]. split; [discriminate|].
      intros o0 Ho0. inversion Ho0; subst o0. split; [|exact Ho].
      rewrite <- (take_drop (m_EnumEntity m) (m_Entities m)), Hrest.
      apply elem_of_app. right. apply elem_of_app. right. left.
    + exists pos', false, None. split; [reflexivity|].
      split; [discriminate|]. split; [reflexivity|]. intros o Ho. discriminate.
  - exists (m_EnumEntity m), false, None.
    split; [destruct m; cbn in *; rewrite Hon; reflexivity|].
    split; [discriminate|]. split; [reflexivity|]. intros o Ho. discriminate.
Qed.

(** Every manager built with at most [uid_limit] creations is consistent;
    [m_NextUID] is the number of creations and the UID map has its 2048
    buckets doubled a number of times. *)
Lemma managed_invariant (n : nat) (m : Manager) :
  managed n m -> Z.of_nat n <= uid_limit ->
  consistent m /\ m_NextUID m = Z.of_nat n /\ Forall rooted (m_Entities m) /\
  doubled m.
Proof.
  induction 1 as [|n m type name mesh m' tpl _ IH Hrun
                  |n m templateName name position rotation scale m' UID _ IH Hrun
                  |n m templateName name spinSpeed position rotation scale m' UID _ IH Hrun
                  |n m UID m' found _ IH Hrun
                  |n m m' _ IH Hrun
                  |n m UID m' found _ IH Hrun
                  |n m name templateName templateType _ IH
                  |n m _ IH
                  |n m m' found _ IH Hrun
                  |n m updateTime m' _ IH Hrun]; intros Hn.
  - split; [apply consistent_new|]. split; [reflexivity|]. split; [constructor|].
    exists O. reflexivity.
  - destruct (IH Hn) as (Hc & Hnext & Hroot & Hd).
    unfold CreateTemplate in Hrun. apply obind_Done in Hrun as (t0 & _ & Heq).
    inversion Heq; subst. split; [apply consistent_templates, Hc|].
    split; [assumption|]. split; assumption.
  - destruct IH as (Hc & Hnext & Hroot & Hd); [lia|].
    unfold CreateEntity in Hrun. apply obind_Done in Hrun as (e & Hnew & Hadd).
    destruct (CEntity_new_Done _ _ _ _ _ _ _ Hnew) as (t0 & _ & _ & _ & Hu & _ & Hr).
    destruct (add_entity_spec m (AsEntity e) Hc Hd ltac:(lia) Hu)
      as (m'' & Hadd' & Hc' & Hl' & Hn' & _ & _ & Hs').
    rewrite Hadd in Hadd'. inversion Hadd'; subst m''.
    split; [exact Hc'|]. split; [lia|]. split; [|exact (doubled_grown m m' Hs' Hd)].
    rewrite Hl'. apply Forall_app. split; [exact Hroot|]. constructor; [exact Hr|constructor].
  - destruct IH as (Hc & Hnext & Hroot & Hd); [lia|].
    unfold CreatePlanet in Hrun. apply obind_Done in Hrun as (p & Hnew & Hadd).
    unfold CPlanetEntity_new in Hnew. apply obind_Done in Hnew as (e & Hnew & Heq).
    inversion Heq; subst p.
    destruct (CEntity_new_Done _ _ _ _ _ _ _ Hnew) as (t0 & _ & _ & _ & Hu & _ & Hr).
    destruct (add_entity_spec m (AsPlanet {| planet_CEntity := e; m_SpinSpeed := spinSpeed |})
                Hc Hd ltac:(lia) Hu)
      as (m'' & Hadd' & Hc' & Hl' & Hn' & _ & _ & Hs').
    rewrite Hadd in Hadd'. inversion Hadd'; subst m''.
    split; [exact Hc'|]. split; [lia|]. split; [|exact (doubled_grown m m' Hs' Hd)].
    rewrite Hl'. apply Forall_app. split; [exact Hroot|]. constructor; [exact Hr|constructor].
  - destruct (IH Hn) as (Hc & Hnext & Hroot & Hd).
    destruct (entity_of m UID) as [o|] eqn:Hfind.
    + destruct (entity_of_Some m UID o Hfind) as [Hin <-].
      apply list_elem_of_lookup_1 in Hin as [i Hi].
      destruct (DestroyEntity_present m i o Hc Hi)
        as (m'' & l' & lst & Hl & Hrun' & Hc' & Hl' & Hn' & _ & _ & Hs').
      rewrite Hrun in Hrun'. inversion Hrun'; subst m'' found.
      split; [exact Hc'|]. split; [lia|]. split; [|exact (doubled_same_size m m' Hs' Hd)].
      rewrite Hl in Hroot. apply Forall_app in Hroot as [Hroot Hlast].
      rewrite Hl'. destruct (decide (i = length l')); [exact Hroot|].
      apply Forall_insert; [exact Hroot|]. apply Forall_cons in Hlast as [Hlast _]. exact Hlast.
    + rewrite (DestroyEntity_absent m UID Hc Hfind) in Hrun.
      inversion Hrun; subst. auto.
  - destruct (IH Hn) as (Hc & Hnext & Hroot & Hd).
    destruct (DestroyAllEntities_spec m Hc)
      as (m'' & Hrun' & Hc' & Hl' & Hn' & _ & _ & _ & Hs').
    rewrite Hrun in Hrun'. inversion Hrun'; subst m''.
    split; [exact Hc'|]. split; [lia|]. split; [|exact (doubled_same_size m m' Hs' Hd)].
    rewrite Hl'. constructor.
  - destruct (IH Hn) as (Hc & Hnext & Hroot & Hd).
    rewrite (GetEntity_spec m UID Hc) in Hrun. inversion Hrun; subst. auto.
  - destruct (IH Hn) as (Hc & Hnext & Hroot & Hd).
    split; [apply consistent_BeginEnumEntities, Hc|]. split; [assumption|].
    split; assumption.
  - destruct (IH Hn) as (Hc & Hnext & Hroot & Hd).
    split; [|split; [assumption|split; assumption]].
    unfold EndEnumEntities.
    replace m with (with_position m (m_EnumEntity m)) at 1 by (destruct m; reflexivity).
    apply consistent_enum_state; [exact Hc|discriminate].
  - destruct (IH Hn) as (Hc & Hnext & Hroot & Hd).
    destruct (EnumEntity_outcome m (cs_enum m Hc)) as (pos & b & found' & Hrun' & Hpos & _).
    rewrite Hrun in Hrun'. inversion Hrun'; subst.
    split; [apply consistent_enum_state; assumption|]. split; [assumption|].
    split; assumption.
  - destruct (IH Hn) as (Hc & Hnext & Hroot & Hd).
    pose proof (cs_length m Hc) as Hlen. pose proof (cs_next m Hc) as Hrange.
    destruct (UpdateAllEntities_spec m updateTime ltac:(lia) Hroot) as (l' & Hrun' & Hall).
    rewrite Hrun in Hrun'. inversion Hrun'; subst m'.
    destruct (Update_all_uids _ _ _ Hall) as [Huids Hroot'].
    split; [apply consistent_same_uids; assumption|]. split; [exact Hnext|].
    split; [apply Hroot', Hroot|exact Hd].
Qed.

End Histories.

(** ** Properties of the entity manager *)

Section ManagerProperties.
Context {CVector3 CMatrix4x4 : Type} `{SceneLibrary CVector3 CMatrix4x4}.

#[local] Abbreviation Template_ := (CEntityTemplate CMatrix4x4).
#[local] Abbreviation Object := (CEntityObject CMatrix4x4).
#[local] Abbreviation Manager := (CEntityManager CMatrix4x4).

Lemma uids_nodup (m : Manager) : consistent m -> NoDup (GetUID <$> m_Entities m).
Proof.
  intros Hc. apply NoDup_alt. intros i j u Hi Hj.
  rewrite list_lookup_fmap in Hi, Hj.
  destruct (m_Entities m !! i) as [o|] eqn:Hoi; [|discriminate].
  destruct (m_Entities m !! j) as [o'|] eqn:Hoj; [|discriminate].
  inversion Hi. inversion Hj. apply (uid_unique m i j o o' Hc Hoi Hoj). congruence.
Qed.

Lemma entity_of_char (m : Manager) (UID : Z) (o : Object) :
  consistent m ->
  entity_of m UID = Some o <-> o ∈ m_Entities m /\ GetUID o = UID.
Proof.
  intros Hc. split; [apply entity_of_Some|].
  intros [Hin <-]. apply list_elem_of_lookup_1 in Hin as [i Hi].
  apply (entity_of_lookup m i o Hc Hi).
Qed.

(** Two consistent managers whose entities with a given UID are the same
    resolve the UID alike. *)
Lemma entity_of_agree (m m' : Manager) (UID : Z) :
  consistent m -> consistent m' ->
  (forall o, GetUID o = UID -> o ∈ m_Entities m' <-> o ∈ m_Entities m) ->
  entity_of m' UID = entity_of m UID.
Proof.
  intros Hc Hc' Hsame.
  destruct (entity_of m' UID) as [x|] eqn:Hx.
  - apply (entity_of_char m' UID x Hc') in Hx as [Hin Hu].
    symmetry. apply (entity_of_char m UID x Hc). split; [|exact Hu].
    apply (Hsame x Hu), Hin.
  - destruct (entity_of m UID) as [y|] eqn:Hy; [|reflexivity].
    apply (entity_of_char m UID y Hc) in Hy as [Hin Hu].
    assert (Hy' : entity_of m' UID = Some y)
      by (apply (entity_of_char m' UID y Hc'); split; [apply (Hsame y Hu), Hin|exact Hu]).
    congruence.
Qed.

Lemma EnumEntity_cancelled (m : Manager) :
  m_IsEnumerating m = false -> EnumEntity m = Done (m, None).
Proof. intros Hoff. unfold EnumEntity. rewrite Hoff. reflexivity. Qed.

Lemma NumEntities_small (m : Manager) :
  consistent m -> NumEntities m = Z.of_nat (length (m_Entities m)).
Proof.
  intros Hc. unfold NumEntities. apply wrap32_small.
  pose proof (cs_length m Hc). pose proof (cs_next m Hc). lia.
Qed.

Lemma registered_spec (m : Manager) (o : Object) :
  consistent m -> doubled m -> m_NextUID m <= uid_limit -> GetUID o = m_NextUID m ->
  exists m', add_entity m o = Done (m', m_NextUID m) /\ registered m o m'.
Proof.
  intros Hc Hd Hlim Huid.
  destruct (add_entity_spec m o Hc Hd Hlim Huid)
    as (m' & Hrun & Hc' & Hl & Hn & Hoff & Ht & Hs).
  exists m'. split; [exact Hrun|].
  assert (Hat : m_Entities m' !! length (m_Entities m) = Some o)
    by (rewrite Hl, lookup_app_r, Nat.sub_diag by lia; reflexivity).
  split.
  - exact Hc'.
  - exact Hl.
  - exact Huid.
  - exact Hn.
  - rewrite (NumEntities_small m Hc), (NumEntities_small m' Hc'), Hl, length_app.
    simpl. lia.
  - rewrite (GetEntity_spec m' _ Hc'), <- Huid, (entity_of_lookup m' _ o Hc' Hat).
    reflexivity.
  - intros UID Hne. rewrite (GetEntity_spec m' _ Hc'). f_equal. f_equal.
    apply (entity_of_agree m m' UID Hc Hc'). intros x Hx. rewrite Hl, elem_of_app.
    split; [|auto]. intros [Hin|Hin]; [exact Hin|].
    apply list_elem_of_singleton in Hin. subst x. congruence.
  - apply EnumEntity_cancelled, Hoff.
  - exact Ht.
  - exact Hs.
Qed.

(** X3. [CreateEntity] and [CreatePlanet] on a consistent manager whose
    UID map has its 2048 buckets doubled a number of times and whose UID
    counter is at most [uid_limit], with the name of a template whose
    mesh has a node: the call returns [m_NextUID]; the new entity has that
    UID, the given name, the template and the root matrix built from the
    parameters; it is appended to [m_Entities] and [GetEntity] finds it
    under the returned UID; every other UID resolves as before;
    [m_NextUID] and [NumEntities] have advanced by one, an enumeration in
    progress is cancelled, the UID map has kept or doubled its bucket
    count, and the manager is consistent again. *)
Theorem creation_registers_entity (m : Manager) (templateName name : string)
    (spinSpeed : TFloat32) (position rotation scale : CVector3) (tpl : Template_) :
  consistent m ->
  doubled m ->
  m_NextUID m <= uid_limit ->
  GetTemplate m templateName = Some tpl ->
  EntityTemplate.m_Mesh tpl <> [] ->
  let e := {| m_Template := tpl;
              m_UID := m_NextUID m;
              m_Name := name;
              m_RelMatrices := CMatrix4x4_new position rotation scale
                                 :: tail (EntityTemplate.m_Mesh tpl) |} in
  (exists m', CreateEntity m templateName name position rotation scale =
                Done (m', m_NextUID m) /\
              registered m (AsEntity e) m') /\
  (exists m', CreatePlanet m templateName name spinSpeed position rotation scale =
                Done (m', m_NextUID m) /\
              registered m (AsPlanet {| planet_CEntity := e;
                                        m_SpinSpeed := spinSpeed |}) m').
Proof.
  intros Hc Hd Hlim Htpl Hmesh e.
  assert (Hnew : CEntity_new (Some tpl) (m_NextUID m) name position rotation scale = Done e).
  { unfold CEntity_new, e.
    destruct (EntityTemplate.m_Mesh tpl) as [|node nodes]; [contradiction|reflexivity]. }
  split.
  - destruct (registered_spec m (AsEntity e) Hc Hd Hlim eq_refl) as (m' & Hrun & Hreg).
    exists m'. split; [|exact Hreg].
    unfold CreateEntity. rewrite Htpl, Hnew. exact Hrun.
  - destruct (registered_spec m (AsPlanet {| planet_CEntity := e;
                                             m_SpinSpeed := spinSpeed |}) Hc Hd Hlim eq_refl)
      as (m' & Hrun & Hreg).
    exists m'. split; [|exact Hreg].
    unfold CreatePlanet, CPlanetEntity_new. rewrite Htpl, Hnew. exact Hrun.
Qed.

(** X4. A creation with a template name that [GetTemplate] does not know
    dereferences the null pointer, and one with a template whose mesh has
    no node writes the root matrix into an empty array: [CreateEntity] and
    [CreatePlanet] fault in both cases, whatever the manager holds. *)
Theorem creation_without_template_faults (m : Manager) (templateName name : string)
    (spinSpeed : TFloat32) (position rotation scale : CVector3) :
  GetTemplate m templateName = None \/
  (exists tpl, GetTemplate m templateName = Some tpl /\ EntityTemplate.m_Mesh tpl = []) ->
  CreateEntity m templateName name position rotation scale = Fault /\
  CreatePlanet m templateName name spinSpeed position rotation scale = Fault.
Proof.
  intros [Hnone|(tpl & Htpl & Hmesh)];
    unfold CreateEntity, CreatePlanet, CPlanetEntity_new, CEntity_new.
  - rewrite Hnone. split; reflexivity.
  - rewrite Htpl, Hmesh. split; reflexivity.
Qed.

(** X5. [CreateTemplate] faults when the mesh cannot be loaded; otherwise
    it returns the new template, [GetTemplate] finds it under its name
    (in place of a template of the same name), every other name resolves
    as before, and entities, UID map, UID counter and enumeration state
    are untouched. *)
Theorem CreateTemplate_registers (m : Manager) (type name mesh : string) :
  (Load mesh = None -> CreateTemplate m type name mesh = Fault) /\
  (forall nodes, Load mesh = Some nodes ->
     let tpl := {| EntityTemplate.m_Type := type;
                   EntityTemplate.m_Name := name;
                   EntityTemplate.m_Mesh := nodes |} in
     exists m', CreateTemplate m type name mesh = Done (m', tpl) /\
                GetTemplate m' name = Some tpl /\
                (forall other, other <> name ->
                               GetTemplate m' other = GetTemplate m other) /\
                m_Entities m' = m_Entities m /\
                m_EntityUIDMap m' = m_EntityUIDMap m /\
                m_NextUID m' = m_NextUID m /\
                m_IsEnumerating m' = m_IsEnumerating m /\
                m_EnumEntity m' = m_EnumEntity m /\
                (consistent m -> consistent m')).
Proof.
  unfold CreateTemplate, EntityTemplate.CEntityTemplate_new. split.
  - intros ->. reflexivity.
  - intros nodes ->. cbv zeta. eexists. split; [reflexivity|].
    unfold GetTemplate. cbn.
    split; [apply lookup_insert_eq|].
    split; [intros other Hne; apply lookup_insert_ne; congruence|].
    do 5 (split; [reflexivity|]). apply consistent_templates.
Qed.

(** X6. [DestroyEntity] on a consistent manager. With a UID that no
    entity carries it returns false and leaves the whole manager as it
    was, an enumeration in progress included. With the UID of an entity it
    returns true: the last entity of [m_Entities] takes the place of the
    destroyed one and the vector loses its last element, all other
    entities keeping their positions; [GetEntity] no longer finds the UID
    and resolves every other UID as before; [NumEntities] has dropped by
    one, [m_NextUID] is unchanged, an enumeration in progress is
    cancelled, the UID map has the bucket count it had, and the manager
    is consistent again. *)
Theorem DestroyEntity_effect (m : Manager) (UID : Z) :
  consistent m ->
  (entity_of m UID = None -> DestroyEntity m UID = Done (m, false)) /\
  (forall o, entity_of m UID = Some o ->
     exists m' l' lst (i : nat),
       DestroyEntity m UID = Done (m', true) /\
       consistent m' /\
       m_Entities m = l' ++ [lst] /\
       m_Entities m !! i = Some o /\
       m_Entities m' = (if decide (i = length l') then l' else <[i := lst]> l') /\
       m_Entities m ≡ₚ o :: m_Entities m' /\
       NumEntities m' = NumEntities m - 1 /\
       GetEntity m' UID = Done (m', None) /\
       (forall UID', UID' <> UID -> GetEntity m' UID' = Done (m', entity_of m UID')) /\
       m_NextUID m' = m_NextUID m /\
       EnumEntity m' = Done (m', None) /\
       m_iSize (m_EntityUIDMap m') = m_iSize (m_EntityUIDMap m)).
Proof.
  intros Hc. split; [apply DestroyEntity_absent, Hc|].
  intros o Hfind.
  destruct (entity_of_Some m UID o Hfind) as [Hin Huid].
  apply list_elem_of_lookup_1 in Hin as [i Hi].
  destruct (DestroyEntity_present m i o Hc Hi)
    as (m' & l' & lst & Hl & Hrun & Hc' & Hl' & Hn & Hoff & _ & Hsize).
  rewrite Huid in Hrun.
  assert (Hperm : m_Entities m ≡ₚ o :: m_Entities m').
  { rewrite Hl', Hl. destruct (decide (i = length l')) as [->|Hne].
    - rewrite Hl, lookup_app_r, Nat.sub_diag in Hi by lia. inversion Hi; subst lst.
      symmetry. apply Permutation_cons_append.
    - apply insert_delete_perm.
      rewrite Hl in Hi. apply lookup_app_Some in Hi as [Hi|[Hlen Hi]]; [exact Hi|].
      apply lookup_lt_Some in Hi. simpl in Hi. lia. }
  exists m', l', lst, i.
  split; [exact Hrun|]. split; [exact Hc'|]. split; [exact Hl|]. split; [exact Hi|].
  split; [exact Hl'|]. split; [exact Hperm|].
  split.
  { rewrite (NumEntities_small m Hc), (NumEntities_small m' Hc'), Hperm. simpl. lia. }
  split.
  { rewrite (GetEntity_spec m' UID Hc'). f_equal. f_equal.
    apply entity_of_None. intros x Hx Hux.
    pose proof (uids_nodup m Hc) as Hnd. rewrite Hperm, fmap_cons in Hnd.
    apply NoDup_cons in Hnd as [Hnotin _]. apply Hnotin.
    rewrite Huid, <- Hux. apply list_elem_of_fmap. eauto. }
  split.
  { intros UID' Hne. rewrite (GetEntity_spec m' UID' Hc'). f_equal. f_equal.
    apply (entity_of_agree m m' UID' Hc Hc'). intros x Hx. rewrite Hperm, elem_of_cons.
    split; [auto|]. intros [->|Hin]; [congruence|exact Hin]. }
  split; [exact Hn|]. split; [apply EnumEntity_cancelled, Hoff|exact Hsize].
Qed.

(** X7. [DestroyAllEntities] on a consistent manager returns normally and
    leaves no entity: [NumEntities] is zero and [GetEntity] returns the
    null pointer for every UID; an enumeration in progress is cancelled.
    [m_NextUID] is not reset, so UIDs are not handed out again, and the
    entry count of the UID map keeps its previous value. *)
Theorem DestroyAllEntities_effect (m : Manager) :
  consistent m ->
  exists m', DestroyAllEntities m = Done m' /\
             consistent m' /\
             m_Entities m' = [] /\
             NumEntities m' = 0 /\
             (forall UID, GetEntity m' UID = Done (m', None)) /\
             EnumEntity m' = Done (m', None) /\
             m_NextUID m' = m_NextUID m /\
             m_Templates m' = m_Templates m /\
             m_iNumEntries (m_EntityUIDMap m') = m_iNumEntries (m_EntityUIDMap m) /\
             m_iSize (m_EntityUIDMap m') = m_iSize (m_EntityUIDMap m).
Proof.
  intros Hc.
  destruct (DestroyAllEntities_spec m Hc)
    as (m' & Hrun & Hc' & Hl & Hn & Hoff & Ht & Hcount & Hsize).
  exists m'. split; [exact Hrun|]. split; [exact Hc'|]. split; [exact Hl|].
  split; [unfold NumEntities; rewrite Hl; reflexivity|].
  split.
  { intros UID. rewrite (GetEntity_spec m' UID Hc'). f_equal. f_equal.
    apply entity_of_None. intros o Ho. rewrite Hl in Ho. inversion Ho. }
  split; [apply EnumEntity_cancelled, Hoff|]. auto.
Qed.

(** X8. [GetEntity( UID )] on a consistent manager returns normally and
    leaves the manager as it was; it returns an entity exactly when that
    entity is in [m_Entities] and carries the UID, and the null pointer
    when there is none. No two entities carry the same UID. *)
Theorem GetEntity_by_UID (m : Manager) (UID : Z) :
  consistent m ->
  exists found,
    GetEntity m UID = Done (m, found) /\
    (forall o, found = Some o <-> o ∈ m_Entities m /\ GetUID o = UID) /\
    (found = None <-> forall o, o ∈ m_Entities m -> GetUID o <> UID) /\
    NoDup (GetUID <$> m_Entities m).
Proof.
  intros Hc. exists (entity_of m UID).
  split; [apply GetEntity_spec, Hc|].
  split; [intros o; apply entity_of_char, Hc|].
  split; [apply entity_of_None|apply uids_nodup, Hc].
Qed.

(** X9. After [BeginEnumEntities( name, templateName, templateType )],
    calling [EnumEntity] until it returns the null pointer yields exactly
    the entities of [m_Entities] that pass the three tests (an empty
    string passing everything), each once and in the order of the vector;
    the enumeration is then over, a further [EnumEntity] returns the null
    pointer again, and entities, UID map and UID counter are as
    before. *)
Theorem enumeration_lists_matches (m : Manager) (name templateName templateType : string)
    (fuel : nat) :
  let passes := fun o : Object =>
    any_or_equal name (GetName o) &&
    any_or_equal templateName (EntityTemplate.m_Name (Template o)) &&
    any_or_equal templateType (EntityTemplate.m_Type (Template o)) = true in
  (length (filter passes (m_Entities m)) < fuel)%nat ->
  exists m',
    enumerate fuel (BeginEnumEntities m name templateName templateType) =
      Done (m', filter passes (m_Entities m)) /\
    m_IsEnumerating m' = false /\
    EnumEntity m' = Done (m', None) /\
    m_Entities m' = m_Entities m /\
    m_EntityUIDMap m' = m_EntityUIDMap m /\
    m_NextUID m' = m_NextUID m /\
    m_Templates m' = m_Templates m.
Proof.
  intros passes Hfuel.
  eexists. split.
  - apply (enumerate_spec fuel (BeginEnumEntities m name templateName templateType));
      [reflexivity|cbn; lia|exact Hfuel].
  - repeat split.
Qed.

(** X10. [GetEntity( name, templateName, templateType )] returns the first
    entity of [m_Entities] that has the name and passes the two template
    tests, and the null pointer when there is none. For a non-empty name
    its test is the one of [EnumEntity] after [BeginEnumEntities] with the
    same strings; an empty name selects the entities whose name is empty,
    whereas the enumeration then accepts every name. *)
Theorem GetEntity_named_first_match (m : Manager) (name templateName templateType : string) :
  GetEntity_named m name templateName templateType =
    head (filter (fun o => named name templateName templateType o = true)
            (m_Entities m)) /\
  (name <> EmptyString ->
   forall o : Object,
     named name templateName templateType o =
     enumerated (BeginEnumEntities m name templateName templateType) o) /\
  (forall o : Object,
     named EmptyString templateName templateType o = true ->
     GetName o = EmptyString) /\
  (forall o : Object,
     enumerated (BeginEnumEntities m EmptyString templateName templateType) o =
             any_or_equal templateName (EntityTemplate.m_Name (Template o)) &&
             any_or_equal templateType (EntityTemplate.m_Type (Template o))).
Proof.
  split; [|split; [|split]].
  - unfold GetEntity_named. induction (m_Entities m) as [|o l IH]; [reflexivity|].
    simpl. destruct (named name templateName templateType o) eqn:Ho.
    + rewrite filter_cons_True by exact Ho. reflexivity.
    + rewrite filter_cons_False by (rewrite Ho; discriminate). exact IH.
  - intros Hname o. unfold named, enumerated, any_or_equal. cbn.
    destruct name as [|c name]; [contradiction|]. reflexivity.
  - intros o Ho. unfold named in Ho.
    apply andb_prop in Ho as [Ho _]. apply andb_prop in Ho as [Ho _].
    apply bool_decide_eq_true in Ho. exact Ho.
  - intros o. reflexivity.
Qed.

(** X11. [UpdateAllEntities] with any virtual [Update] that leaves the UID
    of its entity alone and returns for every entity of the manager: on
    a consistent manager the loop ends within the round bound; every
    entity has been updated exactly once; the entities left are those
    whose update returned true, in their updated state, and the manager is
    consistent again; [GetEntity] returns the null pointer for the UID of
    an entity whose update returned false and the updated entity for the
    UID of one whose update returned true. *)
Theorem UpdateAllEntities_keeps_survivors
    (update : TFloat32 -> Object -> outcome (Object * bool))
    (m : Manager) (updateTime : TFloat32) :
  consistent m ->
  (forall o o' keep, update updateTime o = Done (o', keep) -> GetUID o' = GetUID o) ->
  Forall (fun o => exists r, update updateTime o = Done r) (m_Entities m) ->
  exists m',
    UpdateAllEntities_with update m updateTime = Done m' /\
    consistent m' /\
    m_Entities m' ≡ₚ kept update updateTime (m_Entities m) /\
    m_NextUID m' = m_NextUID m /\
    m_Templates m' = m_Templates m /\
    (forall o o' keep,
        o ∈ m_Entities m -> update updateTime o = Done (o', keep) ->
        GetEntity m' (GetUID o) = Done (m', if keep then Some o' else None)).
Proof.
  intros Hc Huid Hall.
  destruct (update_from_spec update updateTime Huid (S (length (m_Entities m)))
              [] (m_Entities m) m Hc eq_refl ltac:(lia) Hall)
    as (m' & rest & Hrun & Hc' & Hl & Hperm & Hn & Ht).
  simpl in Hl. subst rest.
  exists m'. split; [exact Hrun|]. split; [exact Hc'|]. split; [exact Hperm|].
  split; [exact Hn|]. split; [exact Ht|].
  intros o o' keep Hin Ho.
  rewrite (GetEntity_spec m' _ Hc'). f_equal. f_equal.
  assert (Hmember : forall x, x ∈ m_Entities m' <->
            exists y, y ∈ m_Entities m /\ update updateTime y = Done (x, true)).
  { intros x. rewrite Hperm. unfold kept. rewrite list_elem_of_omap. split.
    - intros (y & Hy & Hx). exists y. split; [exact Hy|].
      destruct (update updateTime y) as [[y' [|]]| |]; try discriminate.
      inversion Hx. reflexivity.
    - intros (y & Hy & Hx). exists y. split; [exact Hy|]. rewrite Hx. reflexivity. }
  assert (Hsame : forall y, y ∈ m_Entities m -> GetUID y = GetUID o -> y = o).
  { intros y Hy Hu.
    apply list_elem_of_lookup_1 in Hy as [j Hj].
    apply list_elem_of_lookup_1 in Hin as [i Hi].
    pose proof (uid_unique m j i y o Hc Hj Hi Hu). subst j.
    rewrite Hi in Hj. inversion Hj. reflexivity. }
  destruct keep.
  - apply (entity_of_char m' _ o' Hc'). split; [|apply (Huid o o' true Ho)].
    apply Hmember. eauto.
  - apply entity_of_None. intros x Hx Hux.
    apply Hmember in Hx as (y & Hy & Hxy).
    pose proof (Huid y x true Hxy) as Huy.
    rewrite (Hsame y Hy ltac:(congruence)) in Hxy. congruence.
Qed.

(** X12. [UpdateAllEntities] with the two entity classes of the
    repository, on a manager whose entities all have their root matrix:
    the call returns normally and destroys nothing; every entity stays at
    its position with its UID, name and template; an entity of the base
    class is unchanged, a planet has its root matrix turned by spin speed
    times update time and its other matrices and its spin speed unchanged;
    UID map, UID counter, templates and enumeration state are untouched,
    and a consistent manager stays consistent. *)
Theorem UpdateAllEntities_of_repository_classes (m : Manager) (updateTime : TFloat32) :
  Z.of_nat (length (m_Entities m)) < 2 ^ 32 ->
  Forall rooted (m_Entities m) ->
  exists l',
    UpdateAllEntities m updateTime = Done (with_objects m l') /\
    length l' = length (m_Entities m) /\
    (forall (i : nat) (o : Object),
        m_Entities m !! i = Some o ->
        exists o', l' !! i = Some o' /\
                   GetUID o' = GetUID o /\ GetName o' = GetName o /\
                   Template o' = Template o /\ rooted o' /\
                   match o with
                   | AsEntity e => o' = o
                   | AsPlanet p =>
                       exists p', o' = AsPlanet p' /\
                                  m_SpinSpeed p' = m_SpinSpeed p /\
                                  head (m_RelMatrices (planet_CEntity p')) =
                                    RotateLocalY (m_SpinSpeed p * updateTime)%Q
                                      <$> head (m_RelMatrices (planet_CEntity p)) /\
                                  tail (m_RelMatrices (planet_CEntity p')) =
                                    tail (m_RelMatrices (planet_CEntity p))
                   end) /\
    (consistent m -> consistent (with_objects m l')).
Proof.
  intros Hlen Hroot.
  destruct (UpdateAllEntities_spec m updateTime Hlen Hroot) as (l' & Hrun & Hall).
  exists l'. split; [exact Hrun|].
  split; [symmetry; apply (Forall2_length _ _ _ Hall)|].
  split.
  - intros i o Hi.
    destruct (Forall2_lookup_l _ _ _ _ _ Hall Hi) as (o' & Hi' & Ho).
    exists o'. split; [exact Hi'|].
    destruct (Update_Done _ _ _ _ Ho) as (_ & Hu & Hname & Htpl & Hr).
    split; [exact Hu|]. split; [exact Hname|]. split; [exact Htpl|].
    split; [apply Hr, (proj1 (Forall_forall _ _) Hroot o),
              (list_elem_of_lookup_2 _ _ _ Hi)|].
    unfold Update in Ho. destruct o as [e|p].
    + inversion Ho. reflexivity.
    + destruct (m_RelMatrices (planet_CEntity p)) as [|root nodes]; [discriminate|].
      inversion Ho. eexists. split; [reflexivity|]. repeat split.
  - intros Hc. apply consistent_same_uids; [exact Hc|].
    apply (Update_all_uids _ _ _ Hall).
Qed.

(** X13. Every manager obtained from the constructor by completed calls of
    the modelled functions, at most [uid_limit] of them creations, is
    consistent: the UID map sends exactly the UIDs of the entities to
    their positions. [m_NextUID] equals the number of creations; the UIDs
    of the entities are distinct and below it, so a UID is never given to
    a second entity; every entity has its root matrix; the bucket count
    of the UID map is 2048 doubled a number of times and can still be
    doubled within 32 bits. *)
Theorem managed_manager_is_consistent (n : nat) (m : Manager) :
  managed n m ->
  Z.of_nat n <= uid_limit ->
  consistent m /\
  m_NextUID m = Z.of_nat n /\
  NoDup (GetUID <$> m_Entities m) /\
  (forall o, o ∈ m_Entities m -> 0 <= GetUID o < Z.of_nat n /\ rooted o) /\
  NumEntities m <= Z.of_nat n /\
  m_iSize (m_EntityUIDMap m) * 2 < 2 ^ 32 /\
  doubled m.
Proof.
  intros Hm Hn. destruct (managed_invariant n m Hm Hn) as (Hc & Hnext & Hroot & Hd).
  split; [exact Hc|]. split; [exact Hnext|]. split; [apply uids_nodup, Hc|].
  split.
  - intros o Ho. rewrite <- Hnext. split; [apply (cs_fresh m Hc o Ho)|].
    apply (proj1 (Forall_forall _ _) Hroot o Ho).
  - split.
    + rewrite (NumEntities_small m Hc), <- Hnext. apply (cs_length m Hc).
    + split; [apply size_within_limit; [exact Hc|lia]|exact Hd].
Qed.

(** X14. On such a manager no modelled call runs into undefined
    behaviour: [DestroyEntity], [DestroyAllEntities], [GetEntity],
    [EnumEntity] and [UpdateAllEntities] return normally, as does
    [GetEntityAtIndex] for an index below [NumEntities]; [CreateEntity]
    and [CreatePlanet] return normally exactly when the template name is
    known and the template's mesh has a node. *)
Theorem managed_operations_return (n : nat) (m : Manager) :
  managed n m ->
  Z.of_nat n <= uid_limit ->
  (forall UID, exists m' found, DestroyEntity m UID = Done (m', found)) /\
  (exists m', DestroyAllEntities m = Done m') /\
  (forall UID, exists found, GetEntity m UID = Done (m, found)) /\
  (exists m' found, EnumEntity m = Done (m', found)) /\
  (forall updateTime, exists m', UpdateAllEntities m updateTime = Done m') /\
  (forall index, 0 <= index < NumEntities m ->
                 exists o, GetEntityAtIndex m index = Done o) /\
  (forall templateName name position rotation scale,
      (exists m' UID,
          CreateEntity m templateName name position rotation scale = Done (m', UID)) <->
      (exists tpl, GetTemplate m templateName = Some tpl /\
                   EntityTemplate.m_Mesh tpl <> [])) /\
  (forall templateName name spinSpeed position rotation scale,
      (exists m' UID,
          CreatePlanet m templateName name spinSpeed position rotation scale =
            Done (m', UID)) <->
      (exists tpl, GetTemplate m templateName = Some tpl /\
                   EntityTemplate.m_Mesh tpl <> [])).
Proof.
  intros Hm Hn. destruct (managed_invariant n m Hm Hn) as (Hc & Hnext & Hroot & Hd).
  pose proof (cs_length m Hc) as Hlen. pose proof (cs_next m Hc) as Hrange.
  split.
  { intros UID. destruct (entity_of m UID) as [o|] eqn:Hfind.
    - destruct (entity_of_Some m UID o Hfind) as [Hin <-].
      apply list_elem_of_lookup_1 in Hin as [i Hi].
      destruct (DestroyEntity_present m i o Hc Hi) as (m' & _ & _ & _ & Hrun & _).
      eauto.
    - rewrite (DestroyEntity_absent m UID Hc Hfind). eauto. }
  split.
  { destruct (DestroyAllEntities_spec m Hc) as (m' & Hrun & _). eauto. }
  split.
  { intros UID. rewrite (GetEntity_spec m UID Hc). eauto. }
  split.
  { destruct (EnumEntity_outcome m (cs_enum m Hc)) as (pos & b & found & Hrun & _). eauto. }
  split.
  { intros updateTime.
    destruct (UpdateAllEntities_spec m updateTime ltac:(lia) Hroot) as (l' & Hrun & _).
    eauto. }
  split.
  { intros index Hindex. rewrite (NumEntities_small m Hc) in Hindex.
    unfold GetEntityAtIndex, entity_at.
    destruct (0 <=? index) eqn:H0; [|apply Z.leb_gt in H0; lia].
    destruct (m_Entities m !! Z.to_nat index) as [o|] eqn:Ho; [eauto|].
    apply lookup_ge_None in Ho. lia. }
  assert (Hlim : m_NextUID m <= uid_limit) by lia.
  split.
  - intros templateName name position rotation scale. split.
    + intros (m' & UID & Hrun). unfold CreateEntity in Hrun.
      apply obind_Done in Hrun as (e & Hnew & _).
      destruct (CEntity_new_Done _ _ _ _ _ _ _ Hnew) as (tpl & Htpl & Hmesh & _).
      eauto.
    + intros (tpl & Htpl & Hmesh).
      destruct (CEntity_new_spec tpl (m_NextUID m) name position rotation scale Hmesh)
        as (e & Hnew & _ & Hu & _).
      destruct (add_entity_spec m (AsEntity e) Hc Hd Hlim Hu) as (m' & Hrun & _).
      exists m', (m_NextUID m). unfold CreateEntity. rewrite Htpl, Hnew. exact Hrun.
  - intros templateName name spinSpeed position rotation scale. split.
    + intros (m' & UID & Hrun). unfold CreatePlanet, CPlanetEntity_new in Hrun.
      apply obind_Done in Hrun as (p & Hnew & _).
      apply obind_Done in Hnew as (e & Hnew & _).
      destruct (CEntity_new_Done _ _ _ _ _ _ _ Hnew) as (tpl & Htpl & Hmesh & _).
      eauto.
    + intros (tpl & Htpl & Hmesh).
      destruct (CEntity_new_spec tpl (m_NextUID m) name position rotation scale Hmesh)
        as (e & Hnew & _ & Hu & _).
      destruct (add_entity_spec m
                  (AsPlanet {| planet_CEntity := e; m_SpinSpeed := spinSpeed |})
                  Hc Hd Hlim Hu) as (m' & Hrun & _).
      exists m', (m_NextUID m). unfold CreatePlanet, CPlanetEntity_new.
      rewrite Htpl, Hnew. exact Hrun.
Qed.

(** X15. [DestroyAllEntities] leaves the entry count of the UID map as it
    was. When that count exceeds the load limit, the next creation doubles
    the bucket count of the map although the map is empty: afterwards the
    manager holds one entity, the map has twice the buckets, and the
    resize has reset the entry count to the one stored pair. *)
Theorem creation_after_clearing_doubles_map (m : Manager) (templateName name : string)
    (position rotation scale : CVector3) (tpl : Template_) :
  consistent m ->
  m_NextUID m <= uid_limit ->
  GetTemplate m templateName = Some tpl ->
  EntityTemplate.m_Mesh tpl <> [] ->
  exceeds_load (m_iNumEntries (m_EntityUIDMap m)) (m_iSize (m_EntityUIDMap m))
    default_MaxLoadFactor = true ->
  exists m1 m2,
    DestroyAllEntities m = Done m1 /\
    entries (m_EntityUIDMap m1) = 0%nat /\
    m_iNumEntries (m_EntityUIDMap m1) = m_iNumEntries (m_EntityUIDMap m) /\
    CreateEntity m1 templateName name position rotation scale = Done (m2, m_NextUID m) /\
    NumEntities m2 = 1 /\
    entries (m_EntityUIDMap m2) = 1%nat /\
    m_iNumEntries (m_EntityUIDMap m2) = 1 /\
    m_iSize (m_EntityUIDMap m2) = 2 * m_iSize (m_EntityUIDMap m).
Proof.
  intros Hc Hlim Htpl Hmesh Hfull.
  destruct (DestroyAllEntities_spec m Hc)
    as (m1 & Hclear & Hc1 & Hl1 & Hn1 & _ & Ht1 & Hcount1 & Hsize1).
  pose proof (consistent_wf m1 Hc1) as Hwf1.
  assert (Hnone : contents (m_EntityUIDMap m1) = []).
  { destruct (contents (m_EntityUIDMap m1)) as [|p ps] eqn:Hcont; [reflexivity|].
    assert (Hp : stored (m_EntityUIDMap m1) (key p) (value p))
      by (unfold stored; rewrite pair_eta, Hcont; left).
    destruct (cs_entity m1 Hc1 _ _ Hp) as (i & o & _ & Hi & _).
    rewrite Hl1 in Hi. discriminate. }
  assert (Hent : entries (m_EntityUIDMap m1) = 0%nat)
    by (unfold entries; rewrite Hnone; reflexivity).
  assert (Hroom : m_iSize (m_EntityUIDMap m1) * 2 < 2 ^ 32)
    by (apply size_within_limit; [exact Hc1|lia]).
  pose proof (wf_size _ Hwf1) as Hpos.
  assert (Hdouble : wrap32 (m_iSize (m_EntityUIDMap m1) * 2) =
                    m_iSize (m_EntityUIDMap m1) * 2) by (apply wrap32_small; lia).
  destruct (SetKeyValue_resize_once (m_EntityUIDMap m1) (m_NextUID m1) 0 Hwf1
              (next_uid_unused m1 Hc1))
    as (t' & Hset & Hpost & Hsize' & Hcount').
  { rewrite (cs_load m1 Hc1), Hcount1, Hsize1. exact Hfull. }
  { rewrite Hdouble. lia. }
  { rewrite Hent. simpl. lia. }
  { intros j Hj. rewrite Hent in Hj. lia. }
  destruct (CEntity_new_spec tpl (m_NextUID m1) name position rotation scale Hmesh)
    as (e & Hnew & _).
  assert (Hin : inserted (m_EntityUIDMap m1) (m_NextUID m1) 0 t').
  { destruct (sp_effect _ _ _ _ Hpost) as [Hup|Hins]; [|exact Hins].
    exfalso. apply (next_uid_unused m1 Hc1), (up_present _ _ _ _ Hup). }
  eexists m1, _. split; [exact Hclear|]. split; [exact Hent|]. split; [exact Hcount1|].
  split.
  { unfold CreateEntity, GetTemplate. rewrite Ht1.
    unfold GetTemplate in Htpl. rewrite Htpl, Hnew. cbn [obind].
    unfold add_entity. cbn [m_Entities m_EntityUIDMap m_NextUID with_objects].
    rewrite Hl1. change (wrap32 (Z.of_nat (length []))) with 0.
    rewrite Hset. cbn [obind m_NextUID with_enumerating with_map with_objects].
    rewrite Hn1. reflexivity. }
  cbn. split; [reflexivity|].
  split; [rewrite (entries_perm t' _ _ (in_contents _ _ _ _ Hin)), Hnone; reflexivity|].
  split; [rewrite Hcount', Hent; reflexivity|].
  rewrite Hsize', Hdouble, Hsize1. lia.
Qed.

End ManagerProperties.

(** ** The concrete scene *)

Lemma stage_run :
  CreateTemplate (CEntityManager_new unit) "Planet" "Earth" "Sphere.x" =
    Done (stage, earth).
Proof. reflexivity. Qed.

Lemma stage_consistent : consistent stage.
Proof. apply consistent_templates, consistent_new. Qed.

Lemma stage_templates : m_Templates stage = <["Earth"%string := earth]> ∅.
Proof. reflexivity. Qed.

Lemma stage_template : GetTemplate stage "Earth" = Some earth.
Proof. unfold GetTemplate. rewrite stage_templates. apply lookup_insert_eq. Qed.

Lemma stage_limit : m_NextUID stage <= uid_limit.
Proof. change (0 <= 751619264). lia. Qed.

Lemma stage_doubled : doubled stage.
Proof. exists O. reflexivity. Qed.

Lemma earth_mesh : EntityTemplate.m_Mesh earth <> [].
Proof. discriminate. Qed.

Lemma one_planet_run :
  CreatePlanet stage "Earth" "Terra" (1 # 2)%Q tt tt tt = Done (one_planet, 0) /\
  registered stage terra one_planet.
Proof.
  destruct (registered_spec stage terra stage_consistent stage_doubled stage_limit eq_refl)
    as (m' & Hrun & Hreg).
  assert (Hcall : CreatePlanet stage "Earth" "Terra" (1 # 2)%Q tt tt tt = Done (m', 0)).
  { unfold CreatePlanet, CPlanetEntity_new, CEntity_new. rewrite stage_template.
    exact Hrun. }
  assert (Heq : one_planet = m') by (unfold one_planet; rewrite Hcall; reflexivity).
  rewrite Heq. split; assumption.
Qed.

Lemma one_planet_consistent : consistent one_planet.
Proof. apply (rg_consistent _ _ _ (proj2 one_planet_run)). Qed.

Lemma one_planet_entities : m_Entities one_planet = [terra].
Proof. apply (rg_entities _ _ _ (proj2 one_planet_run)). Qed.

Lemma one_planet_next : m_NextUID one_planet = 1.
Proof. apply (rg_next _ _ _ (proj2 one_planet_run)). Qed.

Lemma one_planet_doubled : doubled one_planet.
Proof. apply (doubled_grown stage), stage_doubled. apply (rg_size _ _ _ (proj2 one_planet_run)). Qed.

Lemma one_planet_template : GetTemplate one_planet "Earth" = Some earth.
Proof.
  unfold GetTemplate. rewrite (rg_templates _ _ _ (proj2 one_planet_run)).
  apply stage_template.
Qed.

Lemma populated_run :
  CreateEntity one_planet "Earth" "Luna" tt tt tt = Done (populated, 1) /\
  registered one_planet luna populated.
Proof.
  assert (Hlim : m_NextUID one_planet <= uid_limit)
    by (rewrite one_planet_next; unfold uid_limit; lia).
  destruct (registered_spec one_planet luna one_planet_consistent one_planet_doubled Hlim)
    as (m' & Hrun & Hreg); [rewrite one_planet_next; reflexivity|].
  rewrite one_planet_next in Hrun.
  assert (Hcall : CreateEntity one_planet "Earth" "Luna" tt tt tt = Done (m', 1)).
  { unfold CreateEntity, CEntity_new. rewrite one_planet_template, one_planet_next.
    exact Hrun. }
  assert (Heq : populated = m') by (unfold populated; rewrite Hcall; reflexivity).
  rewrite Heq. split; assumption.
Qed.

Lemma populated_consistent : consistent populated.
Proof. apply (rg_consistent _ _ _ (proj2 populated_run)). Qed.

Lemma populated_entities : m_Entities populated = [terra; luna].
Proof.
  rewrite (rg_entities _ _ _ (proj2 populated_run)), one_planet_entities. reflexivity.
Qed.

Lemma populated_managed : managed 2 populated.
Proof.
  apply (managed_CreateEntity 1 one_planet "Earth" "Luna" tt tt tt populated 1);
    [|apply populated_run].
  apply (managed_CreatePlanet 0 stage "Earth" "Terra" (1 # 2)%Q tt tt tt one_planet 0);
    [|apply one_planet_run].
  apply (managed_CreateTemplate 0 (CEntityManager_new unit) "Planet" "Earth" "Sphere.x"
           stage earth); [apply managed_new|apply stage_run].
Qed.

Lemma steady_with_entries {TKeyType : Type} `{KeyType TKeyType} {TValueType : Type}
    (t : CHashTable TKeyType TValueType) (n : Z) :
  wf t -> 0 <= n < 2 ^ 32 ->
  Z.of_nat (entries t) <= n ->
  exceeds_load (n - 1) (m_iSize t) (m_kfMaxLoadFactor t) = false ->
  steady (with_entries t n).
Proof.
  intros Hwf Hn Hcovered Hslack. split.
  - split.
    + exact (wf_length t Hwf).
    + exact (wf_size t Hwf).
    + exact Hn.
    + exact (wf_placed t Hwf).
    + exact (wf_nodup t Hwf).
  - exact Hcovered.
  - exact Hslack.
Qed.

Lemma worn_stage_consistent : consistent worn_stage.
Proof.
  assert (Hwf : wf (uid_table 2048 default_MaxLoadFactor)) by (apply new_wf; lia).
  assert (Hcont : contents (uid_table 2048 default_MaxLoadFactor) = [])
    by (apply new_contents).
  assert (Hsteady : steady (with_entries (uid_table 2048 default_MaxLoadFactor) 1434)).
  { apply steady_with_entries; [exact Hwf|lia| |].
    - unfold entries. rewrite Hcont. simpl. lia.
    - change (exceeds_load 1433 2048 default_MaxLoadFactor = false).
      vm_compute. reflexivity. }
  split.
  - exact Hsteady.
  - reflexivity.
  - intros i o Hi. discriminate.
  - intros k v Hkv. change (stored (uid_table 2048 default_MaxLoadFactor) k v) in Hkv.
    unfold stored in Hkv. rewrite Hcont in Hkv. inversion Hkv.
  - change (0 <= 1434 < 2 ^ 32). lia.
  - intros o Ho. inversion Ho.
  - change (1434 <= 1434). lia.
  - change (0 <= 1434). lia.
  - left. reflexivity.
  - discriminate.
Qed.

(** ** The properties at the concrete table and the concrete scene *)

Lemma distribution_of_one_entry :
  wf one_entry /\
  OutputDistribution one_entry =
    Done {| marks := ["0"; "0"; "1"; "0"]%char;
            iAverageBucketSize := 1;
            iUsedBuckets := 1 |} /\
  exists d, OutputDistribution one_entry = Done d /\
            length (marks d) = Z.to_nat (m_iSize one_entry) /\
            iAverageBucketSize d = Z.of_nat (entries one_entry) mod 2 ^ 32.
Proof.
  assert (Hrun : SetKeyValue fresh 1 10 = Done one_entry)
    by (apply done_result; vm_compute; reflexivity).
  assert (Hwf : wf one_entry).
  { apply (sp_wf fresh 1 10 one_entry), SetKeyValue_spec; [apply new_wf; lia|exact Hrun]. }
  split; [exact Hwf|]. split; [vm_compute; reflexivity|].
  destruct (OutputDistribution_counts one_entry Hwf) as (d & Hd & Hlen & _ & Havg & _).
  exists d. split; [exact Hd|]. split; [exact Hlen|exact Havg].
Defined.

Lemma distribution_of_cleared_one_entry :
  0 <= 4 < 2 ^ 32 /\
  wf one_entry /\
  OutputDistribution fresh =
    Done {| marks := replicate (Z.to_nat 4) "0"%char;
            iAverageBucketSize := 0;
            iUsedBuckets := 0 |} /\
  exists t', RemoveAllKeys one_entry = Done t' /\
             m_iNumEntries t' = m_iNumEntries one_entry /\
             OutputDistribution t' =
               Done {| marks := replicate (Z.to_nat (m_iSize one_entry)) "0"%char;
                       iAverageBucketSize := 0;
                       iUsedBuckets := 0 |}.
Proof.
  assert (Hsize : 0 <= 4 < 2 ^ 32) by lia.
  assert (Hrun : SetKeyValue fresh 1 10 = Done one_entry)
    by (apply done_result; vm_compute; reflexivity).
  assert (Hwf : wf one_entry).
  { apply (sp_wf fresh 1 10 one_entry), SetKeyValue_spec; [apply new_wf; lia|exact Hrun]. }
  destruct (OutputDistribution_of_cleared_table (TKeyType := Z) (TValueType := Z))
    as [Hnew Hcleared].
  split; [exact Hsize|]. split; [exact Hwf|].
  split; [exact (Hnew 4 JOneAtATimeHash default_MaxLoadFactor Hsize)|].
  exact (Hcleared one_entry Hwf).
Defined.

Lemma creation_on_stage :
  consistent stage /\
  doubled stage /\
  m_NextUID stage <= uid_limit /\
  GetTemplate stage "Earth" = Some earth /\
  EntityTemplate.m_Mesh earth <> [] /\
  (exists m', CreateEntity stage "Earth" "Terra" tt tt tt = Done (m', 0) /\
              m_Entities m' = [AsEntity {| m_Template := earth;
                                           m_UID := 0;
                                           m_Name := "Terra"%string;
                                           m_RelMatrices := [tt] |}]) /\
  (exists m', CreatePlanet stage "Earth" "Terra" (1 # 2)%Q tt tt tt = Done (m', 0) /\
              registered stage terra m').
Proof.
  split; [exact stage_consistent|]. split; [exact stage_doubled|].
  split; [exact stage_limit|].
  split; [exact stage_template|]. split; [exact earth_mesh|].
  destruct (creation_registers_entity stage "Earth" "Terra" (1 # 2)%Q tt tt tt earth
              stage_consistent stage_doubled stage_limit stage_template earth_mesh)
    as [(m1 & Hrun1 & Hreg1) Hplanet].
  split; [|exact Hplanet].
  exists m1. split; [exact Hrun1|]. exact (rg_entities _ _ _ Hreg1).
Defined.

Lemma creation_on_new_manager :
  GetTemplate (CEntityManager_new unit) "Earth" = None /\
  CreateEntity (CEntityManager_new unit) "Earth" "Terra" tt tt tt = Fault /\
  CreatePlanet (CEntityManager_new unit) "Earth" "Terra" (1 # 2)%Q tt tt tt = Fault.
Proof.
  assert (Hnone : GetTemplate (CEntityManager_new unit) "Earth" = None)
    by reflexivity.
  split; [exact Hnone|].
  apply (creation_without_template_faults (CEntityManager_new unit) "Earth" "Terra"
           (1 # 2)%Q tt tt tt).
  left. exact Hnone.
Defined.

Lemma templates_on_new_manager :
  Load EmptyString = None /\
  Load "Sphere.x" = Some [tt] /\
  CreateTemplate (CEntityManager_new unit) "Planet" "Earth" EmptyString = Fault /\
  exists m', CreateTemplate (CEntityManager_new unit) "Planet" "Earth" "Sphere.x" =
               Done (m', earth) /\
             GetTemplate m' "Earth" = Some earth.
Proof.
  assert (Hmissing : Load EmptyString = None) by reflexivity.
  assert (Hfile : Load "Sphere.x" = Some [tt]) by reflexivity.
  split; [exact Hmissing|]. split; [exact Hfile|].
  split.
  - exact (proj1 (CreateTemplate_registers (CEntityManager_new unit)
                    "Planet" "Earth" EmptyString) Hmissing).
  - destruct (proj2 (CreateTemplate_registers (CEntityManager_new unit)
                       "Planet" "Earth" "Sphere.x") [tt] Hfile)
      as (m' & Hrun & Hget & _).
    exists m'. split; [exact Hrun|exact Hget].
Defined.

Lemma populated_lookup (UID : Z) :
  entity_of populated UID =
    first_entity (fun o => bool_decide (GetUID o = UID)) [terra; luna].
Proof. unfold entity_of. rewrite populated_entities. reflexivity. Qed.

Lemma destruction_in_populated :
  consistent populated /\
  entity_of populated 7 = None /\
  entity_of populated 0 = Some terra /\
  DestroyEntity populated 7 = Done (populated, false) /\
  exists m', DestroyEntity populated 0 = Done (m', true) /\
             m_Entities m' = [luna] /\
             GetEntity m' 0 = Done (m', None) /\
             GetEntity m' 1 = Done (m', Some luna) /\
             m_iSize (m_EntityUIDMap m') = m_iSize (m_EntityUIDMap populated).
Proof.
  assert (Hnone : entity_of populated 7 = None)
    by (rewrite populated_lookup; reflexivity).
  assert (Hsome : entity_of populated 0 = Some terra)
    by (rewrite populated_lookup; reflexivity).
  split; [exact populated_consistent|]. split; [exact Hnone|]. split; [exact Hsome|].
  destruct (DestroyEntity_effect populated 7 populated_consistent) as [Habsent _].
  destruct (DestroyEntity_effect populated 0 populated_consistent) as [_ Hpresent].
  split; [exact (Habsent Hnone)|].
  destruct (Hpresent terra Hsome)
    as (m' & l' & lst & i & Hrun & _ & Hl & Hi & Hl' & _ & _ & Hgone & Hothers & Hrest).
  exists m'. split; [exact Hrun|].
  rewrite populated_entities in Hl, Hi.
  assert (Hparts : l' = [terra] /\ lst = luna).
  { change [terra; luna] with ([terra] ++ [luna]) in Hl.
    apply app_inj_tail in Hl as [-> ->]. split; reflexivity. }
  destruct Hparts as [-> ->].
  assert (Hpos : i = 0%nat).
  { destruct i as [|[|i]]; [reflexivity|discriminate|discriminate]. }
  subst i. simpl in Hl'.
  split; [exact Hl'|]. split; [exact Hgone|]. split; [|exact (proj2 (proj2 Hrest))].
  rewrite (Hothers 1 ltac:(lia)), populated_lookup. reflexivity.
Defined.

Lemma clearing_populated :
  consistent populated /\
  exists m', DestroyAllEntities populated = Done m' /\
             NumEntities m' = 0 /\
             (forall UID, GetEntity m' UID = Done (m', None)) /\
             m_NextUID m' = m_NextUID populated.
Proof.
  split; [exact populated_consistent|].
  destruct (DestroyAllEntities_effect populated populated_consistent)
    as (m' & Hrun & _ & _ & Hnum & Hget & _ & Hnext & _).
  exists m'. split; [exact Hrun|]. split; [exact Hnum|]. split; [exact Hget|exact Hnext].
Defined.

Lemma lookup_in_populated :
  consistent populated /\
  GetEntity populated 1 = Done (populated, Some luna) /\
  NoDup (GetUID <$> m_Entities populated).
Proof.
  split; [exact populated_consistent|].
  destruct (GetEntity_by_UID populated 1 populated_consistent)
    as (found & Hrun & Hfound & _ & Hnodup).
  split; [|exact Hnodup].
  rewrite Hrun. f_equal. f_equal. apply Hfound.
  rewrite populated_entities. split; [right; left|reflexivity].
Defined.

Lemma enumeration_of_populated :
  (length (filter (fun o : CEntityObject unit =>
                     any_or_equal EmptyString (GetName o) &&
                     any_or_equal "Earth" (EntityTemplate.m_Name (Template o)) &&
                     any_or_equal EmptyString (EntityTemplate.m_Type (Template o)) = true)
             (m_Entities populated)) < 3)%nat /\
  exists m', enumerate 3 (BeginEnumEntities populated EmptyString "Earth" EmptyString) =
               Done (m', [terra; luna]) /\
             EnumEntity m' = Done (m', None).
Proof.
  assert (Hall : filter (fun o : CEntityObject unit =>
                     any_or_equal EmptyString (GetName o) &&
                     any_or_equal "Earth" (EntityTemplate.m_Name (Template o)) &&
                     any_or_equal EmptyString (EntityTemplate.m_Type (Template o)) = true)
                   (m_Entities populated) = [terra; luna])
    by (rewrite populated_entities; reflexivity).
  assert (Hfuel : (length (filter (fun o : CEntityObject unit =>
                     any_or_equal EmptyString (GetName o) &&
                     any_or_equal "Earth" (EntityTemplate.m_Name (Template o)) &&
                     any_or_equal EmptyString (EntityTemplate.m_Type (Template o)) = true)
             (m_Entities populated)) < 3)%nat)
    by (rewrite Hall; simpl; lia).
  split; [exact Hfuel|].
  destruct (enumeration_lists_matches populated EmptyString "Earth" EmptyString 3 Hfuel)
    as (m' & Hrun & _ & Hdone & _).
  exists m'. split; [|exact Hdone]. rewrite Hrun, Hall. reflexivity.
Defined.

Lemma named_in_populated :
  "Luna"%string <> EmptyString /\
  GetEntity_named populated "Luna" EmptyString EmptyString = Some luna /\
  named "Luna" EmptyString EmptyString terra =
    enumerated (BeginEnumEntities populated "Luna" EmptyString EmptyString) terra.
Proof.
  assert (Hname : "Luna"%string <> EmptyString) by discriminate.
  destruct (GetEntity_named_first_match populated "Luna" EmptyString EmptyString)
    as (Hfirst & Hsame & _).
  split; [exact Hname|]. split; [|exact (Hsame Hname terra)].
  rewrite Hfirst, populated_entities. reflexivity.
Defined.

Lemma expiry_in_populated :
  consistent populated /\
  (forall o o' keep, expire_planets 1%Q o = Done (o', keep) -> GetUID o' = GetUID o) /\
  Forall (fun o => exists r, expire_planets 1%Q o = Done r) (m_Entities populated) /\
  exists m', UpdateAllEntities_with expire_planets populated 1%Q = Done m' /\
             m_Entities m' ≡ₚ [luna] /\
             GetEntity m' 0 = Done (m', None) /\
             GetEntity m' 1 = Done (m', Some luna).
Proof.
  assert (Huid : forall o o' keep,
             expire_planets 1%Q o = Done (o', keep) -> GetUID o' = GetUID o)
    by (intros o o' keep Heq; inversion Heq; reflexivity).
  assert (Hall : Forall (fun o => exists r, expire_planets 1%Q o = Done r)
                   (m_Entities populated))
    by (apply Forall_forall; intros o _; eexists; reflexivity).
  split; [exact populated_consistent|]. split; [exact Huid|]. split; [exact Hall|].
  destruct (UpdateAllEntities_keeps_survivors expire_planets populated 1%Q
              populated_consistent Huid Hall)
    as (m' & Hrun & _ & Hperm & _ & _ & Hget).
  exists m'. split; [exact Hrun|].
  split; [rewrite Hperm, populated_entities; reflexivity|].
  split.
  - apply (Hget terra terra false); [rewrite populated_entities; left|reflexivity].
  - apply (Hget luna luna true); [rewrite populated_entities; right; left|reflexivity].
Defined.

Lemma update_of_populated :
  Z.of_nat (length (m_Entities populated)) < 2 ^ 32 /\
  Forall rooted (m_Entities populated) /\
  exists l', UpdateAllEntities populated 1%Q = Done (with_objects populated l') /\
             length l' = length (m_Entities populated) /\
             l' !! 1%nat = Some luna.
Proof.
  assert (Hlen : Z.of_nat (length (m_Entities populated)) < 2 ^ 32)
    by (rewrite populated_entities; simpl; lia).
  assert (Hroot : Forall rooted (m_Entities populated))
    by (rewrite populated_entities; repeat constructor; discriminate).
  split; [exact Hlen|]. split; [exact Hroot|].
  destruct (UpdateAllEntities_of_repository_classes populated 1%Q Hlen Hroot)
    as (l' & Hrun & Hlength & Heach & _).
  exists l'. split; [exact Hrun|]. split; [exact Hlength|].
  destruct (Heach 1%nat luna) as (o' & Ho' & _ & _ & _ & _ & Hsame);
    [rewrite populated_entities; reflexivity|].
  rewrite Ho'. f_equal. exact Hsame.
Defined.

Lemma populated_is_consistent :
  managed 2 populated /\
  Z.of_nat 2 <= uid_limit /\
  consistent populated /\
  m_NextUID populated = Z.of_nat 2 /\
  NoDup (GetUID <$> m_Entities populated) /\
  doubled populated.
Proof.
  assert (Hn : Z.of_nat 2 <= uid_limit) by (unfold uid_limit; lia).
  split; [exact populated_managed|]. split; [exact Hn|].
  destruct (managed_manager_is_consistent 2 populated populated_managed Hn)
    as (Hc & Hnext & Hnodup & _ & _ & _ & Hd).
  split; [exact Hc|]. split; [exact Hnext|]. split; [exact Hnodup|exact Hd].
Defined.

Lemma populated_operations_return :
  managed 2 populated /\
  Z.of_nat 2 <= uid_limit /\
  (forall UID, exists m' found, DestroyEntity populated UID = Done (m', found)) /\
  (exists m' UID, CreateEntity populated "Earth" "Sol" tt tt tt = Done (m', UID)) /\
  ~ (exists m' UID, CreateEntity populated "Mars" "Sol" tt tt tt = Done (m', UID)).
Proof.
  assert (Hn : Z.of_nat 2 <= uid_limit) by (unfold uid_limit; lia).
  split; [exact populated_managed|]. split; [exact Hn|].
  destruct (managed_operations_return 2 populated populated_managed Hn)
    as (Hdestroy & _ & _ & _ & _ & _ & Hcreate & _).
  assert (Htemplates : m_Templates populated = m_Templates stage).
  { rewrite (rg_templates _ _ _ (proj2 populated_run)).
    apply (rg_templates _ _ _ (proj2 one_planet_run)). }
  split; [exact Hdestroy|]. split.
  - apply (proj2 (Hcreate "Earth"%string "Sol"%string tt tt tt)).
    exists earth. split; [|exact earth_mesh].
    unfold GetTemplate. rewrite Htemplates. exact stage_template.
  - intros Hrun. apply (proj1 (Hcreate "Mars"%string "Sol"%string tt tt tt)) in Hrun
      as (tpl & Htpl & _).
    unfold GetTemplate in Htpl. rewrite Htemplates, stage_templates in Htpl.
    rewrite lookup_insert_ne in Htpl by discriminate.
    rewrite lookup_empty in Htpl. discriminate.
Defined.

Lemma creation_on_worn_stage :
  consistent worn_stage /\
  m_NextUID worn_stage <= uid_limit /\
  GetTemplate worn_stage "Earth" = Some earth /\
  EntityTemplate.m_Mesh earth <> [] /\
  exceeds_load (m_iNumEntries (m_EntityUIDMap worn_stage))
    (m_iSize (m_EntityUIDMap worn_stage)) default_MaxLoadFactor = true /\
  exceeds_load 0 (m_iSize (m_EntityUIDMap worn_stage)) default_MaxLoadFactor = false /\
  exists m1 m2,
    DestroyAllEntities worn_stage = Done m1 /\
    CreateEntity m1 "Earth" "Luna" tt tt tt = Done (m2, 1434) /\
    NumEntities m2 = 1 /\
    m_iSize (m_EntityUIDMap m2) = 4096.
Proof.
  assert (Hlim : m_NextUID worn_stage <= uid_limit)
    by (change (1434 <= 751619264); lia).
  assert (Htpl : GetTemplate worn_stage "Earth" = Some earth) by exact stage_template.
  assert (Hfull : exceeds_load (m_iNumEntries (m_EntityUIDMap worn_stage))
                    (m_iSize (m_EntityUIDMap worn_stage)) default_MaxLoadFactor = true)
    by (vm_compute; reflexivity).
  split; [exact worn_stage_consistent|]. split; [exact Hlim|]. split; [exact Htpl|].
  split; [exact earth_mesh|]. split; [exact Hfull|].
  split; [vm_compute; reflexivity|].
  destruct (creation_after_clearing_doubles_map worn_stage "Earth" "Luna" tt tt tt earth
              worn_stage_consistent Hlim Htpl earth_mesh Hfull)
    as (m1 & m2 & Hclear & _ & _ & Hrun & Hnum & _ & _ & Hsize).
  exists m1, m2. split; [exact Hclear|]. split; [exact Hrun|]. split; [exact Hnum|].
  rewrite Hsize. reflexivity.
Defined.

(** ** What [AddUpHash] cannot tell apart *)

Lemma sum_of_bytes_perm (pKey pKey' : list Z) :
  pKey ≡ₚ pKey' -> Reference.sum_of_bytes pKey = Reference.sum_of_bytes pKey'.
Proof.
  intros Hperm. unfold Reference.sum_of_bytes. f_equal.
  induction Hperm as [|b l l' _ IH|a b l|l l' l'' _ IH1 _ IH2]; simpl; lia.
Qed.

Lemma AddUpHash_of_uid (k : Z) : 0 <= AddUpHash (uint32_bytes k) 4 <= 1020.
Proof.
  change 4 with (Z.of_nat (length (uint32_bytes k))).
  rewrite AddUpHash_reference. unfold Reference.sum_of_bytes, uint32_bytes. simpl.
  pose proof (Z.mod_pos_bound k 256 ltac:(lia)).
  pose proof (Z.mod_pos_bound (k / 256) 256 ltac:(lia)).
  pose proof (Z.mod_pos_bound (k / 65536) 256 ltac:(lia)).
  pose proof (Z.mod_pos_bound (k / 16777216) 256 ltac:(lia)).
  rewrite Z.mod_small; lia.
Qed.

(** X16. [AddUpHash] does not depend on the order of the key bytes: keys
    whose bytes are rearrangements of each other have the same hash. For
    a four-byte key the hash is at most 1020, so a table of four-byte keys
    that hashes with [AddUpHash] never uses a bucket beyond index 1020,
    however many buckets it has. *)
Theorem AddUpHash_ignores_byte_order :
  (forall pKey pKey' : list Z,
      pKey ≡ₚ pKey' ->
      AddUpHash pKey (Z.of_nat (length pKey)) =
      AddUpHash pKey' (Z.of_nat (length pKey'))) /\
  (forall k : Z, 0 <= AddUpHash (key_data k) sizeof_key <= 1020) /\
  (forall (TValueType : Type) (t : CHashTable Z TValueType) (k i : Z),
      m_kpfHashFunction t = AddUpHash ->
      FindBucket t k = Done i -> i <= 1020).
Proof.
  split; [|split].
  - intros pKey pKey' Hperm. rewrite !AddUpHash_reference.
    apply sum_of_bytes_perm, Hperm.
  - intros k. apply AddUpHash_of_uid.
  - intros TValueType t k i Hhash Hfind. unfold FindBucket in Hfind.
    destruct (m_iSize t =? 0) eqn:Hzero; [discriminate|].
    apply Z.eqb_neq in Hzero. inversion Hfind; subst i.
    unfold hash_of. rewrite Hhash.
    pose proof (AddUpHash_of_uid k) as Hbound.
    change (key_data k) with (uint32_bytes k). change sizeof_key with 4.
    destruct (Z_lt_dec 0 (m_iSize t)) as [Hpos|Hneg].
    + pose proof (Z.mod_le (AddUpHash (uint32_bytes k) 4) (m_iSize t)
                    ltac:(lia) Hpos). lia.
    + pose proof (Z.mod_neg_bound (AddUpHash (uint32_bytes k) 4) (m_iSize t)
                    ltac:(lia)). lia.
Qed.

Lemma AddUpHash_of_swapped_bytes :
  uint32_bytes 258 ≡ₚ uint32_bytes 513 /\
  AddUpHash (uint32_bytes 258) 4 = AddUpHash (uint32_bytes 513) 4 /\
  1020 <= 1020 /\
  m_kpfHashFunction (CHashTable_new 2048 AddUpHash default_MaxLoadFactor
                     : CHashTable Z Z) = AddUpHash /\
  FindBucket (CHashTable_new 2048 AddUpHash default_MaxLoadFactor : CHashTable Z Z)
    4294967295 = Done 1020.
Proof.
  destruct AddUpHash_ignores_byte_order as (Hperm & _ & Hbucket).
  assert (Hswap : uint32_bytes 258 ≡ₚ uint32_bytes 513)
    by (change ([2; 1; 0; 0] ≡ₚ [1; 2; 0; 0]); apply perm_swap).
  assert (Hfind : FindBucket (CHashTable_new 2048 AddUpHash default_MaxLoadFactor
                              : CHashTable Z Z) 4294967295 = Done 1020)
    by (vm_compute; reflexivity).
  split; [exact Hswap|]. split; [exact (Hperm _ _ Hswap)|].
  split; [exact (Hbucket Z (CHashTable_new 2048 AddUpHash default_MaxLoadFactor)
                   4294967295 1020 eq_refl Hfind)|].
  split; [reflexivity|exact Hfind].
Defined.
